(** * multiplex-websocket: frame codec, send dispatcher, channels, connection

    A shallow embedding of [src/index.ts] and of its later split into
    [multiplex-websocket-dispatcher.ts], [multiplex-websocket-channel.ts]
    and the connection class, followed by the properties of the frame
    codec, of the send scheduler and of the inbound dispatch.

    Conventions of the embedding.
    - A JavaScript [number] that holds an integer is a [Z]; an [ArrayBuffer]
      or [Buffer] is a [list byte].
    - A call that may throw returns an [option] (or a sum when the error
      message matters); [None] is the exception.
    - An [async] function is cut at its [await]s: the part that runs
      synchronously is a function on the state, and the suspended rest is
      a field of the state that a later wake-up event resumes. *)

From Stdlib.Strings Require Import Byte String.
From Stdlib Require Import ZArith List Bool Lia PeanoNat.
Import ListNotations.
Open Scope list_scope.
Open Scope Z_scope.

(** ** Small prelude: the exception monad and bytes *)

Definition bind {A B : Type} (x : option A) (f : A -> option B) : option B :=
  match x with
  | Some a => f a
  | None => None
  end.

Notation "x <- e ;; k" := (bind e (fun x => k))
  (at level 61, e at next level, right associativity).

(** The number stored in one element of a byte array. *)
Definition Z_of_byte (b : byte) : Z := Z.of_N (Byte.to_N b).

(** Storing a number into a [Uint8Array] element keeps it modulo 256. *)
Definition byte_of_Z (v : Z) : byte :=
  match Byte.of_N (Z.to_N (v mod 256)) with
  | Some b => b
  | None => x00
  end.

(** [buf.set(src, offset)] and the [write*] methods overwrite in place. *)
Definition overwrite (buf : list byte) (offset : nat) (src : list byte) : list byte :=
  firstn offset buf ++ src ++ skipn (offset + length src) buf.

(** Arrays of references. An object is identified by its address:
    [array.indexOf(object)] looks for the address, and a mutation through a
    reference shows wherever the array refers to the object. *)

Section ObjectArrays.
Context {A : Type} (addressOf : A -> nat).

Definition mutateAt (address : nat) (f : A -> A) (array : list A) : list A :=
  map (fun x => if Nat.eqb (addressOf x) address then f x else x) array.

Fixpoint indexOfAt (address : nat) (array : list A) : option nat :=
  match array with
  | [] => None
  | x :: rest =>
      if Nat.eqb (addressOf x) address then Some 0%nat
      else option_map S (indexOfAt address rest)
  end.
End ObjectArrays.

(** [array.splice(index, 1)] *)
Definition splice {A : Type} (index : nat) (array : list A) : list A :=
  firstn index array ++ skipn (S index) array.

(** ** [enum MultiplexWebSocketOpcode] *)

Module MultiplexWebSocketOpcode.
Definition CreateChannel : Z := 0.
Definition CloseChannel : Z := 1.
Definition Data : Z := 2.
Definition ChannelBufferFull : Z := 3.
Definition ChannelBufferEmpty : Z := 4.

(** The five members of the enum. TypeScript erases the enum type: at run
    time an opcode is any number. *)
Definition recognized (opcode : Z) : bool :=
  (opcode =? CreateChannel) || (opcode =? CloseChannel) || (opcode =? Data)
  || (opcode =? ChannelBufferFull) || (opcode =? ChannelBufferEmpty).
End MultiplexWebSocketOpcode.

(** ** [DataView] reads and [Buffer] writes *)

Module DataView.
(** [view.getUint8(offset)]: a [RangeError] past the end. *)
Definition getUint8 (buffer : list byte) (offset : nat) : option Z :=
  option_map Z_of_byte (nth_error buffer offset).

(** [view.getUint32(offset, false)]: four bytes, big endian. *)
Definition getUint32 (buffer : list byte) (offset : nat) : option Z :=
  b0 <- getUint8 buffer offset ;;
  b1 <- getUint8 buffer (offset + 1) ;;
  b2 <- getUint8 buffer (offset + 2) ;;
  b3 <- getUint8 buffer (offset + 3) ;;
  Some (((b0 * 256 + b1) * 256 + b2) * 256 + b3).
End DataView.

Module Buffer.
(** [Buffer.alloc(size)]: zero filled. *)
Definition alloc (size : nat) : list byte := repeat x00 size.

(** [buf.writeUInt8(value, offset)]: a [RangeError] when [value] is not
    in [0, 255] or the byte does not fit. *)
Definition writeUInt8 (buf : list byte) (value : Z) (offset : nat)
  : option (list byte) :=
  if (0 <=? value) && (value <=? 255) && (offset + 1 <=? length buf)%nat
  then Some (overwrite buf offset [byte_of_Z value])
  else None.

(** [buf.writeUInt32BE(value, offset)]: a [RangeError] when [value] is
    not in [0, 2^32 - 1] or the four bytes do not fit. *)
Definition writeUInt32BE (buf : list byte) (value : Z) (offset : nat)
  : option (list byte) :=
  if (0 <=? value) && (value <=? 4294967295) && (offset + 4 <=? length buf)%nat
  then Some (overwrite buf offset
               [byte_of_Z (value / 16777216); byte_of_Z (value / 65536);
                byte_of_Z (value / 256); byte_of_Z value])
  else None.
End Buffer.

(** ** [class MultiplexWebSocketMessage] *)

Module MultiplexWebSocketMessage.
Record t : Type := mk {
  _opcode : Z;
  _local : bool;
  _id : Z;
  _data : option (list byte)   (* [ArrayBuffer | undefined] *)
}.

(** [static parse(buffer)]. The opcode byte is taken as it is: nothing
    compares it with the enum. *)
Definition parse (buffer : list byte) : option t :=
  opcode <- DataView.getUint8 buffer 0 ;;
  flag <- DataView.getUint8 buffer 1 ;;
  id <- DataView.getUint32 buffer 2 ;;
  Some (mk opcode (flag =? 0) id (Some (skipn 6 buffer))).

(** [this._data ? this._data.byteLength : 0]; an [ArrayBuffer] object is
    truthy also when it is empty. *)
Definition byteLength (m : t) : nat :=
  match _data m with
  | Some data => length data
  | None => 0%nat
  end.

(** [toBuffer()]. *)
Definition toBuffer (m : t) : option (list byte) :=
  let result := Buffer.alloc (6 + byteLength m) in
  result <- Buffer.writeUInt8 result (_opcode m) 0 ;;
  result <- Buffer.writeUInt8 result (if _local m then 0 else 1) 1 ;;
  result <- Buffer.writeUInt32BE result (_id m) 2 ;;
  Some (match _data m with
        | Some data => overwrite result 6 data
        | None => result
        end).

(** The payload bytes a message carries on the wire. *)
Definition payload (m : t) : list byte :=
  match _data m with
  | Some data => data
  | None => []
  end.
End MultiplexWebSocketMessage.

(** ** The transport

    The socket is an external collaborator. The model keeps what the
    dispatcher reads ([bufferedAmount], [readyState]) and a log of the
    messages handed to [send]. *)

Module WebSocket.
Inductive ReadyState : Type := CONNECTING | OPEN | CLOSING | CLOSED.

Record t : Type := mk {
  bufferedAmount : Z;
  readyState : ReadyState;
  sent : list (list byte)
}.

Definition isOpen (socket : t) : bool :=
  match readyState socket with
  | OPEN => true
  | _ => false
  end.

(** [socket.send(data)]: on an open socket the message is queued for
    transmission and counted in [bufferedAmount]. The call throws only
    while the socket is connecting; on a socket that is closing or closed
    it returns, the message is counted in [bufferedAmount] and dropped
    (the behaviour of [ws] 7 and of the browsers' [WebSocket]). *)
Definition send (data : list byte) (socket : t) : option t :=
  if isOpen socket
  then Some (mk (bufferedAmount socket + Z.of_nat (length data))
               (readyState socket) (sent socket ++ [data]))
  else
    match readyState socket with
    | CONNECTING => None
    | _ => Some (mk (bufferedAmount socket + Z.of_nat (length data))
                   (readyState socket) (sent socket))
    end.
End WebSocket.

(** ** Promises

    A [PromiseResolver] is a number; the dispatcher keeps the log of the
    [resolve] and [reject] calls. A promise settles once: later calls on
    the same resolver do nothing. *)

Inductive Settlement : Type := Fulfilled | Rejected.

Definition status (resolver : nat) (log : list (nat * Settlement)) : option Settlement :=
  option_map snd (find (fun entry => Nat.eqb (fst entry) resolver) log).

Definition settle (resolver : nat) (how : Settlement) (log : list (nat * Settlement))
  : list (nat * Settlement) :=
  match status resolver log with
  | Some _ => log
  | None => log ++ [(resolver, how)]
  end.

(** ** [waitWebSocketBufferAmountLow]

    The function returns either the shared [resolvedPromise] or the promise
    of a poller that looks at the socket every 500 ms. *)

Inductive Wait : Type := resolvedPromise | polling.

Definition bufferLowAmount : Z := 1024 * 1024.

Definition waitWebSocketBufferAmountLow (socket : WebSocket.t) : Wait :=
  if WebSocket.bufferedAmount socket <? bufferLowAmount
  then resolvedPromise
  else polling.

(** One run of the [setInterval] callback: [None] when the promise stays
    pending. On a socket that is not open the [reject] comes first, so the
    [resolve] that may follow has no effect. *)
Definition interval (socket : WebSocket.t) : option Settlement :=
  if negb (WebSocket.isOpen socket) then Some Rejected
  else if WebSocket.bufferedAmount socket <? bufferLowAmount then Some Fulfilled
  else None.

(** What an [await] on the promise observes when its continuation is given
    a chance to run. *)
Definition awaited (wait : Wait) (socket : WebSocket.t) : option Settlement :=
  match wait with
  | resolvedPromise => Some Fulfilled
  | polling => interval socket
  end.

(** ** [interface MultiplexWebSocketSendTask], [class MultiplexWebSocketSendQueue] *)

Module MultiplexWebSocketSendTask.
Record t : Type := mk {
  resolver : nat;
  data : list byte
}.
End MultiplexWebSocketSendTask.

Module MultiplexWebSocketSendQueue.
Module Task := MultiplexWebSocketSendTask.

(** [address] is the identity of the object: [indexOf] and the mutations
    through a reference ([candidate.dequeue()], [queue.remoteFull = ...])
    go by it. *)
Record t : Type := mk {
  address : nat;
  _local : bool;
  _id : Z;
  _queue : list Task.t;
  remoteFull : bool;
  lastSendTime : Z
}.

Definition new (address : nat) (local : bool) (id : Z) : t :=
  mk address local id [] false 0.

Definition length (x : t) : nat := List.length (_queue x).

Definition with_queue (queue : list Task.t) (x : t) : t :=
  mk (address x) (_local x) (_id x) queue (remoteFull x) (lastSendTime x).

Definition with_remoteFull (full : bool) (x : t) : t :=
  mk (address x) (_local x) (_id x) (_queue x) full (lastSendTime x).

Definition with_lastSendTime (time : Z) (x : t) : t :=
  mk (address x) (_local x) (_id x) (_queue x) (remoteFull x) time.

(** [enqueue(data)] with the resolver it creates. *)
Definition enqueue (resolver : nat) (data : list byte) (x : t) : t :=
  with_queue (_queue x ++ [Task.mk resolver data]) x.

(** [dequeue()]: [this._queue.shift()]. *)
Definition dequeue (x : t) : option Task.t * t :=
  match _queue x with
  | [] => (None, x)
  | task :: rest => (Some task, with_queue rest x)
  end.

(** [x => !x.remoteFull && x.length] *)
Definition pending (x : t) : bool :=
  negb (remoteFull x) && negb (Nat.eqb (length x) 0).

(** [x => x.local === local && x.id === id] *)
Definition matches (local : bool) (id : Z) (x : t) : bool :=
  Bool.eqb (_local x) local && (_id x =? id).

(** [pending.sort((a, b) => a.lastSendTime - b.lastSendTime)]. The sort
    of an array is stable: elements that compare equal keep their order. *)
Fixpoint insert (a : t) (sorted : list t) : list t :=
  match sorted with
  | [] => [a]
  | b :: rest =>
      if lastSendTime a - lastSendTime b <=? 0
      then a :: sorted
      else b :: insert a rest
  end.

Fixpoint sort (queues : list t) : list t :=
  match queues with
  | [] => []
  | a :: rest => insert a (sort rest)
  end.

(** A mutation of the queue object at an address, and
    [queues.indexOf(queue)]. *)
Definition mutate : nat -> (t -> t) -> list t -> list t := mutateAt address.

Definition indexOf : nat -> list t -> option nat := indexOfAt address.
End MultiplexWebSocketSendQueue.

(** ** [class MultiplexWebSocketDispatcher]

    The class appears twice in the repository, in [index.ts] and in
    [multiplex-websocket-dispatcher.ts]. The two texts are the same line by
    line except for the expression that chooses the opcode of a data frame,
    so one embedding takes the file as a parameter. *)

Module MultiplexWebSocketDispatcher.
Module Opcode := MultiplexWebSocketOpcode.
Module Message := MultiplexWebSocketMessage.
Module Task := MultiplexWebSocketSendTask.
Module Queue := MultiplexWebSocketSendQueue.

Inductive Source : Type := index_ts | multiplex_websocket_dispatcher_ts.

(** The fields of the class, the two suspended [async] loops, and the
    promise store.
    - [controlAwait] is [Some wait] while [processControlQueue] is
      suspended at its [await].
    - [queuesAwait] is [Some (wait, candidate, task)] while
      [processQueues] is suspended at its [await]; [candidate] is the
      queue object as it was when the loop suspended. Its [local] and
      [id] are read-only and its [lastSendTime] is written by this loop
      only, so they are still the object's when the loop resumes.
    - [allocated] counts the queue objects created, [resolvers] the
      [PromiseResolver]s created; [settled] logs [resolve]/[reject]. *)
Record t : Type := mk {
  _socket : WebSocket.t;
  _queues : list Queue.t;
  _controlQueue : list Message.t;
  _processingControlQueue : bool;
  _processingQueues : bool;
  controlAwait : option Wait;
  queuesAwait : option (Wait * Queue.t * Task.t);
  allocated : nat;
  resolvers : nat;
  settled : list (nat * Settlement)
}.

Definition new (owner : WebSocket.t) : t :=
  mk owner [] [] false false None None 0 0 [].

Definition with_socket (socket : WebSocket.t) (d : t) : t :=
  mk socket (_queues d) (_controlQueue d) (_processingControlQueue d)
     (_processingQueues d) (controlAwait d) (queuesAwait d)
     (allocated d) (resolvers d) (settled d).

Definition with_queues (queues : list Queue.t) (d : t) : t :=
  mk (_socket d) queues (_controlQueue d) (_processingControlQueue d)
     (_processingQueues d) (controlAwait d) (queuesAwait d)
     (allocated d) (resolvers d) (settled d).

Definition with_controlQueue (messages : list Message.t) (d : t) : t :=
  mk (_socket d) (_queues d) messages (_processingControlQueue d)
     (_processingQueues d) (controlAwait d) (queuesAwait d)
     (allocated d) (resolvers d) (settled d).

Definition with_processingControlQueue (flag : bool) (d : t) : t :=
  mk (_socket d) (_queues d) (_controlQueue d) flag
     (_processingQueues d) (controlAwait d) (queuesAwait d)
     (allocated d) (resolvers d) (settled d).

Definition with_processingQueues (flag : bool) (d : t) : t :=
  mk (_socket d) (_queues d) (_controlQueue d) (_processingControlQueue d)
     flag (controlAwait d) (queuesAwait d)
     (allocated d) (resolvers d) (settled d).

Definition with_controlAwait (await : option Wait) (d : t) : t :=
  mk (_socket d) (_queues d) (_controlQueue d) (_processingControlQueue d)
     (_processingQueues d) await (queuesAwait d)
     (allocated d) (resolvers d) (settled d).

Definition with_queuesAwait (await : option (Wait * Queue.t * Task.t)) (d : t) : t :=
  mk (_socket d) (_queues d) (_controlQueue d) (_processingControlQueue d)
     (_processingQueues d) (controlAwait d) await
     (allocated d) (resolvers d) (settled d).

Definition with_allocated (count : nat) (d : t) : t :=
  mk (_socket d) (_queues d) (_controlQueue d) (_processingControlQueue d)
     (_processingQueues d) (controlAwait d) (queuesAwait d)
     count (resolvers d) (settled d).

Definition with_resolvers (count : nat) (d : t) : t :=
  mk (_socket d) (_queues d) (_controlQueue d) (_processingControlQueue d)
     (_processingQueues d) (controlAwait d) (queuesAwait d)
     (allocated d) count (settled d).

Definition with_settled (log : list (nat * Settlement)) (d : t) : t :=
  mk (_socket d) (_queues d) (_controlQueue d) (_processingControlQueue d)
     (_processingQueues d) (controlAwait d) (queuesAwait d)
     (allocated d) (resolvers d) log.

(** [task.resolver.resolve()] and [task.resolver.reject(e)] *)
Definition resolve (task : Task.t) (d : t) : t :=
  with_settled (settle (Task.resolver task) Fulfilled (settled d)) d.

Definition reject (task : Task.t) (d : t) : t :=
  with_settled (settle (Task.resolver task) Rejected (settled d)) d.

(** *** [processQueues]

    One pass of [while (true)] from its top to the [await] (the loop
    suspends, with the candidate and the dequeued task) or to a [break]
    (the flag is cleared and the function returns). *)
Definition processQueues_loop (d : t) : t :=
  if _processingControlQueue d then with_processingQueues false d
  else
    let pending := filter Queue.pending (_queues d) in
    match pending with
    | [] => with_processingQueues false d
    | _ :: _ =>
        match Queue.sort pending with
        | [] => d   (* no such case: the sort keeps the elements *)
        | candidate :: _ =>
            match Queue.dequeue candidate with
            | (Some task, candidate') =>
                with_queuesAwait
                  (Some (waitWebSocketBufferAmountLow (_socket d), candidate', task))
                  (with_queues
                     (Queue.mutate (Queue.address candidate)
                        (fun x => snd (Queue.dequeue x)) (_queues d))
                     d)
            | (None, _) => d   (* no such case: a pending queue has a task *)
            end
        end
    end.

Definition processQueues (d : t) : t :=
  if _processingQueues d then d
  else processQueues_loop (with_processingQueues true d).

(** The opcode of a data frame: the one expression in which the two
    files differ. *)
Definition frameOpcode (source : Source) (candidate : Queue.t) : Z :=
  match source with
  | index_ts =>
      if Queue.lastSendTime candidate =? 0
      then Opcode.CreateChannel
      else Opcode.Data
  | multiplex_websocket_dispatcher_ts =>
      if Queue._local candidate && (Queue.lastSendTime candidate =? 0)
      then Opcode.CreateChannel
      else Opcode.Data
  end.

(** The [try] block after the [await]: build the frame, send it, stamp
    the candidate, resolve the write. [toBuffer] and [send] may throw;
    the [catch] rejects the write. *)
Definition frame (source : Source) (candidate : Queue.t) (task : Task.t) : Message.t :=
  Message.mk (frameOpcode source candidate) (Queue._local candidate)
    (Queue._id candidate) (Some (Task.data task)).

Definition sendTask (source : Source) (now : Z) (candidate : Queue.t) (task : Task.t)
    (d : t) : t :=
  match buffer <- Message.toBuffer (frame source candidate task) ;;
        WebSocket.send buffer (_socket d) with
  | Some socket =>
      resolve task
        (with_queues
           (Queue.mutate (Queue.address candidate) (Queue.with_lastSendTime now)
              (_queues d))
           (with_socket socket d))
  | None => reject task d
  end.

(** The continuation of [processQueues] gets to run; [now] is what
    [Date.now()] returns. While the poller has not settled the promise
    nothing happens. A rejected [await] goes to the [catch]. Then the
    loop goes round. *)
Definition wakeQueues (source : Source) (now : Z) (d : t) : t :=
  match queuesAwait d with
  | None => d
  | Some (wait, candidate, task) =>
      match awaited wait (_socket d) with
      | None => d
      | Some Fulfilled =>
          processQueues_loop
            (sendTask source now candidate task (with_queuesAwait None d))
      | Some Rejected =>
          processQueues_loop (reject task (with_queuesAwait None d))
      end
  end.

(** *** [processControlQueue]

    From the [while] condition to the [await], or to the end of the
    function, which starts [processQueues]. *)
Definition processControlQueue_loop (d : t) : t :=
  match _controlQueue d with
  | _ :: _ => with_controlAwait (Some (waitWebSocketBufferAmountLow (_socket d))) d
  | [] => processQueues (with_processingControlQueue false d)
  end.

Definition processControlQueue (d : t) : t :=
  if _processingControlQueue d then d
  else processControlQueue_loop (with_processingControlQueue true d).

(** The continuation of [processControlQueue] gets to run. Nothing
    catches an exception here: a rejected [await], a [toBuffer] or a
    [send] that throws ends the function with [_processingControlQueue]
    still set. *)
Definition wakeControl (d : t) : t :=
  match controlAwait d with
  | None => d
  | Some wait =>
      match awaited wait (_socket d) with
      | None => d
      | Some Rejected => with_controlAwait None d
      | Some Fulfilled =>
          match _controlQueue d with
          | [] => with_controlAwait None d
          | message :: rest =>
              match buffer <- Message.toBuffer message ;;
                    WebSocket.send buffer (_socket d) with
              | None => with_controlAwait None (with_controlQueue rest d)
              | Some socket =>
                  processControlQueue_loop
                    (with_controlAwait None
                       (with_controlQueue rest (with_socket socket d)))
              end
          end
      end
  end.

(** *** The public methods *)

Definition sendControlMessage (local : bool) (id : Z) (opcode : Z) (d : t) : t :=
  processControlQueue
    (with_controlQueue (_controlQueue d ++ [Message.mk opcode local id None]) d).

(** [addChannel(channel)]: the new queue object gets the next address. *)
Definition addChannel (local : bool) (id : Z) (d : t) : t :=
  with_allocated (S (allocated d))
    (with_queues (_queues d ++ [Queue.new (allocated d) local id]) d).

(** The listener that [addChannel] puts on the channel's ['close']
    event, for the queue at [address]. *)
Definition onClose (address : nat) (d : t) : t :=
  match Queue.indexOf address (_queues d) with
  | Some index => with_queues (splice index (_queues d)) d
  | None => d
  end.

Definition handleControlMessage (local : bool) (id : Z) (opcode : Z) (d : t) : t :=
  match find (Queue.matches local id) (_queues d) with
  | Some queue =>
      with_queues
        (Queue.mutate (Queue.address queue)
           (Queue.with_remoteFull (opcode =? Opcode.ChannelBufferFull))
           (_queues d))
        d
  | None => d
  end.

(** [send(local, id, data)]: the state after the call, and either the
    message of the [Error] thrown or the resolver of the promise
    returned. *)
Definition send (local : bool) (id : Z) (data : list byte) (d : t)
  : t * (string + nat) :=
  match find (Queue.matches local id) (_queues d) with
  | None => (d, inl "cannot write after end"%string)
  | Some queue =>
      let resolver := resolvers d in
      let d :=
        with_resolvers (S resolver)
          (with_queues
             (Queue.mutate (Queue.address queue) (Queue.enqueue resolver data)
                (_queues d))
             d) in
      (processQueues d, inr resolver)
  end.

(** *** Runs

    What can happen to a dispatcher: calls of its methods, the close of a
    channel, a change of the socket, and the two loops being resumed. *)
Inductive Event : Type :=
| SendControlMessage (local : bool) (id : Z) (opcode : Z)
| Send (local : bool) (id : Z) (data : list byte)
| AddChannel (local : bool) (id : Z)
| Close (address : nat)
| HandleControlMessage (local : bool) (id : Z) (opcode : Z)
| Socket (bufferedAmount : Z) (readyState : WebSocket.ReadyState)
| WakeControl
| WakeQueues (now : Z).

Definition step (source : Source) (d : t) (event : Event) : t :=
  match event with
  | SendControlMessage local id opcode => sendControlMessage local id opcode d
  | Send local id data => fst (send local id data d)
  | AddChannel local id => addChannel local id d
  | Close address => onClose address d
  | HandleControlMessage local id opcode => handleControlMessage local id opcode d
  | Socket amount state =>
      with_socket (WebSocket.mk amount state (WebSocket.sent (_socket d))) d
  | WakeControl => wakeControl d
  | WakeQueues now => wakeQueues source now d
  end.

Definition run (source : Source) (d : t) (events : list Event) : t :=
  fold_left (step source) events d.
End MultiplexWebSocketDispatcher.

(** ** [class MultiplexWebSocketChannel extends Duplex]

    The methods of the class, and of the [stream.Duplex] under it what
    decides when they are called: [write] hands one chunk at a time to
    [_write], and [end] calls [_final] once no write is in progress. The
    streams are those of Node 15 and later: [end] calls [_final] before it
    returns, a write whose callback gets an error destroys the stream
    ([autoDestroy]), and [destroy] emits ['close'] on the next tick.
    - [writing] is the promise [_write] awaits, [buffered] the chunks
      that [write] accepted meanwhile;
    - [ending] says that [end] was called, [errored] that a write
      callback got an error (which destroys the stream), [destroyed] that
      [destroy] was called;
    - [readable] holds the chunks given to [push]. *)

Module MultiplexWebSocketChannel.
Module Opcode := MultiplexWebSocketOpcode.
Module Dispatcher := MultiplexWebSocketDispatcher.

Record t : Type := mk {
  address : nat;
  _local : bool;
  _id : Z;
  _localFull : bool;
  readable : list (list byte);
  writing : option nat;
  buffered : list (list byte);
  ending : bool;
  errored : bool;
  destroyed : bool
}.

Definition new (address : nat) (local : bool) (id : Z) : t :=
  mk address local id false [] None [] false false false.

Definition with_localFull (full : bool) (c : t) : t :=
  mk (address c) (_local c) (_id c) full (readable c) (writing c)
     (buffered c) (ending c) (errored c) (destroyed c).

Definition with_readable (chunks : list (list byte)) (c : t) : t :=
  mk (address c) (_local c) (_id c) (_localFull c) chunks (writing c)
     (buffered c) (ending c) (errored c) (destroyed c).

Definition with_writing (promise : option nat) (c : t) : t :=
  mk (address c) (_local c) (_id c) (_localFull c) (readable c) promise
     (buffered c) (ending c) (errored c) (destroyed c).

Definition with_buffered (chunks : list (list byte)) (c : t) : t :=
  mk (address c) (_local c) (_id c) (_localFull c) (readable c) (writing c)
     chunks (ending c) (errored c) (destroyed c).

Definition with_ending (flag : bool) (c : t) : t :=
  mk (address c) (_local c) (_id c) (_localFull c) (readable c) (writing c)
     (buffered c) flag (errored c) (destroyed c).

Definition with_errored (flag : bool) (c : t) : t :=
  mk (address c) (_local c) (_id c) (_localFull c) (readable c) (writing c)
     (buffered c) (ending c) flag (destroyed c).

Definition with_destroyed (flag : bool) (c : t) : t :=
  mk (address c) (_local c) (_id c) (_localFull c) (readable c) (writing c)
     (buffered c) (ending c) (errored c) flag.

(** [_read()] *)
Definition _read (c : t) (d : Dispatcher.t) : t * Dispatcher.t :=
  if _localFull c
  then (with_localFull false c,
        Dispatcher.sendControlMessage (_local c) (_id c) Opcode.ChannelBufferEmpty d)
  else (c, d).

(** [push(chunk)]; [result] is what [super.push(chunk)] returns. *)
Definition push (chunk : list byte) (result : bool) (c : t) (d : Dispatcher.t)
  : t * Dispatcher.t :=
  let c := with_readable (readable c ++ [chunk]) c in
  if negb result && negb (_localFull c)
  then (with_localFull true c,
        Dispatcher.sendControlMessage (_local c) (_id c) Opcode.ChannelBufferFull d)
  else (c, d).

(** [_final(callback)]: the close frame is queued, the stream finishes
    and is destroyed. *)
Definition _final (c : t) (d : Dispatcher.t) : t * Dispatcher.t :=
  (with_destroyed true c,
   Dispatcher.sendControlMessage (_local c) (_id c) Opcode.CloseChannel d).

(** [callback(e)]: the write has failed, and the stream is destroyed with
    the error ([autoDestroy], the default of the streams of Node 14 and
    later). *)
Definition fail (c : t) : t := with_destroyed true (with_errored true c).

(** [_write(chunk, encoding, callback)] up to its [await]: a [send] that
    throws goes to [callback(e)] at once. *)
Definition _write (chunk : list byte) (c : t) (d : Dispatcher.t) : t * Dispatcher.t :=
  match Dispatcher.send (_local c) (_id c) chunk d with
  | (d, inr promise) => (with_writing (Some promise) c, d)
  | (d, inl _) => (fail c, d)
  end.

(** [write(chunk)] of the stream: refused after [end], queued behind a
    write in progress, otherwise passed to [_write]. *)
Definition write (chunk : list byte) (c : t) (d : Dispatcher.t) : t * Dispatcher.t :=
  if ending c || errored c || destroyed c then (c, d)
  else
    match writing c with
    | Some _ => (with_buffered (buffered c ++ [chunk]) c, d)
    | None => _write chunk c d
    end.

(** [end()] of the stream: [_final] runs when nothing is left to write. *)
Definition end_ (c : t) (d : Dispatcher.t) : t * Dispatcher.t :=
  if ending c || errored c || destroyed c then (c, d)
  else
    let c := with_ending true c in
    match writing c with
    | Some _ => (c, d)
    | None => _final c d
    end.

(** The rest of [_write] once the awaited promise has settled, and what
    the stream does after the callback: the next buffered chunk, or
    [_final] when [end] was called. *)
Definition written (how : Settlement) (c : t) (d : Dispatcher.t) : t * Dispatcher.t :=
  let c := with_writing None c in
  match how with
  | Rejected => (fail c, d)
  | Fulfilled =>
      if destroyed c then (c, d)
      else
        match buffered c with
        | chunk :: rest => _write chunk (with_buffered rest c) d
        | [] => if ending c then _final c d else (c, d)
        end
  end.

(** A mutation of the channel object at an address, and
    [channels.indexOf(channel)]. *)
Definition mutate : nat -> (t -> t) -> list t -> list t := mutateAt address.

Definition indexOf : nat -> list t -> option nat := indexOfAt address.
End MultiplexWebSocketChannel.

(** ** [class MultiplexWebSocket]

    [_raw] is the socket the dispatcher owns, so the connection reads it
    there. [emitted] logs what goes out on [_emitter]. *)

Module MultiplexWebSocket.
Module Opcode := MultiplexWebSocketOpcode.
Module Message := MultiplexWebSocketMessage.
Module Dispatcher := MultiplexWebSocketDispatcher.
Module Channel := MultiplexWebSocketChannel.

Inductive Emitted : Type :=
| EmitChannel (address : nat) (head : option (list byte))
| EmitError
| EmitClose.

Record t : Type := mk {
  _dispatcher : Dispatcher.t;
  _id : Z;
  _channels : list Channel.t;
  emitted : list Emitted
}.

Definition new (raw : WebSocket.t) : t :=
  mk (Dispatcher.new raw) 0 [] [].

Definition with_dispatcher (d : Dispatcher.t) (c : t) : t :=
  mk d (_id c) (_channels c) (emitted c).

Definition with_id (id : Z) (c : t) : t :=
  mk (_dispatcher c) id (_channels c) (emitted c).

Definition with_channels (channels : list Channel.t) (c : t) : t :=
  mk (_dispatcher c) (_id c) channels (emitted c).

Definition emit (event : Emitted) (c : t) : t :=
  mk (_dispatcher c) (_id c) (_channels c) (emitted c ++ [event]).

(** The channel at [address] emits ['close']: the listener of the
    dispatcher runs, then the one [initialzeChannel] added. *)
Definition onChannelClose (address : nat) (c : t) : t :=
  let c := with_dispatcher (Dispatcher.onClose address (_dispatcher c)) c in
  match Channel.indexOf address (_channels c) with
  | Some index => with_channels (splice index (_channels c)) c
  | None => c
  end.

(** A method of a channel of the table runs, and then the next tick: a
    channel that the method destroys emits ['close'] there. This is the
    state at the end of the turn; [invoke] and [tick] below give the two
    steps one by one. *)
Definition call (method : Channel.t -> Dispatcher.t -> Channel.t * Dispatcher.t)
    (channel : Channel.t) (c : t) : t :=
  let (channel', d) := method channel (_dispatcher c) in
  let c :=
    with_dispatcher d
      (with_channels
         (Channel.mutate (Channel.address channel) (fun _ => channel') (_channels c))
         c) in
  if Channel.destroyed channel' && negb (Channel.destroyed channel)
  then onChannelClose (Channel.address channel) c
  else c.

(** [initialzeChannel(channel)] for a channel just constructed: the
    channel and the queue made for it go by one address. *)
Definition initialzeChannel (local : bool) (id : Z) (c : t) : t :=
  let channel := Channel.new (Dispatcher.allocated (_dispatcher c)) local id in
  with_channels (_channels c ++ [channel])
    (with_dispatcher (Dispatcher.addChannel local id (_dispatcher c)) c).

(** [addChannel()] *)
Definition addChannel (c : t) : t :=
  initialzeChannel true (_id c) (with_id (_id c + 1) c).

(** [x => x.local !== message.local && x.id === message.id] *)
Definition addressee (message : Message.t) (x : Channel.t) : bool :=
  negb (Bool.eqb (Channel._local x) (Message._local message))
  && (Channel._id x =? Message._id message).

(** The ['message'] listener. [None] when [parse] throws. [pushResult]
    is what the readable side answers if the frame carries data for a
    channel. *)
Definition onMessage (data : list byte) (pushResult : bool) (c : t) : option t :=
  message <- Message.parse data ;;
  let opcode := Message._opcode message in
  Some
    (if opcode =? Opcode.CreateChannel then
       emit (EmitChannel (Dispatcher.allocated (_dispatcher c)) (Message._data message))
         (initialzeChannel false (Message._id message) c)
     else if opcode =? Opcode.Data then
       match find (addressee message) (_channels c) with
       | Some channel =>
           call (Channel.push (Message.payload message) pushResult) channel c
       | None => c
       end
     else if opcode =? Opcode.CloseChannel then
       match find (addressee message) (_channels c) with
       | Some channel => call Channel.end_ channel c
       | None => c
       end
     else if (opcode =? Opcode.ChannelBufferFull)
          || (opcode =? Opcode.ChannelBufferEmpty) then
       with_dispatcher
         (Dispatcher.handleControlMessage (negb (Message._local message))
            (Message._id message) opcode (_dispatcher c))
         c
     else c).

(** The ['error'] listener of the socket. *)
Definition onError (c : t) : t := emit EmitError c.

(** The ['close'] listener of the socket: every channel of a copy of the
    table is ended. *)
Definition onClose (c : t) : t :=
  emit EmitClose
    (fold_left (fun c channel => call Channel.end_ channel c) (_channels c) c).

(** The continuation of the dispatcher's data loop runs; the write it
    settles, if any, wakes the [_write] that awaits it. *)
Definition wakeQueues (source : Dispatcher.Source) (now : Z) (c : t) : t :=
  let d := Dispatcher.wakeQueues source now (_dispatcher c) in
  let c' := with_dispatcher d c in
  match Dispatcher.queuesAwait (_dispatcher c) with
  | None => c'
  | Some (_, _, task) =>
      let promise := MultiplexWebSocketSendTask.resolver task in
      match status promise (Dispatcher.settled d),
            status promise (Dispatcher.settled (_dispatcher c)) with
      | Some how, None =>
          match find (fun x => match Channel.writing x with
                               | Some p => Nat.eqb p promise
                               | None => false
                               end) (_channels c') with
          | Some channel => call (Channel.written how) channel c'
          | None => c'
          end
      | _, _ => c'
      end
  end.

(** *** Within a turn

    [destroy()] emits ['close'] on the next tick, not at once: until then a
    channel that was destroyed is still in the table of channels, and its
    queue in the table of the dispatcher, where the listeners that run in
    the same turn find them. *)

(** A method of a channel of the table runs: the call itself. *)
Definition invoke (method : Channel.t -> Dispatcher.t -> Channel.t * Dispatcher.t)
    (channel : Channel.t) (c : t) : t :=
  let (channel', d) := method channel (_dispatcher c) in
  with_dispatcher d
    (with_channels
       (Channel.mutate (Channel.address channel) (fun _ => channel') (_channels c))
       c).

(** The next tick: the channels that were destroyed emit ['close']. (They
    do so in the order in which they were destroyed; the listeners of two
    channels take different objects out of the tables, so the order makes
    no difference to what is left.) *)
Definition tick (c : t) : t :=
  fold_left
    (fun c channel =>
       if Channel.destroyed channel
       then onChannelClose (Channel.address channel) c
       else c)
    (_channels c) c.

(** The listeners again, with the way a channel's method is run as a
    parameter: [onMessage], [onClose] and [wakeQueues] are these with
    [call]; with [invoke] they are the listeners up to their return. *)
Definition onMessageBy
    (run : (Channel.t -> Dispatcher.t -> Channel.t * Dispatcher.t) -> Channel.t -> t -> t)
    (data : list byte) (pushResult : bool) (c : t) : option t :=
  message <- Message.parse data ;;
  let opcode := Message._opcode message in
  Some
    (if opcode =? Opcode.CreateChannel then
       emit (EmitChannel (Dispatcher.allocated (_dispatcher c)) (Message._data message))
         (initialzeChannel false (Message._id message) c)
     else if opcode =? Opcode.Data then
       match find (addressee message) (_channels c) with
       | Some channel =>
           run (Channel.push (Message.payload message) pushResult) channel c
       | None => c
       end
     else if opcode =? Opcode.CloseChannel then
       match find (addressee message) (_channels c) with
       | Some channel => run Channel.end_ channel c
       | None => c
       end
     else if (opcode =? Opcode.ChannelBufferFull)
          || (opcode =? Opcode.ChannelBufferEmpty) then
       with_dispatcher
         (Dispatcher.handleControlMessage (negb (Message._local message))
            (Message._id message) opcode (_dispatcher c))
         c
     else c).

Definition onCloseBy
    (run : (Channel.t -> Dispatcher.t -> Channel.t * Dispatcher.t) -> Channel.t -> t -> t)
    (c : t) : t :=
  emit EmitClose
    (fold_left (fun c channel => run Channel.end_ channel c) (_channels c) c).

Definition wakeQueuesBy
    (run : (Channel.t -> Dispatcher.t -> Channel.t * Dispatcher.t) -> Channel.t -> t -> t)
    (source : Dispatcher.Source) (now : Z) (c : t) : t :=
  let d := Dispatcher.wakeQueues source now (_dispatcher c) in
  let c' := with_dispatcher d c in
  match Dispatcher.queuesAwait (_dispatcher c) with
  | None => c'
  | Some (_, _, task) =>
      let promise := MultiplexWebSocketSendTask.resolver task in
      match status promise (Dispatcher.settled d),
            status promise (Dispatcher.settled (_dispatcher c)) with
      | Some how, None =>
          match find (fun x => match Channel.writing x with
                               | Some p => Nat.eqb p promise
                               | None => false
                               end) (_channels c') with
          | Some channel => run (Channel.written how) channel c'
          | None => c'
          end
      | _, _ => c'
      end
  end.
End MultiplexWebSocket.

(** ** Well-formed dispatchers

    What holds of every dispatcher that the methods can produce: distinct
    queue objects have distinct addresses, below the allocation count; the
    resolvers of the writes that are queued or in flight are distinct, were
    created by this dispatcher and are still pending; the data loop is
    suspended only with its flag set. *)

Module Invariant.
Import MultiplexWebSocketDispatcher.

(** The resolvers of the writes waiting in the queues of the table. *)
Definition queued (queues : list Queue.t) : list nat :=
  flat_map (fun x => map Task.resolver (Queue._queue x)) queues.

(** The resolver of the write the data loop holds at its [await]. *)
Definition inflight (d : t) : list nat :=
  match queuesAwait d with
  | Some (_, _, task) => [Task.resolver task]
  | None => []
  end.

Definition live (d : t) : list nat := inflight d ++ queued (_queues d).

Record wf (d : t) : Prop := {
  wf_addresses : NoDup (map Queue.address (_queues d));
  wf_allocated : forall x, In x (_queues d) -> (Queue.address x < allocated d)%nat;
  wf_live : NoDup (live d);
  wf_pending : forall r, In r (live d) ->
                 (r < resolvers d)%nat /\ status r (settled d) = None;
  wf_settled : forall r how, In (r, how) (settled d) -> (r < resolvers d)%nat;
  wf_suspended : queuesAwait d <> None -> _processingQueues d = true
}.

(** A write that was left behind: its resolver exists, is pending, and is
    neither in a queue of the table nor in flight. *)
Definition abandoned (r : nat) (d : t) : Prop :=
  (r < resolvers d)%nat /\ status r (settled d) = None /\ ~ In r (live d).

(** The dispatcher with the first byte of every message sent masked: what
    is left when the opcodes of the frames are not looked at. *)
Definition maskOpcode (message : list byte) : list byte :=
  overwrite message 0 [x00].

Definition maskOpcodes (d : t) : t :=
  with_socket
    (WebSocket.mk (WebSocket.bufferedAmount (_socket d))
       (WebSocket.readyState (_socket d))
       (map maskOpcode (WebSocket.sent (_socket d))))
    d.

(** The queue object at an address, if the table has it. *)
Definition lookup (address : nat) (d : t) : option Queue.t :=
  find (fun x => Nat.eqb (Queue.address x) address) (_queues d).

(** The queue at [address] is in the table with [remoteFull] set. *)
Definition isFull (address : nat) (d : t) : Prop :=
  exists x, lookup address d = Some x /\ Queue.remoteFull x = true.

(** ... and stays so while the events happen one after the other. *)
Fixpoint staysFull (source : Source) (address : nat) (d : t) (events : list Event)
  : Prop :=
  isFull address d /\
  match events with
  | [] => True
  | event :: events => staysFull source address (step source d event) events
  end.
End Invariant.

(** ** Sample states *)

Module Sample.
Module Dispatcher := MultiplexWebSocketDispatcher.
Module Connection := MultiplexWebSocket.

(** An open socket with nothing buffered. *)
Definition socket : WebSocket.t := WebSocket.mk 0 WebSocket.OPEN [].

(** A dispatcher with the queue of one channel, created by this side or by
    the peer. *)
Definition dispatcher (local : bool) : Dispatcher.t :=
  Dispatcher.addChannel local 0 (Dispatcher.new socket).

(** The same after one write: the data loop holds it at the [await]. *)
Definition writing (local : bool) : Dispatcher.t :=
  fst (Dispatcher.send local 0 [x01] (dispatcher local)).

(** A connection on which the application has opened one channel. *)
Definition connection : Connection.t := Connection.addChannel (Connection.new socket).

(** Three queues with one write each; the second and the third were served
    at the same time, before the first. *)
Definition threeQueues : Dispatcher.t :=
  Dispatcher.mk socket
    [Dispatcher.Queue.mk 0 true 0 [Dispatcher.Task.mk 0 [x0a]] false 5;
     Dispatcher.Queue.mk 1 true 1 [Dispatcher.Task.mk 1 [x0b]] false 3;
     Dispatcher.Queue.mk 2 true 2 [Dispatcher.Task.mk 2 [x0c]] false 3]
    [] false true None None 3 3 [].

(** Two writes on one channel: the data loop holds the first at its wait,
    the second is in the queue. *)
Definition twoWrites : Dispatcher.t :=
  Dispatcher.run Dispatcher.index_ts (dispatcher true)
    [Dispatcher.Send true 0 [x01]; Dispatcher.Send true 0 [x02]].

(** Two channels of this side; the application writes on the first and
    ends the second in the same turn. The data loop holds the write at its
    wait, then the close message is queued: both loops are suspended, the
    data loop first. *)
Definition twoChannels : Dispatcher.t :=
  Dispatcher.addChannel true 1 (dispatcher true).

Definition oneWrite : Dispatcher.t :=
  fst (Dispatcher.send true 0 [x01] twoChannels).

Definition bothLoops : Dispatcher.t :=
  Dispatcher.sendControlMessage true 1 MultiplexWebSocketOpcode.CloseChannel oneWrite.

(** The connection after a first write has gone out at time 100 and, the
    socket being congested, the data loop holds a second write of the same
    channel at the poller. *)
Definition congested : Connection.t :=
  Connection.with_dispatcher
    (Dispatcher.run Dispatcher.index_ts (Connection._dispatcher connection)
       [Dispatcher.Send true 0 [x01]; Dispatcher.WakeQueues 100;
        Dispatcher.Socket 2000000 WebSocket.OPEN; Dispatcher.Send true 0 [x02]])
    connection.

(** Inbound frames for the channel (true, 0) of this side: the peer names
    it with origin flag byte 1. *)
Definition closeFrame : list byte := [x01; x01; x00; x00; x00; x00].
Definition fullFrame : list byte := [x03; x01; x00; x00; x00; x00].
End Sample.

(** ** [connectWebSocket]

    The promise the function returns, seen from the events of the socket
    it creates. Both handlers remove both listeners before settling, so
    one flag says whether they are attached. The detail of an
    [ErrorEvent] (its [error] property) is kept as a text. *)

Module ConnectWebSocket.
Inductive SocketEvent : Type :=
| open
| error (detail : option string).

Inductive Outcome : Type :=
| resolved
| rejected (reason : string).

Record t : Type := mk {
  listening : bool;
  promise : option Outcome
}.

(** [new Promise(...)]: the socket is created, the listeners are added. *)
Definition start : t := mk true None.

(** [resolve]/[reject] of a promise: only the first call counts. *)
Definition settleWith (outcome : Outcome) (promise : option Outcome) : option Outcome :=
  match promise with
  | Some _ => promise
  | None => Some outcome
  end.

(** [handleOpen] and [handleError]. *)
Definition handleOpen (s : t) : t :=
  mk false (settleWith resolved (promise s)).

Definition handleError (detail : option string) (s : t) : t :=
  mk false
     (settleWith
        (rejected
           match detail with
           | Some reason => reason
           | None => "the WebSocket connection cannot be established"%string
           end)
        (promise s)).

(** The socket emits an event: the handler runs if it is still attached. *)
Definition emit (s : t) (event : SocketEvent) : t :=
  if listening s
  then match event with
       | open => handleOpen s
       | error detail => handleError detail s
       end
  else s.

Definition emits (events : list SocketEvent) : t := fold_left emit events start.
End ConnectWebSocket.

(** ** Runs of a channel's readable side and of a connection *)

Module Flow.
Module Channel := MultiplexWebSocketChannel.
Module Dispatcher := MultiplexWebSocketDispatcher.

(** What happens on the readable side of a channel: the connection pushes
    a chunk (the stream answers [result]), or the stream asks for data. *)
Inductive Op : Type :=
| Push (chunk : list byte) (result : bool)
| Pull.

Definition apply (state : Channel.t * Dispatcher.t) (op : Op) : Channel.t * Dispatcher.t :=
  match op with
  | Push chunk result => Channel.push chunk result (fst state) (snd state)
  | Pull => Channel._read (fst state) (snd state)
  end.

Definition run (ops : list Op) (state : Channel.t * Dispatcher.t)
  : Channel.t * Dispatcher.t :=
  fold_left apply ops state.

(** The opcodes of a well-behaved series of flow-control signals that
    starts with the channel full or not, and the state it ends in: a
    ChannelBufferFull only when not full, a ChannelBufferEmpty only when
    full. *)
Fixpoint signals (full : bool) (opcodes : list Z) : option bool :=
  match opcodes with
  | [] => Some full
  | opcode :: rest =>
      if full
      then if opcode =? MultiplexWebSocketOpcode.ChannelBufferEmpty
           then signals false rest else None
      else if opcode =? MultiplexWebSocketOpcode.ChannelBufferFull
           then signals true rest else None
  end.
End Flow.

Module Session.
Module Message := MultiplexWebSocketMessage.
Module Opcode := MultiplexWebSocketOpcode.
Module Dispatcher := MultiplexWebSocketDispatcher.
Module Channel := MultiplexWebSocketChannel.
Module Connection := MultiplexWebSocket.

(** What can happen to a connection: the application adds a channel or
    uses one it holds (by address; the stream methods do nothing on a
    channel that is destroyed), the socket delivers a message, fails,
    closes or changes, the loops of the dispatcher resume, the next tick
    comes. Each listener runs up to its return ([invoke]); the ['close']
    events of the channels destroyed meanwhile come with [Tick]. A
    message that [parse] rejects makes the listener throw and changes
    nothing. *)
Inductive Event : Type :=
| AddChannel
| Message (data : list byte) (pushResult : bool)
| ChannelWrite (address : nat) (chunk : list byte)
| ChannelEnd (address : nat)
| ChannelRead (address : nat)
| TransportError
| TransportClose
| Socket (bufferedAmount : Z) (readyState : WebSocket.ReadyState)
| WakeControl
| WakeQueues (now : Z)
| Tick.

Definition at_ (address : nat) (c : Connection.t) : option Channel.t :=
  find (fun x => Nat.eqb (Channel.address x) address) (Connection._channels c).

Definition onChannel (address : nat)
    (method : Channel.t -> Dispatcher.t -> Channel.t * Dispatcher.t)
    (c : Connection.t) : Connection.t :=
  match at_ address c with
  | Some channel => Connection.invoke method channel c
  | None => c
  end.

(** The stream asks for data: [_read] is not called on a stream that is
    destroyed. *)
Definition read (x : Channel.t) (d : Dispatcher.t) : Channel.t * Dispatcher.t :=
  if Channel.destroyed x then (x, d) else Channel._read x d.

Definition step (source : Dispatcher.Source) (c : Connection.t) (event : Event)
  : Connection.t :=
  match event with
  | AddChannel => Connection.addChannel c
  | Message data pushResult =>
      match Connection.onMessageBy Connection.invoke data pushResult c with
      | Some c' => c'
      | None => c
      end
  | ChannelWrite address chunk => onChannel address (Channel.write chunk) c
  | ChannelEnd address => onChannel address Channel.end_ c
  | ChannelRead address => onChannel address read c
  | TransportError => Connection.onError c
  | TransportClose => Connection.onCloseBy Connection.invoke c
  | Socket amount state =>
      Connection.with_dispatcher
        (Dispatcher.step source (Connection._dispatcher c) (Dispatcher.Socket amount state))
        c
  | WakeControl =>
      Connection.with_dispatcher (Dispatcher.wakeControl (Connection._dispatcher c)) c
  | WakeQueues now => Connection.wakeQueuesBy Connection.invoke source now c
  | Tick => Connection.tick c
  end.

Definition run (source : Dispatcher.Source) (c : Connection.t) (events : list Event)
  : Connection.t :=
  fold_left (step source) events c.

(** The identity and the name of a channel, and of a queue. *)
Definition channelKey (x : Channel.t) : nat * bool * Z :=
  (Channel.address x, Channel._local x, Channel._id x).

Definition queueKey (x : Dispatcher.Queue.t) : nat * bool * Z :=
  (Dispatcher.Queue.address x, Dispatcher.Queue._local x, Dispatcher.Queue._id x).

(** What every connection that the events can produce satisfies, also in
    the middle of a turn: its dispatcher is well formed; the table of
    channels and the table of queues name the same objects in the same
    order; the ids of the channels created on this side are below the
    counter and differ from each other; a channel on which a write has
    failed is destroyed. *)
Record ok (c : Connection.t) : Prop := {
  ok_dispatcher : Invariant.wf (Connection._dispatcher c);
  ok_tables :
    map channelKey (Connection._channels c)
    = map queueKey (Dispatcher._queues (Connection._dispatcher c));
  ok_counter : 0 <= Connection._id c;
  ok_ids : forall address id,
      In (address, true, id) (map channelKey (Connection._channels c)) ->
      0 <= id < Connection._id c;
  ok_distinct : forall address address' id,
      In (address, true, id) (map channelKey (Connection._channels c)) ->
      In (address', true, id) (map channelKey (Connection._channels c)) ->
      address = address';
  ok_failed : forall x,
      In x (Connection._channels c) ->
      Channel.errored x = true -> Channel.destroyed x = true
}.

(** A method of a channel that keeps the name of the channel and, in the
    dispatcher, the queue objects of the table and their names, and that
    leaves no channel failed without destroying it. *)
Definition keepsTables
    (method : Channel.t -> Dispatcher.t -> Channel.t * Dispatcher.t) : Prop :=
  forall x d,
    Invariant.wf d ->
    channelKey (fst (method x d)) = channelKey x /\
    Invariant.wf (snd (method x d)) /\
    map queueKey (Dispatcher._queues (snd (method x d)))
      = map queueKey (Dispatcher._queues d) /\
    ((Channel.errored x = true -> Channel.destroyed x = true) ->
     Channel.errored (fst (method x d)) = true ->
     Channel.destroyed (fst (method x d)) = true).

(** What [end()] makes of a channel on which no write has failed, and the
    control message it sends: nothing after [end()] or [destroy()]; with
    a write in progress the channel is marked, for [_final] to run when
    the write completes; otherwise [_final] runs, sends CloseChannel and
    destroys the channel. *)
Definition ended (x : Channel.t) : Channel.t :=
  if Channel.ending x || Channel.destroyed x then x
  else match Channel.writing x with
       | Some _ => Channel.with_ending true x
       | None => Channel.with_destroyed true (Channel.with_ending true x)
       end.

Definition closeMessages (x : Channel.t) : list Dispatcher.Event :=
  if Channel.ending x || Channel.destroyed x then []
  else match Channel.writing x with
       | Some _ => []
       | None =>
           [Dispatcher.SendControlMessage (Channel._local x) (Channel._id x)
              Opcode.CloseChannel]
       end.
End Session.

(** The control messages that the events hand to [sendControlMessage]. *)
Definition enqueuedControl (events : list MultiplexWebSocketDispatcher.Event)
  : list MultiplexWebSocketMessage.t :=
  flat_map
    (fun event =>
       match event with
       | MultiplexWebSocketDispatcher.SendControlMessage local id opcode =>
           [MultiplexWebSocketMessage.mk opcode local id None]
       | _ => []
       end)
    events.

(** * Properties *)

(** ** The frame codec *)

Section Codec.
Import MultiplexWebSocketMessage.

Lemma Z_of_byte_of_Z (v : Z) : Z_of_byte (byte_of_Z v) = v mod 256.
Proof.
  unfold Z_of_byte, byte_of_Z.
  assert (Hr : 0 <= v mod 256 < 256) by (apply Z.mod_pos_bound; lia).
  destruct (Byte.of_N (Z.to_N (v mod 256))) as [b|] eqn:E.
  - apply Byte.to_of_N in E. rewrite E. lia.
  - apply Byte.of_N_None_iff in E. lia.
Qed.

Lemma skipn_repeat_all (A : Type) (x : A) (n : nat) : skipn n (repeat x n) = [].
Proof. induction n; simpl; auto. Qed.

Lemma uint32_bytes (v : Z) :
  0 <= v <= 4294967295 ->
  (((v / 16777216) mod 256 * 256 + (v / 65536) mod 256) * 256
   + (v / 256) mod 256) * 256 + v mod 256 = v.
Proof. intros H. Z.div_mod_to_equations. lia. Qed.

(** The bytes [toBuffer] produces: the six header bytes, then the
    payload. *)
Lemma toBuffer_bytes (m : t) :
  0 <= _opcode m <= 255 ->
  0 <= _id m <= 4294967295 ->
  toBuffer m =
    Some ([byte_of_Z (_opcode m); byte_of_Z (if _local m then 0 else 1);
           byte_of_Z (_id m / 16777216); byte_of_Z (_id m / 65536);
           byte_of_Z (_id m / 256); byte_of_Z (_id m)] ++ payload m).
Proof.
  intros Hop Hid. destruct m as [op lo i d]. simpl in *.
  unfold toBuffer, byteLength, payload, Buffer.writeUInt8, Buffer.writeUInt32BE,
    Buffer.alloc. simpl.
  replace ((0 <=? op) && (op <=? 255)) with true
    by (symmetry; apply andb_true_iff; split; lia).
  simpl.
  replace ((0 <=? (if lo then 0 else 1)) && ((if lo then 0 else 1) <=? 255))
    with true by (destruct lo; reflexivity).
  simpl.
  replace ((0 <=? i) && (i <=? 4294967295)) with true
    by (symmetry; apply andb_true_iff; split; lia).
  simpl.
  destruct d as [data|]; simpl.
  - unfold overwrite. simpl. rewrite skipn_repeat_all, app_nil_r. reflexivity.
  - reflexivity.
Qed.

(** What [parse] reads from a buffer of six bytes or more. *)
Lemma parse_bytes (b0 b1 b2 b3 b4 b5 : byte) (rest : list byte) :
  parse (b0 :: b1 :: b2 :: b3 :: b4 :: b5 :: rest) =
    Some (mk (Z_of_byte b0) (Z_of_byte b1 =? 0)
            (((Z_of_byte b2 * 256 + Z_of_byte b3) * 256 + Z_of_byte b4) * 256
             + Z_of_byte b5)
            (Some rest)).
Proof. reflexivity. Qed.

Lemma parse_toBuffer (m : t) (buffer : list byte) :
  0 <= _opcode m <= 255 ->
  0 <= _id m <= 4294967295 ->
  toBuffer m = Some buffer ->
  parse buffer = Some (mk (_opcode m) (_local m) (_id m) (Some (payload m))).
Proof.
  intros Hop Hid E. rewrite toBuffer_bytes in E by assumption.
  injection E as <-. simpl app. rewrite parse_bytes, !Z_of_byte_of_Z.
  f_equal. f_equal.
  - apply Z.mod_small. lia.
  - destruct (_local m); reflexivity.
  - apply uint32_bytes. lia.
Qed.

(** C8. Round trip: a frame whose opcode fits in a byte and whose id is
    below 2^32 is encoded by [toBuffer], and [parse] of the bytes gives
    back the same opcode, the same local flag, the same id and the same
    payload bytes (the payload of a frame without data is empty). *)
Theorem toBuffer_parse_roundtrip (m : t) :
  0 <= _opcode m <= 255 ->
  0 <= _id m < 2 ^ 32 ->
  exists buffer,
    toBuffer m = Some buffer /\
    parse buffer = Some (mk (_opcode m) (_local m) (_id m) (Some (payload m))).
Proof.
  intros Hop Hid. change (2 ^ 32) with 4294967296 in Hid.
  destruct (toBuffer m) as [buffer|] eqn:E.
  - exists buffer. split; [reflexivity|]. apply parse_toBuffer; [lia | lia | exact E].
  - rewrite toBuffer_bytes in E by lia. discriminate.
Qed.

(** The frame of the specification's example: opcode Data, origin flag
    byte 0 (so [local] is true), id 42, payload 01 02 03. *)
Lemma toBuffer_parse_roundtrip_example :
  exists buffer,
    toBuffer (mk MultiplexWebSocketOpcode.Data true 42 (Some [x01; x02; x03]))
      = Some buffer /\
    parse buffer
      = Some (mk MultiplexWebSocketOpcode.Data true 42 (Some [x01; x02; x03])).
Proof.
  apply (toBuffer_parse_roundtrip
           (mk MultiplexWebSocketOpcode.Data true 42 (Some [x01; x02; x03])));
    simpl; unfold MultiplexWebSocketOpcode.Data; lia.
Defined.

(** C9, as the code has it. Decoding fails exactly on the buffers shorter
    than six bytes. A buffer of six bytes or more always decodes, and the
    opcode of the message is byte 0 as it stands, one of the five opcodes
    or not. *)
Theorem parse_fails_exactly_when_short (buffer : list byte) :
  (parse buffer = None <-> (length buffer < 6)%nat) /\
  (forall b0 rest,
      buffer = b0 :: rest /\ (6 <= length buffer)%nat ->
      exists m, parse buffer = Some m /\ _opcode m = Z_of_byte b0).
Proof.
  destruct buffer as [|b0 [|b1 [|b2 [|b3 [|b4 [|b5 rest]]]]]]; simpl;
    try (split; [split; [intros _; lia | reflexivity]
                | intros ? ? [_ H]; simpl in H; lia]).
  rewrite parse_bytes. split.
  - split; [discriminate | lia].
  - intros c0 rest' [E _]. injection E as <- _.
    eexists. split; [reflexivity | reflexivity].
Qed.

(** C9 fails as the specification words it: six bytes whose first is 7,
    which is none of the five opcodes, decode to a message; the connection
    that receives them does nothing. *)
Lemma parse_accepts_unrecognized_opcode :
  MultiplexWebSocketOpcode.recognized 7 = false /\
  parse [x07; x00; x00; x00; x00; x00] = Some (mk 7 true 0 (Some [])) /\
  MultiplexWebSocket.onMessage [x07; x00; x00; x00; x00; x00] true Sample.connection
    = Some Sample.connection.
Proof. repeat split; reflexivity. Qed.
End Codec.

(** ** Arrays of objects *)

Section ObjectArrayFacts.
Context {A : Type} (addressOf : A -> nat).

Lemma mutateAt_absent (address : nat) (f : A -> A) (array : list A) :
  (forall x, In x array -> addressOf x <> address) ->
  mutateAt addressOf address f array = array.
Proof.
  induction array as [|x rest IH]; intros H; simpl; [reflexivity|].
  destruct (Nat.eqb_spec (addressOf x) address) as [E|_].
  - exfalso. apply (H x); [left; reflexivity | exact E].
  - f_equal. apply IH. intros y Hy. apply H. right. exact Hy.
Qed.

Lemma NoDup_address_split (pre post : list A) (c : A) :
  NoDup (map addressOf (pre ++ c :: post)) ->
  forall x, In x pre \/ In x post -> addressOf x <> addressOf c.
Proof.
  rewrite map_app. simpl. intros H x Hx E.
  apply NoDup_remove_2 in H. apply H. rewrite <- E.
  apply in_or_app. destruct Hx as [Hx|Hx]; [left | right]; apply in_map; exact Hx.
Qed.

(** With distinct addresses a mutation changes one element. *)
Lemma mutateAt_split (f : A -> A) (pre post : list A) (c : A) :
  NoDup (map addressOf (pre ++ c :: post)) ->
  mutateAt addressOf (addressOf c) f (pre ++ c :: post) = pre ++ f c :: post.
Proof.
  intros H. pose proof (NoDup_address_split pre post c H) as Hne.
  unfold mutateAt. rewrite map_app. simpl. rewrite Nat.eqb_refl.
  f_equal; [|f_equal].
  - apply (mutateAt_absent (addressOf c) f pre). intros x Hx. apply Hne. left. exact Hx.
  - apply (mutateAt_absent (addressOf c) f post). intros x Hx. apply Hne. right. exact Hx.
Qed.

Lemma mutateAt_addresses (address : nat) (f : A -> A) (array : list A) :
  (forall x, addressOf (f x) = addressOf x) ->
  map addressOf (mutateAt addressOf address f array) = map addressOf array.
Proof.
  intros Hf. unfold mutateAt. rewrite map_map. apply map_ext. intros x.
  destruct (Nat.eqb (addressOf x) address); [apply Hf | reflexivity].
Qed.

Lemma In_mutateAt (address : nat) (f : A -> A) (array : list A) (y : A) :
  In y (mutateAt addressOf address f array) ->
  exists x, In x array /\
    (y = x /\ addressOf x <> address \/ y = f x /\ addressOf x = address).
Proof.
  unfold mutateAt. intros H. apply in_map_iff in H. destruct H as (x & E & Hx).
  exists x. split; [exact Hx|].
  destruct (Nat.eqb_spec (addressOf x) address); [right | left]; auto.
Qed.

(** [indexOf] finds the first element at the address, and [splice] takes
    it out. *)
Lemma indexOfAt_Some (address : nat) (array : list A) (index : nat) :
  indexOfAt addressOf address array = Some index ->
  exists pre c post,
    array = pre ++ c :: post /\ addressOf c = address /\
    (forall x, In x pre -> addressOf x <> address) /\
    splice index array = pre ++ post.
Proof.
  revert index. induction array as [|x rest IH]; intros index; simpl; [discriminate|].
  destruct (Nat.eqb_spec (addressOf x) address) as [E|N].
  - intros [= <-]. exists [], x, rest. repeat split; auto; intros ? [].
  - destruct (indexOfAt addressOf address rest) as [i|]; [|discriminate].
    intros [= <-]. destruct (IH i eq_refl) as (pre & c & post & -> & Hc & Hpre & Hs).
    exists (x :: pre), c, post. repeat split; auto.
    + intros y [<-|Hy]; [exact N | apply Hpre; exact Hy].
    + unfold splice in *. simpl. f_equal. exact Hs.
Qed.

Lemma indexOfAt_None (address : nat) (array : list A) :
  indexOfAt addressOf address array = None ->
  forall x, In x array -> addressOf x <> address.
Proof.
  induction array as [|x rest IH]; simpl; [intros _ ? []|].
  destruct (Nat.eqb_spec (addressOf x) address) as [E|N]; [discriminate|].
  destruct (indexOfAt addressOf address rest); [discriminate|].
  intros _ y [<-|Hy]; [exact N | apply IH; [reflexivity | exact Hy]].
Qed.

(** [find] returns the first element that satisfies the test. *)
Lemma find_split (p : A -> bool) (array : list A) (c : A) :
  find p array = Some c ->
  exists pre post,
    array = pre ++ c :: post /\ p c = true /\ (forall x, In x pre -> p x = false).
Proof.
  induction array as [|x rest IH]; simpl; [discriminate|].
  destruct (p x) eqn:E.
  - intros [= <-]. exists [], rest. repeat split; auto; intros ? [].
  - intros H. destruct (IH H) as (pre & post & -> & Hc & Hpre).
    exists (x :: pre), post. repeat split; auto.
    intros y [<-|Hy]; [exact E | apply Hpre; exact Hy].
Qed.

(** The elements that [filter] keeps, seen in the array it filters. *)
Lemma filter_split (p : A -> bool) (array kept1 kept2 : list A) (c : A) :
  filter p array = kept1 ++ c :: kept2 ->
  exists pre post,
    array = pre ++ c :: post /\ p c = true /\
    filter p pre = kept1 /\ filter p post = kept2.
Proof.
  revert kept1. induction array as [|x rest IH]; intros kept1; simpl.
  - destruct kept1; discriminate.
  - destruct (p x) eqn:E.
    + destruct kept1 as [|k kept1]; simpl; intros [= <- H].
      * exists [], rest. repeat split; auto.
      * destruct (IH kept1 H) as (pre & post & -> & Hc & H1 & H2).
        exists (x :: pre), post. simpl. rewrite E, H1. repeat split; auto.
    + intros H. destruct (IH kept1 H) as (pre & post & -> & Hc & H1 & H2).
      exists (x :: pre), post. simpl. rewrite E. repeat split; auto.
Qed.
End ObjectArrayFacts.

(** ** The data-scheduling pass *)

Section Scheduling.
Import MultiplexWebSocketDispatcher.

Lemma insert_not_nil (a : Queue.t) (sorted : list Queue.t) :
  Queue.insert a sorted <> [].
Proof.
  destruct sorted as [|b rest]; simpl; [discriminate|].
  destruct (Queue.lastSendTime a - Queue.lastSendTime b <=? 0); discriminate.
Qed.

(** The head of the sorted array is the first of the elements with the
    least [lastSendTime]. *)
Lemma sort_head (queues sorted : list Queue.t) (c : Queue.t) :
  Queue.sort queues = c :: sorted ->
  exists pre post,
    queues = pre ++ c :: post /\
    (forall x, In x pre -> Queue.lastSendTime c < Queue.lastSendTime x) /\
    (forall x, In x post -> Queue.lastSendTime c <= Queue.lastSendTime x).
Proof.
  revert c sorted. induction queues as [|a rest IH]; intros c sorted; simpl;
    [discriminate|].
  destruct (Queue.sort rest) as [|c' sorted'] eqn:Es; simpl.
  - intros [= <- <-]. destruct rest as [|b rest].
    + exists [], []. repeat split; auto; intros ? [].
    + simpl in Es. exfalso. exact (insert_not_nil _ _ Es).
  - destruct (IH c' sorted' eq_refl) as (pre & post & -> & Hpre & Hpost).
    destruct (Queue.lastSendTime a - Queue.lastSendTime c' <=? 0) eqn:Ec;
      intros [= <- <-].
    + exists [], (pre ++ c' :: post). repeat split; auto; try (intros ? []).
      intros x Hx. apply in_app_or in Hx. destruct Hx as [Hx|[<-|Hx]].
      * specialize (Hpre x Hx). lia.
      * lia.
      * specialize (Hpost x Hx). lia.
    + exists (a :: pre), post. repeat split; auto.
      intros x [<-|Hx]; [lia | apply Hpre; exact Hx].
Qed.

Lemma pending_iff (x : Queue.t) :
  Queue.pending x = true <-> Queue.remoteFull x = false /\ Queue._queue x <> [].
Proof.
  unfold Queue.pending, Queue.length.
  destruct (Queue.remoteFull x), (Queue._queue x); simpl; split;
    try discriminate; try (intros [? ?]; congruence); auto.
  intros _. split; [reflexivity | discriminate].
Qed.

(** What one pass of the loop does when the control loop is not active:
    nothing if no queue is pending, else the first least recently served
    pending queue of the table loses its first write, and the loop
    suspends with it. *)
Lemma processQueues_loop_spec (d : t) :
  NoDup (map Queue.address (_queues d)) ->
  _processingControlQueue d = false ->
  (filter Queue.pending (_queues d) = [] /\
   processQueues_loop d = with_processingQueues false d) \/
  (exists pre candidate post task rest,
      _queues d = pre ++ candidate :: post /\
      Queue.pending candidate = true /\
      (forall x, In x pre -> Queue.pending x = true ->
                 Queue.lastSendTime candidate < Queue.lastSendTime x) /\
      (forall x, In x post -> Queue.pending x = true ->
                 Queue.lastSendTime candidate <= Queue.lastSendTime x) /\
      Queue._queue candidate = task :: rest /\
      processQueues_loop d =
        with_queuesAwait
          (Some (waitWebSocketBufferAmountLow (_socket d),
                 Queue.with_queue rest candidate, task))
          (with_queues (pre ++ Queue.with_queue rest candidate :: post) d)).
Proof.
  intros Hnd Hc. unfold processQueues_loop. rewrite Hc.
  destruct (filter Queue.pending (_queues d)) as [|p ps] eqn:Ef; [left; auto|].
  right. destruct (Queue.sort (p :: ps)) as [|candidate sorted] eqn:Es.
  { simpl in Es. exfalso. exact (insert_not_nil _ _ Es). }
  destruct (sort_head _ _ _ Es) as (k1 & k2 & Ek & Hk1 & Hk2).
  rewrite Ek in Ef.
  destruct (filter_split Queue.pending _ _ _ _ Ef) as (pre & post & Eq & Hp & H1 & H2).
  pose proof Hp as Hp'. apply pending_iff in Hp'. destruct Hp' as [_ Hne].
  unfold Queue.dequeue.
  destruct (Queue._queue candidate) as [|task rest] eqn:Et; [congruence|].
  exists pre, candidate, post, task, rest. rewrite Eq in Hnd |- *.
  repeat split; auto.
  - intros x Hx Hpx. apply Hk1. rewrite <- H1. apply filter_In. auto.
  - intros x Hx Hpx. apply Hk2. rewrite <- H2. apply filter_In. auto.
  - unfold Queue.mutate. rewrite (mutateAt_split Queue.address) by exact Hnd.
    unfold Queue.dequeue. rewrite Et. reflexivity.
Qed.

(** C4. In an iteration of the data loop (the control loop not being
    active) the candidates are exactly the queues of the table that are
    not [remoteFull] and not empty. If there is none the loop stops and
    clears its flag. Otherwise the table is [pre ++ candidate :: post]
    where [candidate] is pending, every pending queue before it has a
    strictly greater [lastSendTime] and every pending queue after it a
    greater or equal one; the first write of [candidate], and nothing
    else, leaves the table, and the loop suspends on the backpressure wait
    holding that write. *)
Theorem processQueues_least_recently_served (d : t) :
  NoDup (map Queue.address (_queues d)) ->
  _processingControlQueue d = false ->
  let pending := filter Queue.pending (_queues d) in
  (forall x, In x pending <->
             In x (_queues d) /\ Queue.remoteFull x = false /\ Queue._queue x <> []) /\
  (pending = [] -> processQueues_loop d = with_processingQueues false d) /\
  (pending <> [] ->
   exists pre candidate post task rest,
     _queues d = pre ++ candidate :: post /\
     In candidate pending /\
     (forall x, In x pre -> In x pending ->
                Queue.lastSendTime candidate < Queue.lastSendTime x) /\
     (forall x, In x post -> In x pending ->
                Queue.lastSendTime candidate <= Queue.lastSendTime x) /\
     Queue._queue candidate = task :: rest /\
     _queues (processQueues_loop d) = pre ++ Queue.with_queue rest candidate :: post /\
     queuesAwait (processQueues_loop d) =
       Some (waitWebSocketBufferAmountLow (_socket d),
             Queue.with_queue rest candidate, task) /\
     _processingQueues (processQueues_loop d) = _processingQueues d).
Proof.
  intros Hnd Hc pending. split; [|split].
  - intros x. unfold pending. rewrite filter_In, pending_iff. tauto.
  - intros E. destruct (processQueues_loop_spec d Hnd Hc) as [[_ H]|H]; [exact H|].
    destruct H as (pre & c & post & task & rest & Eq & Hp & _).
    exfalso. assert (Hin : In c pending).
    { unfold pending. apply filter_In. split; [|exact Hp].
      rewrite Eq. apply in_or_app. right. left. reflexivity. }
    rewrite E in Hin. exact Hin.
  - intros Hne. destruct (processQueues_loop_spec d Hnd Hc) as [[E _]|H];
      [exfalso; apply Hne; exact E|].
    destruct H as (pre & c & post & task & rest & Eq & Hp & Hpre & Hpost & Et & ->).
    exists pre, c, post, task, rest. unfold pending. repeat split; auto.
    + apply filter_In. split; [|exact Hp].
      rewrite Eq. apply in_or_app. right. left. reflexivity.
    + intros x Hx Hf. apply filter_In in Hf. apply Hpre; tauto.
    + intros x Hx Hf. apply filter_In in Hf. apply Hpost; tauto.
Qed.
End Scheduling.

(** ** Invariants of the dispatcher *)

Section Invariants.
Import MultiplexWebSocketDispatcher Invariant.

Lemma queued_app (l1 l2 : list Queue.t) : queued (l1 ++ l2) = queued l1 ++ queued l2.
Proof. unfold queued. apply flat_map_app. Qed.

Lemma queued_cons (x : Queue.t) (l : list Queue.t) :
  queued (x :: l) = map Task.resolver (Queue._queue x) ++ queued l.
Proof. reflexivity. Qed.

Lemma In_queued (r : nat) (queues : list Queue.t) :
  In r (queued queues) <->
  exists x task, In x queues /\ In task (Queue._queue x) /\ Task.resolver task = r.
Proof.
  unfold queued. rewrite in_flat_map. split.
  - intros (x & Hx & Hr). apply in_map_iff in Hr. destruct Hr as (task & E & Ht).
    exists x, task. auto.
  - intros (x & task & Hx & Ht & E). exists x. split; [exact Hx|].
    apply in_map_iff. exists task. auto.
Qed.

(** A mutation that keeps the writes of the queue keeps [queued]. *)
Lemma queued_mutate_same (address : nat) (f : Queue.t -> Queue.t) (queues : list Queue.t) :
  (forall x, Queue._queue (f x) = Queue._queue x) ->
  queued (Queue.mutate address f queues) = queued queues.
Proof.
  intros Hf. induction queues as [|x rest IH]; [reflexivity|].
  unfold Queue.mutate, mutateAt in *. simpl map. rewrite !queued_cons, IH.
  destruct (Nat.eqb (Queue.address x) address); [rewrite Hf|]; reflexivity.
Qed.

(** A mutation that drops writes from the queue can only shrink [queued]. *)
Lemma queued_mutate_incl (address : nat) (f : Queue.t -> Queue.t) (queues : list Queue.t) :
  (forall x, incl (Queue._queue (f x)) (Queue._queue x)) ->
  incl (queued (Queue.mutate address f queues)) (queued queues).
Proof.
  intros Hf r Hr. apply In_queued in Hr. destruct Hr as (y & task & Hy & Ht & E).
  apply In_mutateAt in Hy. destruct Hy as (x & Hx & [[-> _]|[-> _]]);
    apply In_queued; exists x, task; auto.
  repeat split; auto. apply Hf. exact Ht.
Qed.

Lemma dequeue_incl (x : Queue.t) :
  incl (Queue._queue (snd (Queue.dequeue x))) (Queue._queue x).
Proof.
  unfold Queue.dequeue. destruct (Queue._queue x) as [|task rest] eqn:E; simpl.
  - rewrite E. apply incl_refl.
  - apply incl_tl, incl_refl.
Qed.

(** The three ways a pass of the data loop can end, with no assumption on
    the table. *)
Lemma processQueues_loop_cases (d : t) :
  processQueues_loop d = with_processingQueues false d \/
  processQueues_loop d = d \/
  exists candidate task rest,
    In candidate (_queues d) /\ Queue.pending candidate = true /\
    Queue._queue candidate = task :: rest /\
    processQueues_loop d =
      with_queuesAwait
        (Some (waitWebSocketBufferAmountLow (_socket d),
               Queue.with_queue rest candidate, task))
        (with_queues
           (Queue.mutate (Queue.address candidate)
              (fun x => snd (Queue.dequeue x)) (_queues d))
           d).
Proof.
  unfold processQueues_loop.
  destruct (_processingControlQueue d); [left; reflexivity|].
  destruct (filter Queue.pending (_queues d)) as [|p ps] eqn:Ef; [left; reflexivity|].
  destruct (Queue.sort (p :: ps)) as [|candidate sorted] eqn:Es; [right; left; reflexivity|].
  destruct (sort_head _ _ _ Es) as (k1 & k2 & Ek & _).
  assert (Hin : In candidate (filter Queue.pending (_queues d))).
  { rewrite Ef, Ek. apply in_or_app. right. left. reflexivity. }
  apply filter_In in Hin. destruct Hin as [Hin Hp].
  destruct (Queue.dequeue candidate) as [o candidate'] eqn:Ed.
  unfold Queue.dequeue in Ed.
  destruct (Queue._queue candidate) as [|task rest] eqn:Et; injection Ed as <- <-;
    [right; left; reflexivity|].
  right. right. exists candidate, task, rest. auto.
Qed.

Lemma status_app_None (r : nat) (log extra : list (nat * Settlement)) :
  status r log = None -> status r (log ++ extra) = status r extra.
Proof.
  unfold status. induction log as [|entry log IH]; simpl; [reflexivity|].
  destruct (Nat.eqb (fst entry) r); [discriminate | exact IH].
Qed.

Lemma status_app_Some (r : nat) (how : Settlement) (log extra : list (nat * Settlement)) :
  status r log = Some how -> status r (log ++ extra) = Some how.
Proof.
  unfold status. induction log as [|entry log IH]; simpl; [discriminate|].
  destruct (Nat.eqb (fst entry) r); [auto | exact IH].
Qed.

Lemma status_settle_other (r r' : nat) (how : Settlement) (log : list (nat * Settlement)) :
  r <> r' -> status r (settle r' how log) = status r log.
Proof.
  intros N. unfold settle. destruct (status r' log); [reflexivity|].
  destruct (status r log) as [s|] eqn:E.
  - apply status_app_Some. exact E.
  - rewrite status_app_None by exact E. unfold status. simpl.
    destruct (Nat.eqb_spec r' r); [congruence | reflexivity].
Qed.

Lemma status_settle_same (r : nat) (how : Settlement) (log : list (nat * Settlement)) :
  status r log = None -> status r (settle r how log) = Some how.
Proof.
  intros E. unfold settle. rewrite E, status_app_None by exact E.
  unfold status. simpl. rewrite Nat.eqb_refl. reflexivity.
Qed.

Lemma status_In (r : nat) (how : Settlement) (log : list (nat * Settlement)) :
  status r log = Some how -> In (r, how) log.
Proof.
  unfold status. destruct (find _ log) as [[r' how']|] eqn:E; [|discriminate].
  intros [= <-]. apply find_some in E. destruct E as [Hin Hr].
  apply Nat.eqb_eq in Hr. simpl in Hr. subst. exact Hin.
Qed.

Lemma In_settle (entry : nat * Settlement) (r : nat) (how : Settlement)
    (log : list (nat * Settlement)) :
  In entry (settle r how log) -> In entry log \/ entry = (r, how).
Proof.
  unfold settle. destruct (status r log); [auto|].
  intros H. apply in_app_or in H. destruct H as [H|[<-|[]]]; auto.
Qed.

(** *** Abandoned writes stay abandoned *)

Lemma abandoned_mono (r : nat) (d d' : t) :
  (resolvers d <= resolvers d')%nat ->
  status r (settled d') = status r (settled d) ->
  (forall x, In x (live d') -> In x (live d) \/ (resolvers d <= x)%nat) ->
  abandoned r d -> abandoned r d'.
Proof.
  intros Hres Hset Hlive (Hr & Hs & Hn). repeat split.
  - lia.
  - rewrite Hset. exact Hs.
  - intros Hin. destruct (Hlive r Hin) as [H|H]; [exact (Hn H) | lia].
Qed.

Lemma live_processQueues_loop (d : t) :
  incl (live (processQueues_loop d)) (live d).
Proof.
  destruct (processQueues_loop_cases d)
    as [->|[->|(c & task & rest & Hin & Hp & Et & ->)]];
    try apply incl_refl.
  unfold live, inflight. simpl. intros x [<-|Hx]; apply in_or_app; right.
  - apply In_queued. exists c, task. rewrite Et. simpl. auto.
  - revert x Hx. apply queued_mutate_incl. intros y. apply dequeue_incl.
Qed.

Lemma fields_processQueues_loop (d : t) :
  resolvers (processQueues_loop d) = resolvers d /\
  settled (processQueues_loop d) = settled d /\
  _socket (processQueues_loop d) = _socket d /\
  _controlQueue (processQueues_loop d) = _controlQueue d /\
  _processingControlQueue (processQueues_loop d) = _processingControlQueue d /\
  controlAwait (processQueues_loop d) = controlAwait d /\
  allocated (processQueues_loop d) = allocated d.
Proof.
  destruct (processQueues_loop_cases d)
    as [->|[->|(c & task & rest & Hin & Hp & Et & ->)]]; simpl; auto 10.
Qed.

Lemma abandoned_processQueues_loop (r : nat) (d : t) :
  abandoned r d -> abandoned r (processQueues_loop d).
Proof.
  pose proof (fields_processQueues_loop d) as (Hr & Hs & _).
  apply abandoned_mono.
  - rewrite Hr. lia.
  - rewrite Hs. reflexivity.
  - intros x Hx. left. exact (live_processQueues_loop d x Hx).
Qed.

Lemma abandoned_processQueues (r : nat) (d : t) :
  abandoned r d -> abandoned r (processQueues d).
Proof.
  unfold processQueues. destruct (_processingQueues d); [auto|].
  intros H. apply abandoned_processQueues_loop. exact H.
Qed.

Lemma abandoned_processControlQueue_loop (r : nat) (d : t) :
  abandoned r d -> abandoned r (processControlQueue_loop d).
Proof.
  unfold processControlQueue_loop. destruct (_controlQueue d); [|auto].
  intros H. apply abandoned_processQueues. exact H.
Qed.

Lemma abandoned_sendControlMessage (r : nat) (local : bool) (id opcode : Z) (d : t) :
  abandoned r d -> abandoned r (sendControlMessage local id opcode d).
Proof.
  intros H. unfold sendControlMessage, processControlQueue. simpl.
  destruct (_processingControlQueue d); [exact H|].
  apply abandoned_processControlQueue_loop. exact H.
Qed.

Lemma abandoned_wakeControl (r : nat) (d : t) :
  abandoned r d -> abandoned r (wakeControl d).
Proof.
  intros H. unfold wakeControl.
  destruct (controlAwait d); [|exact H].
  destruct (awaited _ _) as [[|]|]; try exact H.
  destruct (_controlQueue d) as [|message rest]; [exact H|].
  destruct (bind _ _); [|exact H].
  apply abandoned_processControlQueue_loop. exact H.
Qed.

Lemma abandoned_settle (r : nat) (how : Settlement) (task : Task.t) (d : t) :
  Task.resolver task <> r ->
  abandoned r d ->
  abandoned r (with_settled (settle (Task.resolver task) how (settled d)) d).
Proof.
  intros N. apply abandoned_mono; simpl; auto.
  apply status_settle_other. congruence.
Qed.

Lemma abandoned_wakeQueues (r : nat) (source : Source) (now : Z) (d : t) :
  abandoned r d -> abandoned r (wakeQueues source now d).
Proof.
  intros H. unfold wakeQueues.
  destruct (queuesAwait d) as [[[wait candidate] task]|] eqn:Ea; [|exact H].
  assert (N : Task.resolver task <> r).
  { intros E. destruct H as (_ & _ & Hn). apply Hn. unfold live, inflight.
    rewrite Ea. left. exact E. }
  assert (H1 : abandoned r (with_queuesAwait None d)).
  { revert H. apply abandoned_mono; simpl; auto.
    intros x Hx. left. unfold live in *. apply in_or_app. right. exact Hx. }
  destruct (awaited wait (_socket d)) as [[|]|]; [| |exact H].
  - apply abandoned_processQueues_loop. unfold sendTask.
    destruct (bind _ _) as [socket|].
    + apply abandoned_settle; [exact N|]. revert H1.
      apply abandoned_mono; simpl; auto.
      intros x Hx. left. unfold live, inflight in *. simpl in *.
      rewrite queued_mutate_same in Hx by reflexivity. exact Hx.
    + apply abandoned_settle; [exact N | exact H1].
  - apply abandoned_processQueues_loop. apply abandoned_settle; [exact N | exact H1].
Qed.

Lemma queued_mutate_enqueue (address resolver : nat) (data : list byte)
    (queues : list Queue.t) (x : nat) :
  In x (queued (Queue.mutate address (Queue.enqueue resolver data) queues)) ->
  In x (queued queues) \/ x = resolver.
Proof.
  intros Hx. apply In_queued in Hx. destruct Hx as (y & task & Hy & Ht & E).
  apply In_mutateAt in Hy. destruct Hy as (q & Hq & [[-> _]|[-> _]]).
  - left. apply In_queued. exists q, task. auto.
  - simpl in Ht. apply in_app_or in Ht. destruct Ht as [Ht|[<-|[]]].
    + left. apply In_queued. exists q, task. auto.
    + right. simpl in E. auto.
Qed.

Lemma abandoned_send (r : nat) (local : bool) (id : Z) (data : list byte) (d : t) :
  abandoned r d -> abandoned r (fst (send local id data d)).
Proof.
  intros H. unfold send.
  destruct (find (Queue.matches local id) (_queues d)) as [queue|]; [|exact H].
  simpl. apply abandoned_processQueues. revert H.
  apply abandoned_mono; simpl; auto.
  intros x Hx. unfold live, inflight in *. simpl in *.
  apply in_app_or in Hx. destruct Hx as [Hx|Hx].
  - left. apply in_or_app. left. exact Hx.
  - apply queued_mutate_enqueue in Hx. destruct Hx as [Hx| ->].
    + left. apply in_or_app. right. exact Hx.
    + right. lia.
Qed.

Lemma In_splice (A : Type) (index : nat) (array : list A) (x : A) :
  In x (splice index array) -> In x array.
Proof.
  revert index. induction array as [|y rest IH]; intros [|index]; unfold splice;
    simpl; auto.
  intros [<-|H]; [auto | right; apply (IH index); exact H].
Qed.

Lemma queued_splice (index : nat) (queues : list Queue.t) :
  incl (queued (splice index queues)) (queued queues).
Proof.
  intros x Hx. apply In_queued in Hx. destruct Hx as (y & task & Hy & Ht & E).
  apply In_queued. exists y, task. repeat split; auto.
  apply In_splice in Hy. exact Hy.
Qed.

(** Whatever happens to the dispatcher, an abandoned write stays so. *)
Lemma abandoned_step (r : nat) (source : Source) (d : t) (event : Event) :
  abandoned r d -> abandoned r (step source d event).
Proof.
  intros H. destruct event; simpl.
  - apply abandoned_sendControlMessage. exact H.
  - apply abandoned_send. exact H.
  - revert H. apply abandoned_mono; simpl; auto.
    intros x Hx. left. unfold live, inflight in *. simpl in *.
    rewrite queued_app, app_nil_r in Hx. exact Hx.
  - unfold onClose. destruct (Queue.indexOf address (_queues d)); [|exact H].
    revert H. apply abandoned_mono; simpl; auto.
    intros x Hx. left. unfold live, inflight in *. simpl in *.
    apply in_app_or in Hx. apply in_or_app. destruct Hx as [Hx|Hx]; [auto|].
    right. exact (queued_splice _ _ x Hx).
  - unfold handleControlMessage. destruct (find _ _); [|exact H].
    revert H. apply abandoned_mono; simpl; auto.
    intros x Hx. left. unfold live, inflight in *. simpl in *.
    rewrite queued_mutate_same in Hx by reflexivity. exact Hx.
  - exact H.
  - apply abandoned_wakeControl. exact H.
  - apply abandoned_wakeQueues. exact H.
Qed.

Lemma abandoned_run (r : nat) (source : Source) (events : list Event) (d : t) :
  abandoned r d -> abandoned r (run source d events).
Proof.
  revert d. induction events as [|event events IH]; intros d H; simpl; [exact H|].
  apply IH, abandoned_step, H.
Qed.

(** *** Well-formedness is kept *)

Lemma wf_new (socket : WebSocket.t) : wf (new socket).
Proof.
  constructor; simpl.
  - constructor.
  - intros ? [].
  - constructor.
  - intros ? [].
  - intros ? ? [].
  - intros H. exfalso. apply H. reflexivity.
Qed.

(** [wf] looks at six fields only. *)
Lemma wf_ext (d d' : t) :
  _queues d' = _queues d ->
  queuesAwait d' = queuesAwait d ->
  allocated d' = allocated d ->
  resolvers d' = resolvers d ->
  settled d' = settled d ->
  (_processingQueues d = true -> _processingQueues d' = true) ->
  wf d -> wf d'.
Proof.
  intros Eq Ea El Er Es Ef [H1 H2 H3 H4 H5 H6].
  constructor; unfold live, inflight in *; rewrite ?Eq, ?Ea, ?El, ?Er, ?Es; auto.
Qed.

Lemma count_queued_split (pre post : list Queue.t) (c : Queue.t) (x : nat) :
  count_occ Nat.eq_dec (queued (pre ++ c :: post)) x =
  (count_occ Nat.eq_dec (queued pre) x
   + count_occ Nat.eq_dec (map Task.resolver (Queue._queue c)) x
   + count_occ Nat.eq_dec (queued post) x)%nat.
Proof.
  rewrite queued_app, queued_cons, !count_occ_app. lia.
Qed.

Lemma wf_processQueues_loop (d : t) :
  wf d -> queuesAwait d = None -> _processingQueues d = true ->
  wf (processQueues_loop d).
Proof.
  intros Hwf Ea Ef.
  pose proof (live_processQueues_loop d) as Hincl.
  destruct (processQueues_loop_cases d)
    as [E|[E|(c & task & rest & Hin & Hp & Et & E)]]; rewrite E in *; clear E.
  - destruct Hwf as [H1 H2 H3 H4 H5 H6].
    constructor; unfold live, inflight in *; simpl in *; auto;
      try (rewrite Ea; intros H; exfalso; apply H; reflexivity).
  - exact Hwf.
  - destruct Hwf as [H1 H2 H3 H4 H5 H6].
    apply in_split in Hin. destruct Hin as (pre & post & Eq).
    constructor; simpl.
    + unfold Queue.mutate. rewrite mutateAt_addresses; [exact H1|].
      intros x. unfold Queue.dequeue. destruct (Queue._queue x); reflexivity.
    + intros y Hy. apply In_mutateAt in Hy.
      destruct Hy as (x & Hx & [[-> _]|[-> _]]); [auto|].
      unfold Queue.dequeue. destruct (Queue._queue x) eqn:Ex; simpl; auto.
    + unfold live, inflight in *. simpl. rewrite Ea in H3. simpl in H3.
      rewrite Eq in H1, H3 |- *. unfold Queue.mutate.
      rewrite (mutateAt_split Queue.address) by exact H1.
      unfold Queue.dequeue. rewrite Et. simpl snd.
      apply (NoDup_count_occ Nat.eq_dec). intros x.
      apply (proj1 (NoDup_count_occ Nat.eq_dec _)) with (x := x) in H3.
      change (Task.resolver task :: queued (pre ++ Queue.with_queue rest c :: post))
        with ([Task.resolver task] ++ queued (pre ++ Queue.with_queue rest c :: post)).
      rewrite count_occ_app, count_queued_split.
      rewrite count_queued_split, Et in H3. simpl in *.
      destruct (Nat.eq_dec (Task.resolver task) x); lia.
    + intros r Hr. apply H4. apply Hincl. exact Hr.
    + exact H5.
    + intros _. exact Ef.
Qed.

Lemma wf_processQueues (d : t) : wf d -> wf (processQueues d).
Proof.
  intros Hwf. unfold processQueues.
  destruct (_processingQueues d) eqn:Ef; [exact Hwf|].
  assert (Ea : queuesAwait d = None).
  { destruct (queuesAwait d) eqn:Ea; [|reflexivity].
    pose proof (wf_suspended d Hwf) as H. rewrite Ea, Ef in H.
    exfalso. assert (true = false) by (symmetry; apply H; discriminate). discriminate. }
  apply wf_processQueues_loop; simpl; auto.
  revert Hwf. apply wf_ext; simpl; auto.
Qed.

Lemma wf_processControlQueue_loop (d : t) : wf d -> wf (processControlQueue_loop d).
Proof.
  intros Hwf. unfold processControlQueue_loop. destruct (_controlQueue d).
  - apply wf_processQueues. revert Hwf. apply wf_ext; simpl; auto.
  - revert Hwf. apply wf_ext; simpl; auto.
Qed.

Lemma wf_sendControlMessage (local : bool) (id opcode : Z) (d : t) :
  wf d -> wf (sendControlMessage local id opcode d).
Proof.
  intros Hwf. unfold sendControlMessage, processControlQueue. simpl.
  destruct (_processingControlQueue d).
  - revert Hwf. apply wf_ext; simpl; auto.
  - apply wf_processControlQueue_loop. revert Hwf. apply wf_ext; simpl; auto.
Qed.

Lemma wf_wakeControl (d : t) : wf d -> wf (wakeControl d).
Proof.
  intros Hwf. unfold wakeControl.
  destruct (controlAwait d); [|exact Hwf].
  destruct (awaited _ _) as [[|]|]; try exact Hwf.
  - destruct (_controlQueue d) as [|message rest].
    + revert Hwf. apply wf_ext; simpl; auto.
    + destruct (bind _ _).
      * apply wf_processControlQueue_loop. revert Hwf. apply wf_ext; simpl; auto.
      * revert Hwf. apply wf_ext; simpl; auto.
  - revert Hwf. apply wf_ext; simpl; auto.
Qed.

(** The state in which the data loop resumes: the write it held is no
    longer in flight and has been settled. *)
Lemma wf_settle_inflight (how : Settlement) (d : t) (wait : Wait)
    (candidate : Queue.t) (task : Task.t) :
  wf d -> queuesAwait d = Some (wait, candidate, task) ->
  wf (with_settled (settle (Task.resolver task) how (settled d))
        (with_queuesAwait None d)).
Proof.
  intros [H1 H2 H3 H4 H5 H6] Ea.
  unfold live, inflight in *. rewrite Ea in *. simpl in H3, H4.
  constructor; unfold live, inflight; simpl; auto.
  - apply NoDup_cons_iff in H3. tauto.
  - intros r Hr. destruct (H4 r (or_intror Hr)) as [Hlt Hs]. split; [exact Hlt|].
    rewrite status_settle_other; [exact Hs|].
    intros ->. apply NoDup_cons_iff in H3. tauto.
  - intros r how' Hin. apply In_settle in Hin. destruct Hin as [Hin|[= -> _]].
    + eapply H5. exact Hin.
    + apply H4. left. reflexivity.
Qed.

Lemma wf_mutate_same (address : nat) (f : Queue.t -> Queue.t) (d : t) :
  (forall x, Queue._queue (f x) = Queue._queue x) ->
  (forall x, Queue.address (f x) = Queue.address x) ->
  wf d -> wf (with_queues (Queue.mutate address f (_queues d)) d).
Proof.
  intros Hq Ha [H1 H2 H3 H4 H5 H6].
  constructor; unfold live, inflight in *; simpl;
    rewrite ?queued_mutate_same by exact Hq; auto.
  - unfold Queue.mutate. rewrite mutateAt_addresses by exact Ha. exact H1.
  - intros y Hy. apply In_mutateAt in Hy.
    destruct Hy as (x & Hx & [[-> _]|[-> _]]); [|rewrite Ha]; auto.
Qed.

Lemma wf_wakeQueues (source : Source) (now : Z) (d : t) :
  wf d -> wf (wakeQueues source now d).
Proof.
  intros Hwf. unfold wakeQueues.
  destruct (queuesAwait d) as [[[wait candidate] task]|] eqn:Ea; [|exact Hwf].
  assert (Ef : _processingQueues d = true).
  { apply (wf_suspended d Hwf). rewrite Ea. discriminate. }
  destruct (awaited wait (_socket d)) as [[|]|]; [| |exact Hwf].
  - apply wf_processQueues_loop.
    + unfold sendTask. destruct (bind _ _) as [socket|].
      * pose proof (wf_settle_inflight Fulfilled d wait candidate task Hwf Ea) as H.
        apply (wf_mutate_same (Queue.address candidate) (Queue.with_lastSendTime now))
          in H; [|reflexivity|reflexivity].
        revert H. apply wf_ext; simpl; auto.
      * exact (wf_settle_inflight Rejected d wait candidate task Hwf Ea).
    + unfold sendTask. destruct (bind _ _); reflexivity.
    + unfold sendTask. destruct (bind _ _); simpl; exact Ef.
  - apply wf_processQueues_loop; simpl; auto.
    exact (wf_settle_inflight Rejected d wait candidate task Hwf Ea).
Qed.

Lemma wf_addChannel (local : bool) (id : Z) (d : t) :
  wf d -> wf (addChannel local id d).
Proof.
  intros [H1 H2 H3 H4 H5 H6].
  constructor; unfold live, inflight, addChannel in *; simpl;
    rewrite ?queued_app, ?app_nil_r; auto.
  - rewrite map_app. simpl.
    apply (NoDup_count_occ Nat.eq_dec). intros x. rewrite count_occ_app. simpl.
    apply (proj1 (NoDup_count_occ Nat.eq_dec _)) with (x := x) in H1.
    destruct (Nat.eq_dec (allocated d) x) as [<-|_]; [|lia].
    assert (Hn : ~ In (allocated d) (map Queue.address (_queues d))).
    { intros Hin. apply in_map_iff in Hin. destruct Hin as (q & E & Hq).
      specialize (H2 q Hq). lia. }
    apply (count_occ_not_In Nat.eq_dec) in Hn. lia.
  - intros x Hx. apply in_app_or in Hx. destruct Hx as [Hx|[<-|[]]].
    + specialize (H2 x Hx). lia.
    + simpl. lia.
Qed.

Lemma NoDup_app_sub (B : Type) (l l1 l2 : list B) :
  NoDup (l ++ l1) -> NoDup l2 -> incl l2 l1 -> NoDup (l ++ l2).
Proof.
  intros H H2 Hi. induction l as [|x l IH]; simpl in *; [exact H2|].
  apply NoDup_cons_iff in H. destruct H as [Hx Hl]. constructor.
  - intros Hin. apply Hx. apply in_app_or in Hin. apply in_or_app.
    destruct Hin as [Hin|Hin]; [left | right; apply Hi]; exact Hin.
  - apply IH. exact Hl.
Qed.

Lemma wf_onClose (address : nat) (d : t) : wf d -> wf (onClose address d).
Proof.
  intros Hwf. unfold onClose.
  destruct (Queue.indexOf address (_queues d)) as [index|] eqn:Ei; [|exact Hwf].
  destruct (indexOfAt_Some Queue.address _ _ _ Ei)
    as (pre & c & post & Eq & Ec & Hpre & Es).
  destruct Hwf as [H1 H2 H3 H4 H5 H6].
  assert (Hsub : incl (queued (pre ++ post)) (queued (_queues d))).
  { rewrite Eq, !queued_app, queued_cons. intros x Hx.
    apply in_app_or in Hx. apply in_or_app.
    destruct Hx as [Hx|Hx]; [left; exact Hx | right; apply in_or_app; right; exact Hx]. }
  constructor; unfold live, inflight in *; simpl; rewrite ?Es; auto.
  - rewrite Eq in H1. rewrite map_app in *. simpl in H1.
    apply NoDup_remove_1 in H1. exact H1.
  - intros x Hx. apply H2. rewrite Eq. apply in_app_or in Hx. apply in_or_app.
    destruct Hx as [Hx|Hx]; [left | right; right]; exact Hx.
  - apply (NoDup_app_sub _ _ _ _ H3); [|exact Hsub].
    apply NoDup_app_remove_l in H3. rewrite Eq in H3.
    rewrite !queued_app, queued_cons in *.
    apply NoDup_app_remove_l in H3 as H3r. apply NoDup_app_remove_l in H3r.
    apply (NoDup_app_sub _ _ _ _ H3 H3r).
    intros x Hx. apply in_or_app. right. exact Hx.
  - intros r Hr. apply H4. apply in_app_or in Hr. apply in_or_app.
    destruct Hr as [Hr|Hr]; [left; exact Hr | right; apply Hsub; exact Hr].
Qed.

Lemma wf_handleControlMessage (local : bool) (id opcode : Z) (d : t) :
  wf d -> wf (handleControlMessage local id opcode d).
Proof.
  intros Hwf. unfold handleControlMessage.
  destruct (find _ _); [|exact Hwf].
  apply wf_mutate_same; auto.
Qed.

Lemma wf_send (local : bool) (id : Z) (data : list byte) (d : t) :
  wf d -> wf (fst (send local id data d)).
Proof.
  intros Hwf. unfold send.
  destruct (find (Queue.matches local id) (_queues d)) as [queue|] eqn:Ef;
    [|exact Hwf].
  simpl. apply wf_processQueues.
  apply find_some in Ef. destruct Ef as [Hin _].
  apply in_split in Hin. destruct Hin as (pre & post & Eq).
  destruct Hwf as [H1 H2 H3 H4 H5 H6].
  assert (Hfresh : ~ In (resolvers d) (live d)).
  { intros Hin. apply H4 in Hin. lia. }
  constructor; unfold live, inflight in *; simpl.
  - unfold Queue.mutate. rewrite mutateAt_addresses by reflexivity. exact H1.
  - intros y Hy. apply In_mutateAt in Hy.
    destruct Hy as (x & Hx & [[-> _]|[-> _]]); auto. simpl. auto.
  - rewrite Eq in *. unfold Queue.mutate.
    rewrite (mutateAt_split Queue.address) by exact H1.
    apply (NoDup_count_occ Nat.eq_dec). intros x.
    apply (proj1 (NoDup_count_occ Nat.eq_dec _)) with (x := x) in H3.
    apply (count_occ_not_In Nat.eq_dec) in Hfresh.
    rewrite count_occ_app, count_queued_split in *. simpl Queue._queue.
    rewrite map_app, count_occ_app. simpl.
    destruct (Nat.eq_dec (resolvers d) x) as [<-|_]; lia.
  - intros r Hr. apply in_app_or in Hr. destruct Hr as [Hr|Hr].
    + destruct (H4 r) as [Hlt Hs]; [apply in_or_app; left; exact Hr|]. split; [lia|exact Hs].
    + apply queued_mutate_enqueue in Hr. destruct Hr as [Hr| ->].
      * destruct (H4 r) as [Hlt Hs]; [apply in_or_app; right; exact Hr|].
        split; [lia|exact Hs].
      * split; [lia|]. destruct (status (resolvers d) (settled d)) as [how|] eqn:Es;
          [|reflexivity].
        apply status_In, H5 in Es. lia.
  - intros r how Hin. apply H5 in Hin. lia.
  - exact H6.
Qed.

(** Every event keeps the dispatcher well formed, so every dispatcher
    reached from a new one is. *)
Lemma wf_step (source : Source) (d : t) (event : Event) :
  wf d -> wf (step source d event).
Proof.
  intros Hwf. destruct event; simpl.
  - apply wf_sendControlMessage, Hwf.
  - apply wf_send, Hwf.
  - apply wf_addChannel, Hwf.
  - apply wf_onClose, Hwf.
  - apply wf_handleControlMessage, Hwf.
  - revert Hwf. apply wf_ext; simpl; auto.
  - apply wf_wakeControl, Hwf.
  - apply wf_wakeQueues, Hwf.
Qed.

Lemma wf_run (source : Source) (events : list Event) (d : t) :
  wf d -> wf (run source d events).
Proof.
  revert d. induction events as [|event events IH]; intros d H; simpl; [exact H|].
  apply IH, wf_step, H.
Qed.

Lemma same_address (A : Type) (addressOf : A -> nat) (array : list A) (x y : A) :
  NoDup (map addressOf array) -> In x array -> In y array ->
  addressOf x = addressOf y -> x = y.
Proof.
  induction array as [|z rest IH]; simpl; [intros _ []|].
  intros Hnd Hx Hy E. apply NoDup_cons_iff in Hnd. destruct Hnd as [Hz Hnd].
  destruct Hx as [<-|Hx], Hy as [<-|Hy]; auto.
  - exfalso. apply Hz. rewrite E. apply in_map. exact Hy.
  - exfalso. apply Hz. rewrite <- E. apply in_map. exact Hx.
Qed.

Lemma map_mutateAt (A B : Type) (addressOf : A -> nat) (g : A -> B) (address : nat)
    (f : A -> A) (array : list A) :
  (forall x, g (f x) = g x) ->
  map g (mutateAt addressOf address f array) = map g array.
Proof.
  intros Hf. unfold mutateAt. rewrite map_map. apply map_ext. intros x.
  destruct (Nat.eqb (addressOf x) address); [apply Hf | reflexivity].
Qed.

(** The data loop changes nothing of a queue but its pending writes. *)
Lemma table_processQueues_loop (B : Type) (g : Queue.t -> B) (d : t) :
  (forall rest x, g (Queue.with_queue rest x) = g x) ->
  map g (_queues (processQueues_loop d)) = map g (_queues d).
Proof.
  intros Hg.
  destruct (processQueues_loop_cases d)
    as [->|[->|(c & task & rest & Hin & Hp & Et & ->)]]; try reflexivity.
  simpl. apply map_mutateAt. intros x. unfold Queue.dequeue.
  destruct (Queue._queue x); simpl; [reflexivity | apply Hg].
Qed.

(** C7. A channel closes and its queue leaves the table while writes are
    still pending in it. Whatever happens to the dispatcher afterwards
    (calls of its methods, other channels closing, changes of the socket,
    the two loops resuming any number of times), the promise of such a
    write is never settled: neither resolved nor rejected. *)
Theorem abandoned_writes_never_complete (source : Source) (d : t)
    (queue : Queue.t) (task : Task.t) (events : list Event) :
  wf d ->
  In queue (_queues d) ->
  In task (Queue._queue queue) ->
  let closed := onClose (Queue.address queue) d in
  ~ In queue (_queues closed) /\
  status (Task.resolver task) (settled (run source closed events)) = None.
Proof.
  intros Hwf Hq Ht closed.
  pose proof (wf_addresses d Hwf) as Hnd.
  pose proof (wf_live d Hwf) as Hlive.
  destruct (Queue.indexOf (Queue.address queue) (_queues d)) as [index|] eqn:Ei.
  2:{ exfalso. exact (indexOfAt_None Queue.address _ _ Ei queue Hq eq_refl). }
  destruct (indexOfAt_Some Queue.address _ _ _ Ei)
    as (pre & c & post & Eq & Ec & Hpre & Es).
  assert (c = queue) as ->.
  { apply (same_address _ Queue.address (_queues d)); auto.
    rewrite Eq. apply in_or_app. right. left. reflexivity. }
  assert (Ecl : _queues closed = pre ++ post).
  { unfold closed, onClose. rewrite Ei. simpl. exact Es. }
  assert (Hr : In (Task.resolver task) (map Task.resolver (Queue._queue queue))).
  { apply in_map. exact Ht. }
  assert (Hab : abandoned (Task.resolver task) closed).
  { destruct (wf_pending d Hwf (Task.resolver task)) as [Hlt Hs].
    { unfold live. apply in_or_app. right. apply In_queued. exists queue, task. auto. }
    unfold abandoned, closed, onClose. rewrite Ei. simpl. repeat split; auto.
    unfold live in *. simpl. rewrite Es. unfold inflight in *. simpl.
    rewrite Eq in Hlive.
    apply (proj1 (NoDup_count_occ Nat.eq_dec _)) with (x := Task.resolver task)
      in Hlive.
    rewrite count_occ_app, count_queued_split in Hlive.
    apply (count_occ_In Nat.eq_dec) in Hr.
    apply (count_occ_not_In Nat.eq_dec).
    rewrite queued_app, !count_occ_app. lia. }
  split.
  - rewrite Ecl. rewrite Eq in Hnd. intros Hin.
    apply (NoDup_address_split Queue.address pre post queue Hnd queue); [|reflexivity].
    apply in_app_or in Hin. exact Hin.
  - apply (abandoned_run _ source events) in Hab. apply Hab.
Qed.

Lemma In_mutateAt_intro (A : Type) (addressOf : A -> nat) (address : nat)
    (f : A -> A) (array : list A) (x : A) :
  In x array ->
  In (if Nat.eqb (addressOf x) address then f x else x)
     (mutateAt addressOf address f array).
Proof.
  intros H. unfold mutateAt.
  apply (in_map (fun x => if Nat.eqb (addressOf x) address then f x else x)).
  exact H.
Qed.

(** C6. When no queue of the table matches [(local, id)], [send] throws
    the error ['cannot write after end'] and leaves the dispatcher as it
    was: nothing is queued and no wait is started. When a queue matches,
    [send] returns a promise that is new and pending, and the write is now
    the last of that queue, or is already held by the data loop at its
    wait if the loop took it at once. *)
Theorem send_after_end (local : bool) (id : Z) (data : list byte) (d : t) :
  wf d ->
  (find (Queue.matches local id) (_queues d) = None ->
   send local id data d = (d, inl "cannot write after end"%string)) /\
  (forall queue,
      find (Queue.matches local id) (_queues d) = Some queue ->
      let d' := fst (send local id data d) in
      let promise := resolvers d in
      let task := Task.mk promise data in
      snd (send local id data d) = inr promise /\
      status promise (settled d) = None /\
      status promise (settled d') = None /\
      ((exists x before,
           In x (_queues d') /\ Queue.address x = Queue.address queue /\
           Queue._queue x = before ++ [task]) \/
       (exists wait candidate,
           queuesAwait d' = Some (wait, candidate, task) /\
           Queue.address candidate = Queue.address queue))).
Proof.
  intros Hwf. split.
  - intros E. unfold send. rewrite E. reflexivity.
  - intros queue E d' promise task. unfold d', send. rewrite E. simpl.
    assert (Hs : status promise (settled d) = None).
    { destruct (status promise (settled d)) as [how|] eqn:Es; [|reflexivity].
      apply status_In in Es. apply (wf_settled d Hwf) in Es. unfold promise in Es. lia. }
    set (d1 := with_resolvers _ _).
    assert (Hwf1 : wf (processQueues d1)).
    { pose proof (wf_send local id data d Hwf) as H. unfold send in H.
      rewrite E in H. exact H. }
    assert (Hin1 : In (Queue.enqueue promise data queue) (_queues d1)).
    { apply find_some in E. destruct E as [Hin _].
      apply (In_mutateAt_intro _ Queue.address (Queue.address queue)
               (Queue.enqueue promise data)) in Hin.
      rewrite Nat.eqb_refl in Hin. exact Hin. }
    assert (Hnd1 : NoDup (map Queue.address (_queues d1))).
    { simpl. unfold Queue.mutate. rewrite mutateAt_addresses by reflexivity.
      apply (wf_addresses d Hwf). }
    repeat split; auto.
    + unfold processQueues. destruct (_processingQueues d1); [exact Hs|].
      destruct (fields_processQueues_loop (with_processingQueues true d1))
        as (_ & -> & _). exact Hs.
    + assert (Hkeep : exists x before,
                 In x (_queues d1) /\ Queue.address x = Queue.address queue /\
                 Queue._queue x = before ++ [task]).
      { exists (Queue.enqueue promise data queue), (Queue._queue queue). auto. }
      unfold processQueues. destruct (_processingQueues d1); [left; exact Hkeep|].
      destruct (processQueues_loop_cases (with_processingQueues true d1))
        as [->|[->|(c & t & rest & Hin & Hp & Et & ->)]];
        [left; exact Hkeep | left; exact Hkeep |].
      simpl in Hin. simpl.
      destruct (Nat.eq_dec (Queue.address c) (Queue.address queue)) as [Ea|Na].
      * assert (c = Queue.enqueue promise data queue) as ->.
        { apply (same_address _ Queue.address (_queues d1)); auto. }
        simpl in Et. destruct (Queue._queue queue) as [|t0 before] eqn:Eq0.
        -- right. injection Et as <- <-. eexists. eexists. split; [reflexivity|].
           reflexivity.
        -- left. injection Et as <- <-.
           apply (In_mutateAt_intro _ Queue.address
                    (Queue.address (Queue.enqueue promise data queue))
                    (fun x => snd (Queue.dequeue x))) in Hin.
           rewrite Nat.eqb_refl in Hin.
           eexists. exists before. split; [exact Hin|].
           unfold Queue.dequeue. simpl. rewrite Eq0. simpl. auto.
      * left. apply (In_mutateAt_intro _ Queue.address (Queue.address c)
                       (fun x => snd (Queue.dequeue x))) in Hin1.
        simpl in Hin1. destruct (Nat.eqb_spec (Queue.address queue) (Queue.address c));
          [congruence|].
        eexists. exists (Queue._queue queue). split; [exact Hin1|]. auto.
Qed.

(** *** The frame of a write *)

Lemma frameOpcode_range (source : Source) (candidate : Queue.t) :
  0 <= frameOpcode source candidate <= 255.
Proof.
  unfold frameOpcode, Opcode.CreateChannel, Opcode.Data.
  destruct source, (Queue._local candidate), (Queue.lastSendTime candidate =? 0);
    simpl; lia.
Qed.

Lemma toBuffer_out_of_range (m : Message.t) :
  0 <= Message._opcode m <= 255 ->
  ~ 0 <= Message._id m <= 4294967295 ->
  Message.toBuffer m = None.
Proof.
  intros Hop Hid. destruct m as [op lo i data]. simpl in *.
  unfold Message.toBuffer, Buffer.writeUInt8, Buffer.writeUInt32BE, Buffer.alloc.
  simpl.
  replace ((0 <=? op) && (op <=? 255)) with true
    by (symmetry; apply andb_true_iff; split; lia).
  simpl.
  replace ((0 <=? (if lo then 0 else 1)) && ((if lo then 0 else 1) <=? 255))
    with true by (destruct lo; reflexivity).
  simpl.
  replace ((0 <=? i) && (i <=? 4294967295)) with false; [reflexivity|].
  symmetry. apply andb_false_iff. lia.
Qed.

(** The data loop resumes with the wait fulfilled, the socket open and an
    id that fits: the frame is sent, the queue is stamped, the write is
    resolved, and the loop goes round. *)
Lemma wakeQueues_sends (source : Source) (now : Z) (d : t) (wait : Wait)
    (candidate : Queue.t) (task : Task.t) :
  queuesAwait d = Some (wait, candidate, task) ->
  awaited wait (_socket d) = Some Fulfilled ->
  WebSocket.isOpen (_socket d) = true ->
  0 <= Queue._id candidate <= 4294967295 ->
  exists buffer,
    Message.toBuffer (frame source candidate task) = Some buffer /\
    wakeQueues source now d =
      processQueues_loop
        (resolve task
           (with_queues
              (Queue.mutate (Queue.address candidate) (Queue.with_lastSendTime now)
                 (_queues d))
              (with_socket
                 (WebSocket.mk
                    (WebSocket.bufferedAmount (_socket d) + Z.of_nat (length buffer))
                    (WebSocket.readyState (_socket d))
                    (WebSocket.sent (_socket d) ++ [buffer]))
                 (with_queuesAwait None d)))).
Proof.
  intros Ea Ew Eo Hid.
  pose proof (toBuffer_bytes (frame source candidate task)
                (frameOpcode_range source candidate) Hid) as Eb.
  eexists. split; [exact Eb|].
  unfold wakeQueues. rewrite Ea, Ew. unfold sendTask. rewrite Eb.
  unfold bind, WebSocket.send. simpl _socket. rewrite Eo. reflexivity.
Qed.

(** C2, as the code has it. The data loop resumes with a write it took
    from [candidate], the wait fulfilled, the socket open. It sends one
    frame that carries the queue's flag and id and the write's data. The
    opcode is CreateChannel or Data. For the queue of a channel created on
    this side it is CreateChannel exactly when the queue's [lastSendTime]
    is 0, in both files; in [multiplex-websocket-dispatcher.ts] it is
    CreateChannel exactly when the queue is a local one and its
    [lastSendTime] is 0; in [index.ts] it is CreateChannel exactly when
    the queue's [lastSendTime] is 0, whichever side created the channel.
    After the send the queue, if it is still in the table, has
    [lastSendTime] equal to the current time, and the promise of the write
    is resolved. *)
Theorem wakeQueues_frame (source : Source) (now : Z) (d : t) (wait : Wait)
    (candidate : Queue.t) (task : Task.t) :
  queuesAwait d = Some (wait, candidate, task) ->
  awaited wait (_socket d) = Some Fulfilled ->
  WebSocket.isOpen (_socket d) = true ->
  0 <= Queue._id candidate < 2 ^ 32 ->
  status (Task.resolver task) (settled d) = None ->
  let d' := wakeQueues source now d in
  let opcode := frameOpcode source candidate in
  (exists buffer,
      WebSocket.sent (_socket d') = WebSocket.sent (_socket d) ++ [buffer] /\
      Message.parse buffer =
        Some (Message.mk opcode (Queue._local candidate) (Queue._id candidate)
                (Some (Task.data task)))) /\
  (opcode = Opcode.CreateChannel \/ opcode = Opcode.Data) /\
  (Queue._local candidate = true ->
   (opcode = Opcode.CreateChannel <-> Queue.lastSendTime candidate = 0)) /\
  (source = multiplex_websocket_dispatcher_ts ->
   (opcode = Opcode.CreateChannel <->
    Queue._local candidate = true /\ Queue.lastSendTime candidate = 0)) /\
  (source = index_ts ->
   (opcode = Opcode.CreateChannel <-> Queue.lastSendTime candidate = 0)) /\
  (forall x, In x (_queues d') ->
             Queue.address x = Queue.address candidate ->
             Queue.lastSendTime x = now) /\
  (forall y, In y (_queues d) ->
             Queue.address y = Queue.address candidate ->
             exists x, In x (_queues d') /\ Queue.address x = Queue.address candidate) /\
  status (Task.resolver task) (settled d') = Some Fulfilled.
Proof.
  intros Ea Ew Eo Hid Hs d' opcode. change (2 ^ 32) with 4294967296 in Hid.
  assert (Hid' : 0 <= Queue._id candidate <= 4294967295) by lia.
  destruct (wakeQueues_sends source now d wait candidate task Ea Ew Eo Hid')
    as (buffer & Eb & Ed).
  unfold d'. rewrite Ed. clear Ed d'.
  set (d2 := resolve task _).
  destruct (fields_processQueues_loop d2) as (_ & Hset & Hsock & _).
  pose proof (table_processQueues_loop _
                (fun x => (Queue.address x, Queue.lastSendTime x)) d2
                (fun _ _ => eq_refl)) as Htab.
  split; [|split; [|split; [|split; [|split; [|split; [|split]]]]]].
  - exists buffer. rewrite Hsock. split; [reflexivity|].
    apply (parse_toBuffer (frame source candidate task)).
    + apply frameOpcode_range.
    + exact Hid'.
    + exact Eb.
  - unfold opcode, frameOpcode.
    destruct source, (Queue._local candidate), (Queue.lastSendTime candidate =? 0);
      simpl; auto.
  - intros El. unfold opcode, frameOpcode, Opcode.CreateChannel, Opcode.Data.
    rewrite El. simpl.
    destruct source, (Z.eqb_spec (Queue.lastSendTime candidate) 0); split; intros;
      auto; try discriminate; contradiction.
  - intros ->. unfold opcode, frameOpcode, Opcode.CreateChannel, Opcode.Data.
    destruct (Queue._local candidate),
      (Z.eqb_spec (Queue.lastSendTime candidate) 0); simpl; split;
      try (intros [? ?]); intros; auto; try discriminate; try contradiction.
  - intros ->. unfold opcode, frameOpcode, Opcode.CreateChannel, Opcode.Data.
    destruct (Z.eqb_spec (Queue.lastSendTime candidate) 0); split; intros;
      auto; try discriminate; contradiction.
  - intros x Hx Hax.
    apply (in_map (fun x => (Queue.address x, Queue.lastSendTime x))) in Hx.
    rewrite Htab in Hx. apply in_map_iff in Hx. destruct Hx as (y & E & Hy).
    injection E as E1 E2. simpl in Hy. apply In_mutateAt in Hy.
    destruct Hy as (z & Hz & [[-> N]|[-> _]]).
    + exfalso. apply N. congruence.
    + simpl in E2. auto.
  - intros y Hy Hay.
    apply (In_mutateAt_intro _ Queue.address (Queue.address candidate)
             (Queue.with_lastSendTime now)) in Hy.
    apply (in_map Queue.address) in Hy.
    change (mutateAt Queue.address (Queue.address candidate)
              (Queue.with_lastSendTime now) (_queues d)) with (_queues d2) in Hy.
    rewrite <- (table_processQueues_loop _ Queue.address d2 (fun _ _ => eq_refl)) in Hy.
    apply in_map_iff in Hy. destruct Hy as (x & E & Hx). exists x. split; [exact Hx|].
    rewrite E. destruct (Nat.eqb (Queue.address y) (Queue.address candidate));
      simpl; auto.
  - rewrite Hset. unfold d2, resolve. simpl. apply status_settle_same. exact Hs.
Qed.

(** C5, as the code has it. The control loop has become active while the
    data loop was suspended at the backpressure wait with a write already
    taken from its queue. When the wait is fulfilled the data loop still
    sends the frame of that write; the control queue and the control loop
    are as they were, so no control frame went first. Only then does the
    data loop yield: it stops, with its flag cleared, and takes no further
    write from any queue. *)
Theorem data_loop_yields_after_pending_frame (source : Source) (now : Z) (d : t)
    (wait : Wait) (candidate : Queue.t) (task : Task.t) :
  queuesAwait d = Some (wait, candidate, task) ->
  _processingControlQueue d = true ->
  awaited wait (_socket d) = Some Fulfilled ->
  WebSocket.isOpen (_socket d) = true ->
  0 <= Queue._id candidate < 2 ^ 32 ->
  let d' := wakeQueues source now d in
  exists buffer,
    Message.toBuffer (frame source candidate task) = Some buffer /\
    WebSocket.sent (_socket d') = WebSocket.sent (_socket d) ++ [buffer] /\
    _controlQueue d' = _controlQueue d /\
    controlAwait d' = controlAwait d /\
    _processingControlQueue d' = true /\
    queuesAwait d' = None /\
    _processingQueues d' = false /\
    map Queue._queue (_queues d') = map Queue._queue (_queues d).
Proof.
  intros Ea Ec Ew Eo Hid d'. change (2 ^ 32) with 4294967296 in Hid.
  assert (Hid' : 0 <= Queue._id candidate <= 4294967295) by lia.
  destruct (wakeQueues_sends source now d wait candidate task Ea Ew Eo Hid')
    as (buffer & Eb & Ed).
  exists buffer. split; [exact Eb|].
  unfold d'. rewrite Ed. unfold processQueues_loop. simpl. rewrite Ec. simpl.
  repeat split; auto.
  unfold Queue.mutate. apply map_mutateAt. reflexivity.
Qed.

(** A pass of the data loop that finds the control loop idle and a queue
    pending suspends with a write. *)
Lemma processQueues_loop_takes (d : t) :
  _processingControlQueue d = false ->
  filter Queue.pending (_queues d) <> [] ->
  exists wait candidate task,
    queuesAwait (processQueues_loop d) = Some (wait, candidate, task).
Proof.
  intros Ec Hne. unfold processQueues_loop. rewrite Ec.
  destruct (filter Queue.pending (_queues d)) as [|p ps] eqn:Ef; [congruence|].
  destruct (Queue.sort (p :: ps)) as [|candidate sorted] eqn:Es.
  { simpl in Es. exfalso. exact (insert_not_nil _ _ Es). }
  destruct (sort_head _ _ _ Es) as (k1 & k2 & Ek & _).
  assert (Hin : In candidate (filter Queue.pending (_queues d))).
  { rewrite Ef, Ek. apply in_or_app. right. left. reflexivity. }
  apply filter_In in Hin. destruct Hin as [_ Hp].
  apply pending_iff in Hp. destruct Hp as [_ Hq].
  unfold Queue.dequeue. destruct (Queue._queue candidate) as [|task rest];
    [congruence|].
  do 3 eexists. reflexivity.
Qed.

(** The other half of the yield: when the control loop has sent its last
    message it clears its flag and starts the data loop, which takes the
    next write if a queue is pending. *)
Lemma control_loop_restarts_data_loop (d : t) (wait : Wait) (message : Message.t)
    (buffer : list byte) :
  controlAwait d = Some wait ->
  awaited wait (_socket d) = Some Fulfilled ->
  _controlQueue d = [message] ->
  Message.toBuffer message = Some buffer ->
  WebSocket.isOpen (_socket d) = true ->
  _processingQueues d = false ->
  WebSocket.sent (_socket (wakeControl d)) = WebSocket.sent (_socket d) ++ [buffer] /\
  _controlQueue (wakeControl d) = [] /\
  _processingControlQueue (wakeControl d) = false /\
  (filter Queue.pending (_queues d) <> [] ->
   exists wait' candidate task,
     queuesAwait (wakeControl d) = Some (wait', candidate, task)).
Proof.
  intros Ea Ew Eq Eb Eo Ef. unfold wakeControl. rewrite Ea, Ew, Eq, Eb.
  unfold bind, WebSocket.send. rewrite Eo.
  unfold processControlQueue_loop, processQueues. simpl. rewrite Ef.
  set (d1 := with_processingQueues true _).
  destruct (fields_processQueues_loop d1) as (_ & _ & Hs & Hc & Hp & _).
  rewrite Hs, Hc, Hp. repeat split; auto.
  intros Hne. apply processQueues_loop_takes; auto.
Qed.

(** *** The two files *)

Lemma processQueues_loop_with_socket (socket : WebSocket.t) (d : t) :
  WebSocket.bufferedAmount socket = WebSocket.bufferedAmount (_socket d) ->
  processQueues_loop (with_socket socket d) = with_socket socket (processQueues_loop d).
Proof.
  intros E. unfold processQueues_loop, waitWebSocketBufferAmountLow. simpl.
  rewrite E. destruct (_processingControlQueue d); [reflexivity|].
  destruct (filter Queue.pending (_queues d)); [reflexivity|].
  destruct (Queue.sort _) as [|c sorted]; [reflexivity|].
  destruct (Queue.dequeue c) as [[task|] c']; reflexivity.
Qed.

Lemma maskOpcodes_processQueues_loop (d : t) :
  maskOpcodes (processQueues_loop d) = processQueues_loop (maskOpcodes d).
Proof.
  unfold maskOpcodes.
  destruct (fields_processQueues_loop d) as (_ & _ & -> & _).
  rewrite processQueues_loop_with_socket by reflexivity. reflexivity.
Qed.

(** The frames the two files build for a write have the same bytes after
    the first. *)
Lemma frames_agree (candidate : Queue.t) (task : Task.t) :
  (Message.toBuffer (frame index_ts candidate task) = None /\
   Message.toBuffer (frame multiplex_websocket_dispatcher_ts candidate task) = None) \/
  (exists opcode opcode' rest,
      Message.toBuffer (frame index_ts candidate task) = Some (opcode :: rest) /\
      Message.toBuffer (frame multiplex_websocket_dispatcher_ts candidate task)
        = Some (opcode' :: rest)).
Proof.
  destruct (Z_le_dec 0 (Queue._id candidate)) as [H0|H0];
    [destruct (Z_le_dec (Queue._id candidate) 4294967295) as [H1|H1]|].
  - right. do 3 eexists. split.
    + rewrite toBuffer_bytes; [reflexivity | apply frameOpcode_range | simpl; lia].
    + rewrite toBuffer_bytes; [reflexivity | apply frameOpcode_range | simpl; lia].
  - left. split; apply toBuffer_out_of_range;
      try apply frameOpcode_range; simpl; lia.
  - left. split; apply toBuffer_out_of_range;
      try apply frameOpcode_range; simpl; lia.
Qed.

(** How far the two files agree. The data loop of [index.ts] and the one
    of [multiplex-websocket-dispatcher.ts], resumed in the same state,
    leave the same dispatcher (same queue served, same writes left, same
    promises settled, same next candidate) and send frames with the same
    bytes after the opcode byte, hence the same origin flag, id and
    payload. The opcodes are the same whenever the queue is a local one or
    has sent before, and then the two states are equal. For the first
    frame of a queue made for a channel of the peer the opcodes differ. *)
Theorem sources_agree_up_to_first_remote_opcode (now : Z) (d : t) :
  maskOpcodes (wakeQueues index_ts now d)
    = maskOpcodes (wakeQueues multiplex_websocket_dispatcher_ts now d) /\
  (forall wait candidate task,
      queuesAwait d = Some (wait, candidate, task) ->
      (Queue._local candidate = true \/ Queue.lastSendTime candidate <> 0 ->
       frameOpcode index_ts candidate
         = frameOpcode multiplex_websocket_dispatcher_ts candidate /\
       wakeQueues index_ts now d = wakeQueues multiplex_websocket_dispatcher_ts now d) /\
      (Queue._local candidate = false /\ Queue.lastSendTime candidate = 0 ->
       frameOpcode index_ts candidate = Opcode.CreateChannel /\
       frameOpcode multiplex_websocket_dispatcher_ts candidate = Opcode.Data)).
Proof.
  split.
  - unfold wakeQueues.
    destruct (queuesAwait d) as [[[wait candidate] task]|]; [|reflexivity].
    destruct (awaited wait (_socket d)) as [[|]|]; try reflexivity.
    rewrite !maskOpcodes_processQueues_loop. f_equal.
    unfold sendTask.
    destruct (frames_agree candidate task)
      as [[-> ->]|(op & op' & rest & -> & ->)]; [reflexivity|].
    unfold bind, WebSocket.send. simpl _socket.
    destruct (WebSocket.isOpen (_socket d)); [|reflexivity].
    unfold maskOpcodes, resolve. simpl. rewrite !map_app. reflexivity.
  - intros wait candidate task Ea. split.
    + intros H.
      assert (E : frameOpcode index_ts candidate
                  = frameOpcode multiplex_websocket_dispatcher_ts candidate).
      { unfold frameOpcode. destruct H as [->|H]; [reflexivity|].
        destruct (Z.eqb_spec (Queue.lastSendTime candidate) 0); [contradiction|].
        rewrite andb_false_r. reflexivity. }
      split; [exact E|].
      unfold wakeQueues. rewrite Ea. unfold sendTask, frame. rewrite E. reflexivity.
    + intros [El Et]. unfold frameOpcode. rewrite El, Et. split; reflexivity.
Qed.
End Invariants.

(** ** Flow control: [remoteFull] *)

Section FlowControl.
Import MultiplexWebSocketDispatcher Invariant.

Lemma find_app (A : Type) (p : A -> bool) (l l' : list A) :
  find p (l ++ l') = match find p l with
                     | Some x => Some x
                     | None => find p l'
                     end.
Proof.
  induction l as [|x l IH]; simpl; [reflexivity|].
  destruct (p x); [reflexivity | exact IH].
Qed.

Lemma lookup_In (address : nat) (d : t) (x : Queue.t) :
  lookup address d = Some x -> In x (_queues d) /\ Queue.address x = address.
Proof.
  unfold lookup. intros H. apply find_some in H. destruct H as [Hin E].
  apply Nat.eqb_eq in E. auto.
Qed.

Lemma In_lookup (d : t) (x : Queue.t) :
  NoDup (map Queue.address (_queues d)) -> In x (_queues d) ->
  lookup (Queue.address x) d = Some x.
Proof.
  intros Hnd Hin. unfold lookup.
  destruct (find _ (_queues d)) as [y|] eqn:E.
  - apply find_some in E. destruct E as [Hy Ey]. apply Nat.eqb_eq in Ey.
    f_equal. apply (same_address _ Queue.address (_queues d)); auto.
  - exfalso. apply (find_none _ _ E) in Hin. rewrite Nat.eqb_refl in Hin. discriminate.
Qed.

Lemma find_mutate_other (address address' : nat) (f : Queue.t -> Queue.t)
    (queues : list Queue.t) :
  (forall x, Queue.address (f x) = Queue.address x) ->
  address <> address' ->
  find (fun x => Nat.eqb (Queue.address x) address) (Queue.mutate address' f queues)
  = find (fun x => Nat.eqb (Queue.address x) address) queues.
Proof.
  intros Hf N. unfold Queue.mutate, mutateAt.
  induction queues as [|x rest IH]; simpl; [reflexivity|].
  destruct (Nat.eqb_spec (Queue.address x) address') as [E|_].
  - rewrite Hf. destruct (Nat.eqb_spec (Queue.address x) address); [congruence|exact IH].
  - destruct (Nat.eqb (Queue.address x) address); [reflexivity | exact IH].
Qed.

Lemma find_mutate_same (address : nat) (f : Queue.t -> Queue.t) (queues : list Queue.t) :
  (forall x, Queue.address (f x) = Queue.address x) ->
  find (fun x => Nat.eqb (Queue.address x) address) (Queue.mutate address f queues)
  = option_map f (find (fun x => Nat.eqb (Queue.address x) address) queues).
Proof.
  intros Hf. unfold Queue.mutate, mutateAt.
  induction queues as [|x rest IH]; simpl; [reflexivity|].
  destruct (Nat.eqb_spec (Queue.address x) address) as [E|N].
  - rewrite Hf. destruct (Nat.eqb_spec (Queue.address x) address); [reflexivity|congruence].
  - destruct (Nat.eqb_spec (Queue.address x) address); [congruence | exact IH].
Qed.

(** A pass of the data loop leaves a full queue as it is. *)
Lemma lookup_processQueues_loop (address : nat) (d : t) (x : Queue.t) :
  NoDup (map Queue.address (_queues d)) ->
  lookup address d = Some x -> Queue.remoteFull x = true ->
  lookup address (processQueues_loop d) = Some x /\
  (queuesAwait (processQueues_loop d) = queuesAwait d \/
   exists wait candidate task,
     queuesAwait (processQueues_loop d) = Some (wait, candidate, task) /\
     Queue.address candidate <> address).
Proof.
  intros Hnd Hx Hfull.
  destruct (processQueues_loop_cases d)
    as [->|[->|(c & task & rest & Hin & Hp & Et & ->)]]; auto.
  destruct (lookup_In _ _ _ Hx) as [Hxin Hxa].
  assert (N : address <> Queue.address c).
  { intros E. assert (x = c).
    { apply (same_address _ Queue.address (_queues d)); auto. congruence. }
    subst c. apply pending_iff in Hp. destruct Hp as [Hp _]. congruence. }
  split.
  - unfold lookup in *. simpl. rewrite find_mutate_other; auto.
    intros y. unfold Queue.dequeue. destruct (Queue._queue y); reflexivity.
  - right. do 3 eexists. split; [reflexivity|]. simpl. auto.
Qed.

Lemma lookup_processQueues (address : nat) (d : t) (x : Queue.t) :
  NoDup (map Queue.address (_queues d)) ->
  lookup address d = Some x -> Queue.remoteFull x = true ->
  lookup address (processQueues d) = Some x.
Proof.
  intros Hnd Hx Hfull. unfold processQueues.
  destruct (_processingQueues d); [exact Hx|].
  apply lookup_processQueues_loop; auto.
Qed.

Lemma lookup_processControlQueue_loop (address : nat) (d : t) (x : Queue.t) :
  NoDup (map Queue.address (_queues d)) ->
  lookup address d = Some x -> Queue.remoteFull x = true ->
  lookup address (processControlQueue_loop d) = Some x.
Proof.
  intros Hnd Hx Hfull. unfold processControlQueue_loop.
  destruct (_controlQueue d); [|exact Hx].
  apply lookup_processQueues; auto.
Qed.

(** One event: if the queue is still in the table afterwards, it has the
    writes it had, in their order, and maybe new ones behind them. *)
Lemma full_queue_step (source : Source) (address : nat) (d : t) (event : Event)
    (x x' : Queue.t) :
  wf d ->
  lookup address d = Some x -> Queue.remoteFull x = true ->
  lookup address (step source d event) = Some x' ->
  exists more, Queue._queue x' = Queue._queue x ++ more.
Proof.
  intros Hwf Hx Hfull Hx'. pose proof (wf_addresses d Hwf) as Hnd.
  assert (Hsame : forall d1, lookup address d1 = Some x ->
                             lookup address d1 = Some x' ->
                             exists more, Queue._queue x' = Queue._queue x ++ more).
  { intros d1 H1 H2. rewrite H1 in H2. injection H2 as <-. exists []. 
    rewrite app_nil_r. reflexivity. }
  destruct event; simpl in Hx'.
  - (* sendControlMessage *)
    apply (Hsame (sendControlMessage local id opcode d)); [|exact Hx'].
    unfold sendControlMessage, processControlQueue. simpl.
    destruct (_processingControlQueue d); [exact Hx|].
    apply lookup_processControlQueue_loop; auto.
  - (* send *)
    unfold send in Hx'.
    destruct (find (Queue.matches local id) (_queues d)) as [queue|] eqn:Ef;
      [|apply (Hsame d); assumption].
    simpl in Hx'. set (d1 := with_resolvers _ _) in Hx'.
    assert (Hnd1 : NoDup (map Queue.address (_queues d1))).
    { simpl. unfold Queue.mutate. rewrite mutateAt_addresses by reflexivity. exact Hnd. }
    destruct (Nat.eq_dec address (Queue.address queue)) as [E|N].
    + assert (H1 : lookup address d1 = Some (Queue.enqueue (resolvers d) data x)).
      { unfold lookup in *. simpl. rewrite E, find_mutate_same by reflexivity.
        rewrite <- E, Hx. reflexivity. }
      apply lookup_processQueues in H1; auto. rewrite H1 in Hx'.
      injection Hx' as <-. simpl. eexists. reflexivity.
    + assert (H1 : lookup address d1 = Some x).
      { unfold lookup in *. simpl. rewrite find_mutate_other by auto. exact Hx. }
      apply lookup_processQueues in H1; auto. apply (Hsame _ H1 Hx').
  - (* addChannel *)
    apply (Hsame (addChannel local id d)); [|exact Hx'].
    unfold lookup, addChannel in *. simpl. rewrite find_app, Hx. reflexivity.
  - (* onClose *)
    unfold onClose in Hx'.
    destruct (Queue.indexOf address0 (_queues d)) as [index|] eqn:Ei;
      [|apply (Hsame d); assumption].
    destruct (indexOfAt_Some Queue.address _ _ _ Ei)
      as (pre & c & post & Eq & Ec & Hpre & Es).
    unfold lookup in Hx, Hx'. simpl in Hx'. rewrite Es in Hx'. rewrite Eq in Hx, Hnd.
    rewrite find_app in Hx, Hx'.
    destruct (find _ pre) as [y|] eqn:Ep.
    + injection Hx as <-. injection Hx' as <-. exists []. rewrite app_nil_r. reflexivity.
    + simpl in Hx. destruct (Nat.eqb_spec (Queue.address c) address) as [E|N].
      * exfalso. apply find_some in Hx'. destruct Hx' as [Hin Hx'].
        apply Nat.eqb_eq in Hx'.
        apply (NoDup_address_split Queue.address pre post c Hnd x'); [auto | congruence].
      * rewrite Hx in Hx'. injection Hx' as <-. exists []. rewrite app_nil_r. reflexivity.
  - (* handleControlMessage *)
    unfold handleControlMessage in Hx'.
    destruct (find (Queue.matches local id) (_queues d)) as [queue|];
      [|apply (Hsame d); assumption].
    unfold lookup in *. simpl in Hx'.
    destruct (Nat.eq_dec address (Queue.address queue)) as [E|N].
    + rewrite E, find_mutate_same in Hx' by reflexivity. rewrite <- E, Hx in Hx'.
      injection Hx' as <-. exists []. rewrite app_nil_r. reflexivity.
    + rewrite find_mutate_other in Hx' by auto.
      rewrite Hx in Hx'. injection Hx' as <-. exists []. rewrite app_nil_r. reflexivity.
  - (* the socket changes *)
    apply (Hsame d); assumption.
  - (* wakeControl *)
    apply (Hsame (wakeControl d)); [|exact Hx'].
    unfold wakeControl. destruct (controlAwait d); [|exact Hx].
    destruct (awaited _ _) as [[|]|]; try exact Hx.
    destruct (_controlQueue d) as [|message rest]; [exact Hx|].
    destruct (bind _ _); [|exact Hx].
    apply lookup_processControlQueue_loop; auto.
  - (* wakeQueues *)
    unfold wakeQueues in Hx'.
    destruct (queuesAwait d) as [[[wait candidate] task]|];
      [|apply (Hsame d); assumption].
    destruct (awaited wait (_socket d)) as [[|]|]; [| |apply (Hsame d); assumption].
    + unfold sendTask in Hx'. destruct (bind _ _) as [socket|].
      * set (d1 := resolve task _) in Hx'.
        assert (Hnd1 : NoDup (map Queue.address (_queues d1))).
        { simpl. unfold Queue.mutate. rewrite mutateAt_addresses by reflexivity.
          exact Hnd. }
        destruct (Nat.eq_dec address (Queue.address candidate)) as [E|N].
        -- assert (H1 : lookup address d1 = Some (Queue.with_lastSendTime now x)).
           { unfold lookup in *. simpl. rewrite E, find_mutate_same by reflexivity.
             rewrite <- E, Hx. reflexivity. }
           apply lookup_processQueues_loop in H1; auto. destruct H1 as [H1 _].
           rewrite H1 in Hx'. injection Hx' as <-. exists [].
           rewrite app_nil_r. reflexivity.
        -- assert (H1 : lookup address d1 = Some x).
           { unfold lookup in *. simpl. rewrite find_mutate_other by auto. exact Hx. }
           apply lookup_processQueues_loop in H1; auto. destruct H1 as [H1 _].
           apply (Hsame _ H1 Hx').
      * apply (Hsame (processQueues_loop (reject task (with_queuesAwait None d))));
          [|exact Hx'].
        apply lookup_processQueues_loop; auto.
    + apply (Hsame (processQueues_loop (reject task (with_queuesAwait None d))));
        [|exact Hx'].
      apply lookup_processQueues_loop; auto.
Qed.

(** While a queue stays full no write leaves it: at the end of the events
    it holds the writes it held at the start, in their order, and the ones
    queued since. *)
Lemma full_queue_keeps_writes (source : Source) (address : nat) (events : list Event)
    (d : t) (x : Queue.t) :
  wf d ->
  lookup address d = Some x ->
  staysFull source address d events ->
  exists x' more,
    lookup address (run source d events) = Some x' /\
    Queue._queue x' = Queue._queue x ++ more.
Proof.
  revert d x. induction events as [|event events IH]; intros d x Hwf Hx Hs; simpl.
  - exists x, []. rewrite app_nil_r. auto.
  - destruct Hs as [(x0 & Hx0 & Hfull) Hs]. rewrite Hx in Hx0. injection Hx0 as <-.
    pose proof Hs as Hs'. destruct events as [|e es]; simpl in Hs';
      destruct Hs' as [(x1 & Hx1 & Hfull1) _];
      destruct (full_queue_step source address d event x x1 Hwf Hx Hfull Hx1)
        as (more1 & E1);
      destruct (IH (step source d event) x1 (wf_step source d event Hwf) Hx1 Hs)
        as (x' & more & Hx' & E);
      exists x', (more1 ++ more); (split; [exact Hx'|]);
      rewrite E, E1, app_assoc; reflexivity.
Qed.
End FlowControl.

(** ** The connection: inbound frames *)

Section Inbound.
Import MultiplexWebSocket Invariant.

Lemma sendControlMessage_fields (local : bool) (id opcode : Z) (d : Dispatcher.t) :
  Dispatcher._queues (Dispatcher.sendControlMessage local id opcode d)
    = Dispatcher._queues d /\
  Dispatcher._controlQueue (Dispatcher.sendControlMessage local id opcode d)
    = Dispatcher._controlQueue d ++ [Message.mk opcode local id None] /\
  Dispatcher._socket (Dispatcher.sendControlMessage local id opcode d)
    = Dispatcher._socket d /\
  Dispatcher._processingControlQueue (Dispatcher.sendControlMessage local id opcode d)
    = true.
Proof.
  unfold Dispatcher.sendControlMessage, Dispatcher.processControlQueue. simpl.
  destruct (Dispatcher._processingControlQueue d) eqn:E; simpl; [auto|].
  unfold Dispatcher.processControlQueue_loop. simpl.
  destruct (Dispatcher._controlQueue d); simpl; auto.
Qed.

Lemma indexOfAt_split (A : Type) (addressOf : A -> nat) (pre post : list A) (c : A) :
  (forall x, In x pre -> addressOf x <> addressOf c) ->
  indexOfAt addressOf (addressOf c) (pre ++ c :: post) = Some (length pre).
Proof.
  induction pre as [|x pre IH]; intros H; simpl.
  - rewrite Nat.eqb_refl. reflexivity.
  - destruct (Nat.eqb_spec (addressOf x) (addressOf c)) as [E|_].
    + exfalso. apply (H x); [left; reflexivity | exact E].
    + rewrite IH; [reflexivity|]. intros y Hy. apply H. right. exact Hy.
Qed.

Lemma splice_split (A : Type) (pre post : list A) (c : A) :
  splice (length pre) (pre ++ c :: post) = pre ++ post.
Proof.
  unfold splice. induction pre as [|x pre IH]; simpl; [reflexivity|].
  f_equal. exact IH.
Qed.

(** After the ['close'] listener of the dispatcher no queue of the table
    has the address. *)
Lemma onClose_removes (address : nat) (d : Dispatcher.t) :
  NoDup (map Dispatcher.Queue.address (Dispatcher._queues d)) ->
  forall q, In q (Dispatcher._queues (Dispatcher.onClose address d)) ->
            Dispatcher.Queue.address q <> address.
Proof.
  intros Hnd q Hq. unfold Dispatcher.onClose in Hq.
  destruct (Dispatcher.Queue.indexOf address (Dispatcher._queues d)) as [index|] eqn:Ei.
  - destruct (indexOfAt_Some Dispatcher.Queue.address _ _ _ Ei)
      as (pre & c & post & Eq & Ec & Hpre & Es).
    simpl in Hq. rewrite Es in Hq. rewrite Eq in Hnd. rewrite <- Ec.
    apply (NoDup_address_split Dispatcher.Queue.address pre post c Hnd).
    apply in_app_or in Hq. exact Hq.
  - exact (indexOfAt_None Dispatcher.Queue.address _ _ Ei q Hq).
Qed.


(** C3, as the code has it. An inbound ChannelBufferFull (or
    ChannelBufferEmpty) frame with origin flag [o] and id [n] sets
    [remoteFull] to true (to false) on the first queue of the table whose
    flag is the complement of [o] and whose id is [n], and changes no
    other queue; with no such queue the dispatcher is unchanged. From
    then on, for as long as the queue stays in the table with [remoteFull]
    set and whatever happens to the dispatcher, no data-scheduling pass
    takes a write from it: at the end it holds every write it held, in
    order, and those queued since. (A write that the data loop had taken
    before the frame arrived is not in the queue any more; it is sent.) *)
Theorem remoteFull_gates_scheduling (source : Dispatcher.Source) (data : list byte)
    (pushResult : bool) (c : t) (message : Message.t)
    (events : list Dispatcher.Event) :
  wf (_dispatcher c) ->
  Message.parse data = Some message ->
  Message._opcode message = Opcode.ChannelBufferFull \/
  Message._opcode message = Opcode.ChannelBufferEmpty ->
  let matching :=
    Dispatcher.Queue.matches (negb (Message._local message)) (Message._id message) in
  let full := Message._opcode message =? Opcode.ChannelBufferFull in
  exists c',
    onMessage data pushResult c = Some c' /\
    match find matching (Dispatcher._queues (_dispatcher c)) with
    | None => _dispatcher c' = _dispatcher c
    | Some queue =>
        exists pre post,
          Dispatcher._queues (_dispatcher c) = pre ++ queue :: post /\
          (forall x, In x pre -> matching x = false) /\
          Dispatcher._queues (_dispatcher c')
            = pre ++ Dispatcher.Queue.with_remoteFull full queue :: post /\
          (staysFull source (Dispatcher.Queue.address queue) (_dispatcher c') events ->
           exists x' more,
             lookup (Dispatcher.Queue.address queue)
               (Dispatcher.run source (_dispatcher c') events) = Some x' /\
             Dispatcher.Queue._queue x' = Dispatcher.Queue._queue queue ++ more)
    end.
Proof.
  intros Hwf Ep Eo matching full.
  exists (with_dispatcher
            (Dispatcher.handleControlMessage (negb (Message._local message))
               (Message._id message) (Message._opcode message) (_dispatcher c))
            c).
  split.
  { unfold onMessage. rewrite Ep. simpl.
    destruct Eo as [E|E]; rewrite E; reflexivity. }
  simpl. unfold Dispatcher.handleControlMessage. fold matching.
  destruct (find matching (Dispatcher._queues (_dispatcher c))) as [queue|] eqn:Ef;
    [|reflexivity].
  destruct (find_split _ _ _ Ef) as (pre & post & Eq & _ & Hpre).
  exists pre, post. pose proof (wf_addresses _ Hwf) as Hnd.
  assert (Et : Dispatcher.Queue.mutate (Dispatcher.Queue.address queue)
                 (Dispatcher.Queue.with_remoteFull full)
                 (Dispatcher._queues (_dispatcher c))
               = pre ++ Dispatcher.Queue.with_remoteFull full queue :: post).
  { rewrite Eq in Hnd |- *. unfold Dispatcher.Queue.mutate.
    apply (mutateAt_split Dispatcher.Queue.address). exact Hnd. }
  repeat split; auto.
  intros Hs.
  assert (Hwf' : wf (Dispatcher.handleControlMessage (negb (Message._local message))
                       (Message._id message) (Message._opcode message)
                       (_dispatcher c))).
  { apply wf_handleControlMessage. exact Hwf. }
  unfold Dispatcher.handleControlMessage in Hwf'. fold matching in Hwf'.
  rewrite Ef in Hwf'. fold full in Hwf'.
  apply (full_queue_keeps_writes source _ events _
           (Dispatcher.Queue.with_remoteFull full queue) Hwf'); [|exact Hs].
  change (Dispatcher.Queue.address queue)
    with (Dispatcher.Queue.address (Dispatcher.Queue.with_remoteFull full queue)).
  apply In_lookup; simpl; rewrite Et.
  - rewrite Eq in Hnd. rewrite map_app in *. exact Hnd.
  - apply in_or_app. right. left. reflexivity.
Qed.
End Inbound.

(** ** Instances on the sample states *)

Section Instances.
Import MultiplexWebSocketDispatcher Invariant.

Lemma wf_sample_dispatcher (local : bool) : wf (Sample.dispatcher local).
Proof. apply wf_addChannel, wf_new. Qed.

Lemma wf_sample_connection : wf (MultiplexWebSocket._dispatcher Sample.connection).
Proof. apply (wf_sample_dispatcher true). Qed.

(** C4 on three queues: the second is served, being the first of the two
    least recently served; its write is the one taken. *)
Lemma processQueues_least_recently_served_instance :
  NoDup (map Queue.address (_queues Sample.threeQueues)) /\
  _processingControlQueue Sample.threeQueues = false /\
  exists pre candidate post task rest,
    _queues Sample.threeQueues = pre ++ candidate :: post /\
    Queue.address candidate = 1%nat /\
    Queue._queue candidate = task :: rest /\
    queuesAwait (processQueues_loop Sample.threeQueues)
      = Some (resolvedPromise, Queue.with_queue rest candidate, task).
Proof.
  assert (Hnd : NoDup (map Queue.address (_queues Sample.threeQueues))).
  { simpl. repeat constructor; simpl; intuition discriminate. }
  split; [exact Hnd|]. split; [reflexivity|].
  destruct (processQueues_least_recently_served Sample.threeQueues Hnd eq_refl)
    as (_ & _ & H).
  destruct H as (pre & c & post & task & rest & Eq & Hin & Hpre & Hpost & Et & _ & Ea & _).
  { simpl. discriminate. }
  exists pre, c, post, task, rest. repeat split; auto.
  vm_compute in Ea. injection Ea. intros. symmetry. assumption.
Defined.

(** C7 on two writes: the channel closes with the second write still in
    its queue; the data loop then resumes, a new channel is added and
    written to, the loops resume again; the promise of the abandoned write
    stays pending. *)
Lemma abandoned_writes_never_complete_instance :
  let queue := Queue.mk 0 true 0 [Task.mk 1 [x02]] false 0 in
  let events := [WakeQueues 100; AddChannel true 1; Send true 1 [x03];
                 WakeControl; WakeQueues 200] in
  wf Sample.twoWrites /\
  In queue (_queues Sample.twoWrites) /\
  status 1 (settled (run index_ts (onClose 0 Sample.twoWrites) events)) = None.
Proof.
  assert (Hwf : wf Sample.twoWrites).
  { apply wf_run, wf_sample_dispatcher. }
  split; [exact Hwf|]. split; [left; reflexivity|].
  apply (abandoned_writes_never_complete index_ts Sample.twoWrites
           (Queue.mk 0 true 0 [Task.mk 1 [x02]] false 0) (Task.mk 1 [x02])
           [WakeQueues 100; AddChannel true 1; Send true 1 [x03];
            WakeControl; WakeQueues 200] Hwf).
  - left. reflexivity.
  - left. reflexivity.
Defined.

(** C6 on a dispatcher with the one queue (true, 0): a write for (false, 9)
    is refused. *)
Lemma send_after_end_instance :
  wf (Sample.dispatcher true) /\
  send false 9 [x01] (Sample.dispatcher true)
    = (Sample.dispatcher true, inl "cannot write after end"%string).
Proof.
  split; [apply wf_sample_dispatcher|].
  apply (proj1 (send_after_end false 9 [x01] (Sample.dispatcher true)
                  (wf_sample_dispatcher true))).
  reflexivity.
Defined.

(** C2 on the first write of a local channel, in [index.ts]. *)
Lemma wakeQueues_frame_instance :
  queuesAwait (Sample.writing true)
    = Some (resolvedPromise, Queue.mk 0 true 0 [] false 0, Task.mk 0 [x01]) /\
  WebSocket.isOpen (_socket (Sample.writing true)) = true /\
  status 0 (settled (wakeQueues index_ts 100 (Sample.writing true))) = Some Fulfilled.
Proof.
  split; [reflexivity|]. split; [reflexivity|].
  apply (wakeQueues_frame index_ts 100 (Sample.writing true) resolvedPromise
           (Queue.mk 0 true 0 [] false 0) (Task.mk 0 [x01])); try reflexivity.
  simpl. lia.
Defined.

(** C5 on the two suspended loops: the data frame goes out, the control
    frame is still queued, and the data loop has stopped. *)
Lemma data_loop_yields_after_pending_frame_instance :
  queuesAwait Sample.bothLoops
    = Some (resolvedPromise, Queue.mk 0 true 0 [] false 0, Task.mk 0 [x01]) /\
  _processingControlQueue Sample.bothLoops = true /\
  WebSocket.sent (_socket (wakeQueues index_ts 100 Sample.bothLoops))
    = [[x00; x00; x00; x00; x00; x00; x01]] /\
  _controlQueue (wakeQueues index_ts 100 Sample.bothLoops)
    = _controlQueue Sample.bothLoops /\
  _processingQueues (wakeQueues index_ts 100 Sample.bothLoops) = false.
Proof.
  split; [reflexivity|]. split; [reflexivity|].
  destruct (data_loop_yields_after_pending_frame index_ts 100 Sample.bothLoops
              resolvedPromise (Queue.mk 0 true 0 [] false 0) (Task.mk 0 [x01]))
    as (buffer & Eb & Hs & Hc & _ & _ & _ & Hf & _); try reflexivity.
  { simpl. lia. }
  vm_compute in Eb. injection Eb as <-. auto.
Defined.
End Instances.

Section InboundInstances.
Import MultiplexWebSocket Invariant.


(** C3 on the same connection: after the full frame of the peer a write
    on the channel is queued and stays queued while the data loop and the
    control loop are resumed. *)
Lemma remoteFull_gates_scheduling_instance :
  let events := [Dispatcher.Send true 0 [x01]; Dispatcher.WakeQueues 100;
                 Dispatcher.WakeControl] in
  wf (_dispatcher Sample.connection) /\
  exists c' x',
    onMessage Sample.fullFrame true Sample.connection = Some c' /\
    map Dispatcher.Queue.remoteFull (Dispatcher._queues (_dispatcher c')) = [true] /\
    lookup 0 (Dispatcher.run Dispatcher.index_ts (_dispatcher c') events) = Some x' /\
    Dispatcher.Queue._queue x' = [Dispatcher.Task.mk 0 [x01]] /\
    WebSocket.sent
      (Dispatcher._socket (Dispatcher.run Dispatcher.index_ts (_dispatcher c') events))
    = [].
Proof.
  split; [exact wf_sample_connection|].
  destruct (remoteFull_gates_scheduling Dispatcher.index_ts Sample.fullFrame true
              Sample.connection (Message.mk Opcode.ChannelBufferFull false 0 (Some []))
              [Dispatcher.Send true 0 [x01]; Dispatcher.WakeQueues 100;
               Dispatcher.WakeControl]
              wf_sample_connection eq_refl (or_introl eq_refl))
    as (c' & E & H).
  simpl in H. destruct H as (pre & post & Eq & _ & Et & Hrun).
  assert (Ec : c' = with_dispatcher
                      (Dispatcher.handleControlMessage true 0 Opcode.ChannelBufferFull
                         (_dispatcher Sample.connection))
                      Sample.connection).
  { vm_compute in E. injection E as <-. reflexivity. }
  subst c'. destruct Hrun as (x' & more & Hx & Hm).
  { simpl. repeat split; eexists; (split; [reflexivity | reflexivity]). }
  eexists. exists x'. split; [exact E|]. split; [reflexivity|].
  split; [exact Hx|]. vm_compute in Hx. injection Hx as <-.
  split; reflexivity.
Defined.
End InboundInstances.

(** ** Where the code departs from the specification *)

Module D := MultiplexWebSocketDispatcher.
Module M := MultiplexWebSocketMessage.
Module O := MultiplexWebSocketOpcode.
Module W := MultiplexWebSocket.

Section Departures.


(** C2 fails as the specification words it, in
    [multiplex-websocket-dispatcher.ts]: the queue of a channel created by
    the peer has [lastSendTime] 0, and the frame of its first write has
    opcode Data. *)
Lemma first_frame_of_remote_queue_is_data :
  exists wait candidate task,
    D.queuesAwait (Sample.writing false) = Some (wait, candidate, task) /\
    D.Queue.lastSendTime candidate = 0 /\
    map M.parse
      (WebSocket.sent
         (D._socket
            (D.wakeQueues D.multiplex_websocket_dispatcher_ts 100
               (Sample.writing false))))
    = [Some (M.mk O.Data false 0 (Some [x01]))].
Proof. do 3 eexists. repeat split; reflexivity. Qed.

(** C3 fails as the specification words it. The data loop holds a write
    of channel (true, 0) at the poller of a congested socket when the
    peer's ChannelBufferFull frame for the channel arrives. The queue
    becomes [remoteFull]; the socket drains, the loop resumes, and a Data
    frame of the channel is sent, [remoteFull] still being set. *)
Lemma data_frame_sent_while_remoteFull :
  exists c',
    W.onMessage Sample.fullFrame true Sample.congested = Some c' /\
    map D.Queue.remoteFull (D._queues (W._dispatcher c')) = [true] /\
    map M.parse (WebSocket.sent (D._socket (W._dispatcher c')))
      = [Some (M.mk O.CreateChannel true 0 (Some [x01]))] /\
    let d := D.run D.index_ts (W._dispatcher c')
               [D.Socket 0 WebSocket.OPEN; D.WakeQueues 200] in
    map D.Queue.remoteFull (D._queues d) = [true] /\
    map M.parse (WebSocket.sent (D._socket d))
      = [Some (M.mk O.CreateChannel true 0 (Some [x01]));
         Some (M.mk O.Data true 0 (Some [x02]))].
Proof. eexists. split; [reflexivity|]. repeat split; reflexivity. Qed.

(** C5 fails as the specification words it. The data loop is suspended at
    the backpressure wait with a write of channel 0; channel 1 is ended, so
    a control message is queued and the control loop becomes active and
    waits too. The data loop resumes first: its frame is sent while the
    control frame is still queued and nothing of the control queue has
    been sent; the control frame follows when the control loop resumes. *)
Lemma data_frame_sent_before_control_frame :
  D.queuesAwait Sample.oneWrite <> None /\
  D._controlQueue Sample.oneWrite = [] /\
  Sample.bothLoops = D.sendControlMessage true 1 O.CloseChannel Sample.oneWrite /\
  D._controlQueue Sample.bothLoops = [M.mk O.CloseChannel true 1 None] /\
  D._processingControlQueue Sample.bothLoops = true /\
  WebSocket.sent (D._socket Sample.bothLoops) = [] /\
  let d := D.wakeQueues D.index_ts 100 Sample.bothLoops in
  map M.parse (WebSocket.sent (D._socket d))
    = [Some (M.mk O.CreateChannel true 0 (Some [x01]))] /\
  D._controlQueue d = [M.mk O.CloseChannel true 1 None] /\
  map M.parse (WebSocket.sent (D._socket (D.wakeControl d)))
    = [Some (M.mk O.CreateChannel true 0 (Some [x01]));
       Some (M.mk O.CloseChannel true 1 (Some []))].
Proof. repeat split; try reflexivity. discriminate. Qed.

(** C10. The two files resumed in the same state, holding the first write
    of a queue made for a channel of the peer: [index.ts] sends a
    CreateChannel frame, [multiplex-websocket-dispatcher.ts] a Data frame.
    At the peer, which has the channel as (true, 0), the first frame opens
    a second channel and leaves the data out of the channel's readable
    side; the second frame delivers the data to the channel. *)
Lemma sources_differ_on_first_remote_frame :
  map M.parse
    (WebSocket.sent (D._socket (D.wakeQueues D.index_ts 100 (Sample.writing false))))
  = [Some (M.mk O.CreateChannel false 0 (Some [x01]))] /\
  map M.parse
    (WebSocket.sent
       (D._socket
          (D.wakeQueues D.multiplex_websocket_dispatcher_ts 100 (Sample.writing false))))
  = [Some (M.mk O.Data false 0 (Some [x01]))] /\
  option_map (fun c => map MultiplexWebSocketChannel.readable (W._channels c))
    (W.onMessage [x00; x01; x00; x00; x00; x00; x01] true Sample.connection)
  = Some [[]; []] /\
  option_map (fun c => map MultiplexWebSocketChannel.readable (W._channels c))
    (W.onMessage [x02; x01; x00; x00; x00; x00; x01] true Sample.connection)
  = Some [[[x01]]].
Proof. repeat split; reflexivity. Qed.
End Departures.

(** * Further properties *)

(** ** The codec: failures and the reverse round trip *)

Section CodecMore.
Import MultiplexWebSocketMessage.

Lemma byte_of_Z_of_byte (b : byte) : byte_of_Z (Z_of_byte b) = b.
Proof.
  unfold byte_of_Z, Z_of_byte.
  pose proof (Byte.to_N_bounded b) as Hb.
  rewrite Z.mod_small by lia. rewrite N2Z.id, Byte.of_to_N. reflexivity.
Qed.

Lemma byte_of_Z_mod (v : Z) (b : byte) : v mod 256 = Z_of_byte b -> byte_of_Z v = b.
Proof.
  intros E. rewrite <- (byte_of_Z_of_byte b). unfold byte_of_Z. rewrite E.
  unfold Z_of_byte at 2. pose proof (Byte.to_N_bounded b) as Hb.
  rewrite (Z.mod_small (Z.of_N (Byte.to_N b))) by lia. reflexivity.
Qed.

Lemma Z_of_byte_bounds (b : byte) : 0 <= Z_of_byte b <= 255.
Proof. unfold Z_of_byte. pose proof (Byte.to_N_bounded b). lia. Qed.

Lemma toBuffer_opcode_out_of_range (m : t) :
  ~ 0 <= _opcode m <= 255 -> toBuffer m = None.
Proof.
  intros H. unfold toBuffer, Buffer.writeUInt8.
  replace ((0 <=? _opcode m) && (_opcode m <=? 255)) with false; [reflexivity|].
  symmetry. apply andb_false_iff. lia.
Qed.

(** X1. [toBuffer] throws exactly when the opcode is not in 0..255 or the
    id is not in 0..2^32-1; when it returns, the buffer is six bytes
    longer than the payload. *)
Theorem toBuffer_fails_iff (m : t) :
  (toBuffer m = None <->
   ~ (0 <= _opcode m <= 255 /\ 0 <= _id m <= 4294967295)) /\
  (forall buffer, toBuffer m = Some buffer ->
                  length buffer = (6 + length (payload m))%nat).
Proof.
  destruct (Z_le_dec 0 (_opcode m)) as [H0|H0];
    [destruct (Z_le_dec (_opcode m) 255) as [H1|H1]|];
    try (split; [split; [intros _; lia | intros _; apply toBuffer_opcode_out_of_range; lia]
                |intros b E; rewrite toBuffer_opcode_out_of_range in E by lia;
                 discriminate]).
  destruct (Z_le_dec 0 (_id m)) as [H2|H2];
    [destruct (Z_le_dec (_id m) 4294967295) as [H3|H3]|];
    try (split; [split; [intros _; lia | intros _; apply toBuffer_out_of_range; lia]
                |intros b E; rewrite toBuffer_out_of_range in E by lia; discriminate]).
  rewrite toBuffer_bytes by lia. split.
  - split; [discriminate | intros H; exfalso; apply H; lia].
  - intros b [= <-]. reflexivity.
Qed.

(** X2. Decoding then encoding. A buffer that [parse] accepts is encoded
    back by [toBuffer] to the same bytes, except that the flag byte comes
    back as 0 when it was 0 and as 1 otherwise: [parse] reads any non-zero
    flag byte as "not local". *)
Theorem parse_toBuffer_normalizes (buffer : list byte) (m : t) :
  parse buffer = Some m ->
  exists b0 b1 rest,
    buffer = b0 :: b1 :: rest /\
    toBuffer m = Some (b0 :: (if Z_of_byte b1 =? 0 then x00 else x01) :: rest) /\
    (b1 = x00 \/ b1 = x01 -> toBuffer m = Some buffer).
Proof.
  destruct buffer as [|b0 [|b1 [|b2 [|b3 [|b4 [|b5 rest]]]]]]; try discriminate.
  rewrite parse_bytes. intros [= <-].
  exists b0, b1, (b2 :: b3 :: b4 :: b5 :: rest). split; [reflexivity|].
  pose proof (Z_of_byte_bounds b0). pose proof (Z_of_byte_bounds b2).
  pose proof (Z_of_byte_bounds b3). pose proof (Z_of_byte_bounds b4).
  pose proof (Z_of_byte_bounds b5).
  assert (E : toBuffer
                (mk (Z_of_byte b0) (Z_of_byte b1 =? 0)
                   (((Z_of_byte b2 * 256 + Z_of_byte b3) * 256 + Z_of_byte b4) * 256
                    + Z_of_byte b5) (Some rest))
              = Some (b0 :: (if Z_of_byte b1 =? 0 then x00 else x01)
                         :: b2 :: b3 :: b4 :: b5 :: rest)).
  { rewrite toBuffer_bytes by (simpl; lia). simpl. f_equal.
    f_equal; [apply byte_of_Z_of_byte|].
    f_equal; [destruct (Z_of_byte b1 =? 0); reflexivity|].
    f_equal; [apply byte_of_Z_mod; Z.div_mod_to_equations; lia|].
    f_equal; [apply byte_of_Z_mod; Z.div_mod_to_equations; lia|].
    f_equal; [apply byte_of_Z_mod; Z.div_mod_to_equations; lia|].
    f_equal. apply byte_of_Z_mod; Z.div_mod_to_equations; lia. }
  split; [exact E|].
  intros [-> | ->]; exact E.
Qed.

(** X2 on six bytes with flag byte 5: the flag comes back as 1. *)
Lemma parse_toBuffer_normalizes_instance :
  exists m,
    parse [x02; x05; x00; x00; x00; x07] = Some m /\
    toBuffer m = Some [x02; x01; x00; x00; x00; x07].
Proof.
  eexists. split; [reflexivity|].
  destruct (parse_toBuffer_normalizes [x02; x05; x00; x00; x00; x07] _ eq_refl)
    as (b0 & b1 & rest & E & Hb & _).
  injection E as <- <- <-. exact Hb.
Defined.
End CodecMore.

(** ** The control queue *)

Section ControlQueue.
Import MultiplexWebSocketDispatcher Invariant.

(** What [socket.send] leaves in the log of messages transmitted. *)
Lemma send_sent (buffer : list byte) (socket socket' : WebSocket.t) :
  WebSocket.send buffer socket = Some socket' ->
  (WebSocket.isOpen socket = true /\
   WebSocket.sent socket' = WebSocket.sent socket ++ [buffer]) \/
  (WebSocket.isOpen socket = false /\ WebSocket.sent socket' = WebSocket.sent socket).
Proof.
  unfold WebSocket.send. destruct (WebSocket.isOpen socket).
  - intros [= <-]. left. auto.
  - destruct (WebSocket.readyState socket); intros [= <-]; right; auto.
Qed.

Lemma fields_processQueues (d : t) :
  _socket (processQueues d) = _socket d /\
  _controlQueue (processQueues d) = _controlQueue d /\
  _processingControlQueue (processQueues d) = _processingControlQueue d /\
  controlAwait (processQueues d) = controlAwait d /\
  settled (processQueues d) = settled d.
Proof.
  unfold processQueues. destruct (_processingQueues d); [auto 10|].
  destruct (fields_processQueues_loop (with_processingQueues true d))
    as (_ & Hs & Hk & Hc & Hp & Ha & _).
  rewrite Hs, Hk, Hc, Hp, Ha. auto 10.
Qed.

Lemma fields_processControlQueue_loop (d : t) :
  _socket (processControlQueue_loop d) = _socket d /\
  _controlQueue (processControlQueue_loop d) = _controlQueue d /\
  settled (processControlQueue_loop d) = settled d.
Proof.
  unfold processControlQueue_loop. destruct (_controlQueue d) eqn:E; simpl; auto.
  destruct (fields_processQueues (with_processingControlQueue false d))
    as (Hs & Hc & _ & _ & Ht).
  rewrite Hs, Hc, Ht. simpl. auto.
Qed.

(** What a resumption of the control loop does to the control queue and
    to the socket. *)
Lemma wakeControl_cases (d : t) :
  (_controlQueue (wakeControl d) = _controlQueue d /\
   _socket (wakeControl d) = _socket d) \/
  (exists message rest,
      _controlQueue d = message :: rest /\
      _controlQueue (wakeControl d) = rest /\
      (_socket (wakeControl d) = _socket d \/
       exists buffer,
         Message.toBuffer message = Some buffer /\
         WebSocket.send buffer (_socket d) = Some (_socket (wakeControl d)))).
Proof.
  unfold wakeControl. destruct (controlAwait d); [|left; split; reflexivity].
  destruct (awaited _ _) as [[|]|]; [|left; split; reflexivity..].
  destruct (_controlQueue d) as [|message rest] eqn:Eq; [left; split; auto|].
  right. exists message, rest. split; [reflexivity|].
  destruct (Message.toBuffer message) as [buffer|] eqn:Eb; simpl; [|auto].
  destruct (WebSocket.send buffer (_socket d)) as [socket|] eqn:Es; simpl; [|auto].
  destruct (fields_processControlQueue_loop
              (with_controlAwait None (with_controlQueue rest (with_socket socket d))))
    as (Hs & Hc & _).
  rewrite Hs, Hc. simpl. split; [reflexivity|]. right. exists buffer. auto.
Qed.

Lemma controlQueue_step (source : Source) (d : t) (event : Event) :
  exists taken,
    _controlQueue d ++ enqueuedControl [event]
    = taken ++ _controlQueue (step source d event).
Proof.
  destruct event; simpl; try (exists []; rewrite app_nil_r; reflexivity).
  - exists []. simpl.
    unfold sendControlMessage, processControlQueue. simpl.
    destruct (_processingControlQueue d); [reflexivity|].
    destruct (fields_processControlQueue_loop
                (with_processingControlQueue true
                   (with_controlQueue
                      (_controlQueue d ++ [Message.mk opcode local id None]) d)))
      as (_ & -> & _). reflexivity.
  - exists []. rewrite app_nil_r. unfold send.
    destruct (find _ _); [|reflexivity]. simpl.
    destruct (fields_processQueues
                (with_resolvers (S (resolvers d))
                   (with_queues
                      (Queue.mutate (Queue.address t0)
                         (Queue.enqueue (resolvers d) data) (_queues d)) d)))
      as (_ & -> & _). reflexivity.
  - exists []. rewrite app_nil_r. unfold onClose.
    destruct (Queue.indexOf _ _); reflexivity.
  - exists []. rewrite app_nil_r. unfold handleControlMessage.
    destruct (find _ _); reflexivity.
  - rewrite app_nil_r.
    destruct (wakeControl_cases d) as [[-> _]|(message & rest & -> & -> & _)].
    + exists []. reflexivity.
    + exists [message]. reflexivity.
  - exists []. rewrite app_nil_r. unfold wakeQueues.
    destruct (queuesAwait d) as [[[wait candidate] task]|]; [|reflexivity].
    destruct (awaited _ _) as [[|]|]; [| |reflexivity].
    + destruct (fields_processQueues_loop
                  (sendTask source now candidate task (with_queuesAwait None d)))
        as (_ & _ & _ & -> & _).
      unfold sendTask. destruct (bind _ _); reflexivity.
    + destruct (fields_processQueues_loop (reject task (with_queuesAwait None d)))
        as (_ & _ & _ & -> & _). reflexivity.
Qed.

(** X3. The control queue is a queue. Whatever happens to the dispatcher,
    the messages on the control queue afterwards are the last of those
    that were on it followed by those handed to [sendControlMessage]
    since, in that order: messages leave at the front only, and none is
    reordered, duplicated or dropped from the middle. *)
Theorem control_queue_is_fifo (source : Source) (events : list Event) (d : t) :
  exists taken,
    _controlQueue d ++ enqueuedControl events
    = taken ++ _controlQueue (run source d events).
Proof.
  revert d. induction events as [|event events IH]; intros d.
  - exists []. simpl. rewrite app_nil_r. reflexivity.
  - destruct (controlQueue_step source d event) as (taken1 & E1).
    destruct (IH (step source d event)) as (taken & E).
    exists (taken1 ++ taken).
    assert (Ee : enqueuedControl (event :: events)
                 = enqueuedControl [event] ++ enqueuedControl events).
    { unfold enqueuedControl. simpl. rewrite app_nil_r. reflexivity. }
    simpl run. rewrite Ee, app_assoc, E1, <- !app_assoc, E. reflexivity.
Qed.

(** X4. A resumption of the control loop sends at most one message, and
    that message is the encoding of the head of the control queue, which
    leaves the queue; nothing else is sent and no write is settled. *)
Theorem wakeControl_sends_head (d : t) :
  settled (wakeControl d) = settled d /\
  (WebSocket.sent (_socket (wakeControl d)) = WebSocket.sent (_socket d) \/
   exists message rest buffer,
     _controlQueue d = message :: rest /\
     Message.toBuffer message = Some buffer /\
     _controlQueue (wakeControl d) = rest /\
     WebSocket.sent (_socket (wakeControl d)) = WebSocket.sent (_socket d) ++ [buffer]).
Proof.
  split.
  - unfold wakeControl. destruct (controlAwait d); [|reflexivity].
    destruct (awaited _ _) as [[|]|]; try reflexivity.
    destruct (_controlQueue d) as [|message rest]; [reflexivity|].
    destruct (bind _ _) as [socket|]; [|reflexivity].
    destruct (fields_processControlQueue_loop
                (with_controlAwait None (with_controlQueue rest (with_socket socket d))))
      as (_ & _ & ->). reflexivity.
  - destruct (wakeControl_cases d)
      as [[_ ->]|(message & rest & Eq & Er & [->|(buffer & Eb & Es)])]; auto.
    destruct (send_sent _ _ _ Es) as [[_ E]|[_ E]]; [|auto].
    right. exists message, rest, buffer. repeat split; auto.
Qed.
End ControlQueue.

(** ** The two loops *)

Section Loops.
Import MultiplexWebSocketDispatcher Invariant.

Lemma enqueuedControl_cons (event : Event) (events : list Event) :
  enqueuedControl (event :: events) = enqueuedControl [event] ++ enqueuedControl events.
Proof. unfold enqueuedControl. simpl. rewrite app_nil_r. reflexivity. Qed.

(** One event on a dispatcher whose control loop has ended with its flag
    set and whose data loop is idle. *)
Lemma silent_step (source : Source) (d : t) (event : Event) :
  _processingControlQueue d = true -> controlAwait d = None -> queuesAwait d = None ->
  _processingControlQueue (step source d event) = true /\
  controlAwait (step source d event) = None /\
  queuesAwait (step source d event) = None /\
  WebSocket.sent (_socket (step source d event)) = WebSocket.sent (_socket d) /\
  settled (step source d event) = settled d /\
  _controlQueue (step source d event) = _controlQueue d ++ enqueuedControl [event].
Proof.
  intros Ef Ec Eq. destruct event; simpl; rewrite ?app_nil_r.
  - unfold sendControlMessage, processControlQueue. simpl. rewrite Ef. simpl. auto 10.
  - unfold send. destruct (find _ _); [|auto 10]. simpl.
    unfold processQueues. simpl. destruct (_processingQueues d); simpl; [auto 10|].
    unfold processQueues_loop. simpl. rewrite Ef. simpl. auto 10.
  - auto 10.
  - unfold onClose. destruct (Queue.indexOf _ _); simpl; auto 10.
  - unfold handleControlMessage. destruct (find _ _); simpl; auto 10.
  - auto 10.
  - unfold wakeControl. rewrite Ec. auto 10.
  - unfold wakeQueues. rewrite Eq. auto 10.
Qed.

(** X5. The control loop has no [catch]. When the wait it is suspended on
    is rejected (the poller finds the socket not open), the function ends
    with [_processingControlQueue] still set, and from then on, with the
    data loop idle, the dispatcher is silent whatever happens: nothing is
    ever sent again, no write is settled, no write is taken from a queue,
    and control messages only pile up on the control queue. *)
Theorem rejected_control_wait_silences_dispatcher (source : Source) (d : t)
    (events : list Event) :
  controlAwait d = Some polling ->
  WebSocket.isOpen (_socket d) = false ->
  _processingControlQueue d = true ->
  queuesAwait d = None ->
  let d' := run source (wakeControl d) events in
  WebSocket.sent (_socket d') = WebSocket.sent (_socket d) /\
  settled d' = settled d /\
  queuesAwait d' = None /\
  _processingControlQueue d' = true /\
  _controlQueue d' = _controlQueue d ++ enqueuedControl events.
Proof.
  intros Ea Eo Ef Eq.
  assert (E0 : wakeControl d = with_controlAwait None d).
  { unfold wakeControl. rewrite Ea. simpl. unfold interval. rewrite Eo. reflexivity. }
  rewrite E0. clear Ea Eo.
  assert (H : forall events d0,
             _processingControlQueue d0 = true -> controlAwait d0 = None ->
             queuesAwait d0 = None ->
             let d' := run source d0 events in
             WebSocket.sent (_socket d') = WebSocket.sent (_socket d0) /\
             settled d' = settled d0 /\ queuesAwait d' = None /\
             _processingControlQueue d' = true /\
             _controlQueue d' = _controlQueue d0 ++ enqueuedControl events).
  { clear. induction events as [|event events IH]; intros d0 Ef Ec Eq; cbv zeta.
    - simpl. rewrite app_nil_r. repeat split; auto.
    - change (run source d0 (event :: events))
        with (run source (step source d0 event) events).
      destruct (silent_step source d0 event Ef Ec Eq) as (Hf & Hc & Hq & Hs & Ht & Hk).
      destruct (IH _ Hf Hc Hq) as (Is & It & Iq & If & Ik).
      rewrite (enqueuedControl_cons event events), Is, It, Iq, If, Ik, Hs, Ht, Hk,
        app_assoc.
      repeat split; auto. }
  apply (H events (with_controlAwait None d)); auto.
Qed.

(** X5 on a congested socket that closes while a close message waits at
    the poller: a later write is accepted and never sent. *)
Lemma rejected_control_wait_silences_dispatcher_instance :
  let d := run index_ts (Sample.dispatcher true)
             [Socket 2000000 WebSocket.OPEN;
              SendControlMessage true 0 Opcode.CloseChannel;
              Socket 0 WebSocket.CLOSED] in
  let d' := run index_ts (wakeControl d)
              [Socket 0 WebSocket.OPEN; Send true 0 [x01]; WakeQueues 100;
               SendControlMessage true 0 Opcode.ChannelBufferFull] in
  WebSocket.sent (_socket d') = [] /\
  settled d' = [] /\
  queuesAwait d' = None /\
  _processingControlQueue d' = true /\
  map Message._opcode (_controlQueue d')
    = [Opcode.CloseChannel; Opcode.ChannelBufferFull].
Proof.
  intros d d'.
  destruct (rejected_control_wait_silences_dispatcher index_ts d
              [Socket 0 WebSocket.OPEN; Send true 0 [x01]; WakeQueues 100;
               SendControlMessage true 0 Opcode.ChannelBufferFull])
    as (Hs & Ht & Hq & Hf & Hk); try (vm_compute; reflexivity).
  fold d' in Hs, Ht, Hq, Hf, Hk.
  rewrite Hs, Ht, Hq, Hf, Hk. vm_compute. repeat split.
Defined.

Lemma busy_step (source : Source) (d : t) (event : Event) :
  event <> WakeControl ->
  _processingControlQueue d = true ->
  _processingControlQueue (step source d event) = true /\
  (queuesAwait (step source d event) = queuesAwait d \/
   queuesAwait (step source d event) = None).
Proof.
  intros N Ef. destruct event; simpl; try congruence.
  - unfold sendControlMessage, processControlQueue. simpl. rewrite Ef. simpl. auto.
  - unfold send. destruct (find _ _); [|auto]. simpl.
    unfold processQueues. simpl. destruct (_processingQueues d); simpl; [auto|].
    unfold processQueues_loop. simpl. rewrite Ef. simpl. auto.
  - auto.
  - unfold onClose. destruct (Queue.indexOf _ _); simpl; auto.
  - unfold handleControlMessage. destruct (find _ _); simpl; auto.
  - auto.
  - unfold wakeQueues.
    destruct (queuesAwait d) as [[[wait candidate] task]|] eqn:Ea; [|auto].
    destruct (awaited _ _) as [[|]|].
    + unfold processQueues_loop, sendTask.
      destruct (bind _ _); simpl; rewrite Ef; simpl; auto.
    + unfold processQueues_loop. simpl. rewrite Ef. simpl. auto.
    + auto.
Qed.

(** X6. Control messages have priority over writes not yet taken. From
    the moment the control loop is active until it is resumed, whatever
    else happens (writes, channels added or closed, inbound flow control,
    the data loop resuming), the data loop takes no write from any queue:
    the write it holds, if any, is the one it held, or it holds none. *)
Theorem active_control_loop_blocks_dequeue (source : Source) (events : list Event)
    (d : t) :
  Forall (fun event => event <> WakeControl) events ->
  _processingControlQueue d = true ->
  _processingControlQueue (run source d events) = true /\
  (queuesAwait (run source d events) = queuesAwait d \/
   queuesAwait (run source d events) = None).
Proof.
  revert d. induction events as [|event events IH]; intros d Hall Ef; simpl; [auto|].
  apply Forall_cons_iff in Hall. destruct Hall as [N Hall].
  destruct (busy_step source d event N Ef) as (Hf & Hq).
  destruct (IH _ Hall Hf) as (If & Iq). split; [exact If|].
  destruct Iq as [Iq|Iq]; [|auto]. rewrite Iq. exact Hq.
Qed.

(** X6 with both loops suspended: two more writes, the data loop resumed
    twice; the first write goes out and no other is taken. *)
Lemma active_control_loop_blocks_dequeue_instance :
  let d' := run index_ts Sample.bothLoops
              [Send true 0 [x02]; Send true 1 [x03]; WakeQueues 100; WakeQueues 101] in
  _processingControlQueue d' = true /\
  (queuesAwait d' = queuesAwait Sample.bothLoops \/ queuesAwait d' = None).
Proof.
  apply (active_control_loop_blocks_dequeue index_ts
           [Send true 0 [x02]; Send true 1 [x03]; WakeQueues 100; WakeQueues 101]
           Sample.bothLoops).
  - repeat constructor; discriminate.
  - vm_compute. reflexivity.
Defined.

(** X7. The data loop resumes with a write on a socket that is not open.
    Nothing is transmitted. If the wait was the poller, the wait is
    rejected; if the socket is still connecting, [send] throws: either way
    the write is rejected and no queue's [lastSendTime] changes. If the
    wait was the resolved promise and the socket is closing or closed,
    [send] returns: the message is dropped, and yet the queue of the write
    is stamped with the current time and the write is resolved. *)
Theorem write_on_socket_not_open (source : Source) (now : Z) (d : t) (wait : Wait)
    (candidate : Queue.t) (task : Task.t) :
  queuesAwait d = Some (wait, candidate, task) ->
  WebSocket.isOpen (_socket d) = false ->
  status (Task.resolver task) (settled d) = None ->
  let d' := wakeQueues source now d in
  WebSocket.sent (_socket d') = WebSocket.sent (_socket d) /\
  (wait = polling \/ WebSocket.readyState (_socket d) = WebSocket.CONNECTING ->
   status (Task.resolver task) (settled d') = Some Rejected /\
   map Queue.lastSendTime (_queues d') = map Queue.lastSendTime (_queues d)) /\
  (wait = resolvedPromise ->
   WebSocket.readyState (_socket d) <> WebSocket.CONNECTING ->
   0 <= Queue._id candidate < 2 ^ 32 ->
   status (Task.resolver task) (settled d') = Some Fulfilled /\
   map Queue.lastSendTime (_queues d')
   = map Queue.lastSendTime
       (Queue.mutate (Queue.address candidate) (Queue.with_lastSendTime now)
          (_queues d))).
Proof.
  intros Ea Eo Es d'.
  assert (Hrej : d' = processQueues_loop (reject task (with_queuesAwait None d)) ->
                 WebSocket.sent (_socket d') = WebSocket.sent (_socket d) /\
                 status (Task.resolver task) (settled d') = Some Rejected /\
                 map Queue.lastSendTime (_queues d') = map Queue.lastSendTime (_queues d)).
  { intros ->.
    destruct (fields_processQueues_loop (reject task (with_queuesAwait None d)))
      as (_ & -> & -> & _).
    rewrite (table_processQueues_loop _ Queue.lastSendTime) by reflexivity.
    simpl. split; [reflexivity|]. split; [apply status_settle_same; exact Es | auto]. }
  destruct wait.
  - (* the resolved promise: [send] is called *)
    destruct (WebSocket.readyState (_socket d)) eqn:Er.
    + (* connecting: [send] throws *)
      destruct Hrej as (H1 & H2 & H3).
      { unfold d', wakeQueues. rewrite Ea. simpl. unfold sendTask.
        destruct (Message.toBuffer _); simpl; [|reflexivity].
        unfold WebSocket.send. rewrite Eo, Er. reflexivity. }
      split; [exact H1|]. split; [auto|]. intros _ N. contradiction.
    + unfold WebSocket.isOpen in Eo. rewrite Er in Eo. discriminate.
    + (* closing *)
      assert (Hsend : forall buffer,
                 WebSocket.send buffer (_socket d)
                 = Some (WebSocket.mk
                           (WebSocket.bufferedAmount (_socket d)
                            + Z.of_nat (length buffer))
                           WebSocket.CLOSING (WebSocket.sent (_socket d))))
        by (intros; unfold WebSocket.send; rewrite Eo, Er; reflexivity).
      unfold d', wakeQueues. rewrite Ea. simpl. unfold sendTask.
      destruct (Message.toBuffer (frame source candidate task)) as [buffer|] eqn:Eb;
        simpl.
      * rewrite Hsend.
        match goal with |- context [processQueues_loop ?x] => set (d2 := x) end.
        destruct (fields_processQueues_loop d2) as (_ & -> & -> & _).
        rewrite (table_processQueues_loop _ Queue.lastSendTime) by reflexivity.
        simpl. split; [reflexivity|]. split; [intros [N|N]; discriminate|].
        intros _ _ _. split; [apply status_settle_same; exact Es | reflexivity].
      * match goal with |- context [processQueues_loop ?x] => set (d2 := x) end.
        destruct (fields_processQueues_loop d2) as (_ & -> & -> & _).
        simpl. split; [reflexivity|]. split; [intros [N|N]; discriminate|].
        intros _ _ Hid. exfalso. change (2 ^ 32) with 4294967296 in Hid.
        rewrite (toBuffer_bytes (frame source candidate task)
                   (frameOpcode_range source candidate)) in Eb by (simpl; lia).
        discriminate.
    + (* closed *)
      assert (Hsend : forall buffer,
                 WebSocket.send buffer (_socket d)
                 = Some (WebSocket.mk
                           (WebSocket.bufferedAmount (_socket d)
                            + Z.of_nat (length buffer))
                           WebSocket.CLOSED (WebSocket.sent (_socket d))))
        by (intros; unfold WebSocket.send; rewrite Eo, Er; reflexivity).
      unfold d', wakeQueues. rewrite Ea. simpl. unfold sendTask.
      destruct (Message.toBuffer (frame source candidate task)) as [buffer|] eqn:Eb;
        simpl.
      * rewrite Hsend.
        match goal with |- context [processQueues_loop ?x] => set (d2 := x) end.
        destruct (fields_processQueues_loop d2) as (_ & -> & -> & _).
        rewrite (table_processQueues_loop _ Queue.lastSendTime) by reflexivity.
        simpl. split; [reflexivity|]. split; [intros [N|N]; discriminate|].
        intros _ _ _. split; [apply status_settle_same; exact Es | reflexivity].
      * match goal with |- context [processQueues_loop ?x] => set (d2 := x) end.
        destruct (fields_processQueues_loop d2) as (_ & -> & -> & _).
        simpl. split; [reflexivity|]. split; [intros [N|N]; discriminate|].
        intros _ _ Hid. exfalso. change (2 ^ 32) with 4294967296 in Hid.
        rewrite (toBuffer_bytes (frame source candidate task)
                   (frameOpcode_range source candidate)) in Eb by (simpl; lia).
        discriminate.
  - (* the poller: the wait is rejected *)
    destruct Hrej as (H1 & H2 & H3).
    { unfold d', wakeQueues. rewrite Ea. simpl. unfold interval. rewrite Eo.
      reflexivity. }
    split; [exact H1|]. split; [auto|]. intros N. discriminate.
Qed.

(** X7 on a write held at the resolved promise when the socket closes:
    nothing goes out, and the write is resolved. *)
Lemma write_on_socket_not_open_instance :
  let d := run index_ts (Sample.writing true) [Socket 0 WebSocket.CLOSED] in
  let d' := wakeQueues index_ts 100 d in
  WebSocket.sent (_socket d') = [] /\
  status 0 (settled d') = Some Fulfilled /\
  map Queue.lastSendTime (_queues d') = [100].
Proof.
  intros d.
  destruct (write_on_socket_not_open index_ts 100 d resolvedPromise
              (Queue.mk 0 true 0 [] false 0) (Task.mk 0 [x01]))
    as (Hs & _ & H); try (vm_compute; reflexivity).
  destruct H as (Hf & Ht); [reflexivity | discriminate | simpl; lia |].
  split; [exact Hs|]. split; [exact Hf|]. rewrite Ht. vm_compute. reflexivity.
Defined.
End Loops.

(** ** Queues: fairness, order, registration *)

Section Queues.
Import MultiplexWebSocketDispatcher Invariant.

(** X8. A queue just served goes behind the others. The data loop sends a
    write of [candidate] at a time [now] later than the last send of some
    other pending queue; the control loop is idle. Then the write the loop
    takes next is not from [candidate] again. *)
Theorem served_queue_is_not_served_next (source : Source) (now : Z) (d : t)
    (wait : Wait) (candidate other : Queue.t) (task : Task.t) :
  NoDup (map Queue.address (_queues d)) ->
  queuesAwait d = Some (wait, candidate, task) ->
  awaited wait (_socket d) = Some Fulfilled ->
  WebSocket.isOpen (_socket d) = true ->
  0 <= Queue._id candidate < 2 ^ 32 ->
  _processingControlQueue d = false ->
  In other (_queues d) ->
  Queue.pending other = true ->
  Queue.address other <> Queue.address candidate ->
  Queue.lastSendTime other < now ->
  exists wait' next task',
    queuesAwait (wakeQueues source now d) = Some (wait', next, task') /\
    Queue.address next <> Queue.address candidate /\
    forall x, In x (_queues d) -> Queue.pending x = true ->
              Queue.address x <> Queue.address candidate ->
              Queue.lastSendTime next <= Queue.lastSendTime x.
Proof.
  intros Hnd Ea Ew Eo Hid Ec Hin Hp Na Hlt. change (2 ^ 32) with 4294967296 in Hid.
  destruct (wakeQueues_sends source now d wait candidate task Ea Ew Eo)
    as (buffer & _ & ->); [lia|].
  set (d2 := resolve task _).
  assert (Hnd2 : NoDup (map Queue.address (_queues d2))).
  { simpl. unfold Queue.mutate. rewrite mutateAt_addresses by reflexivity. exact Hnd. }
  assert (Hkeep : forall x, In x (_queues d) ->
                            Queue.address x <> Queue.address candidate ->
                            In x (_queues d2)).
  { intros x Hx N.
    apply (In_mutateAt_intro _ Queue.address (Queue.address candidate)
             (Queue.with_lastSendTime now)) in Hx.
    destruct (Nat.eqb_spec (Queue.address x) (Queue.address candidate));
      [contradiction | exact Hx]. }
  destruct (processQueues_loop_spec d2 Hnd2 Ec) as [[Ef _]|H].
  { exfalso. assert (Hf : In other (filter Queue.pending (_queues d2))).
    { apply filter_In. split; [apply Hkeep; assumption | exact Hp]. }
    rewrite Ef in Hf. exact Hf. }
  destruct H as (pre & c & post & t & rest & Eq & Hpc & Hpre & Hpost & Et & ->).
  assert (Hmin : forall x, In x (_queues d2) -> Queue.pending x = true ->
                           Queue.lastSendTime c <= Queue.lastSendTime x).
  { intros x Hx Hpx. rewrite Eq in Hx. apply in_app_or in Hx.
    destruct Hx as [Hx|[<-|Hx]].
    - specialize (Hpre x Hx Hpx). lia.
    - lia.
    - exact (Hpost x Hx Hpx). }
  do 3 eexists. split; [reflexivity|]. simpl. split.
  - intros E.
    assert (Hc : In c (_queues d2)).
    { rewrite Eq. apply in_or_app. right. left. reflexivity. }
    simpl in Hc. apply In_mutateAt in Hc.
    destruct Hc as (z & Hz & [[-> N]|[-> _]]); [congruence|].
    specialize (Hmin other (Hkeep other Hin Na) Hp). simpl in Hmin. lia.
  - intros x Hx Hpx N. apply Hmin; [apply Hkeep; assumption | exact Hpx].
Qed.

(** X8 on two local queues with a write each, the first holding the
    loop's attention: served at time 100, it yields to the second. *)
Lemma served_queue_is_not_served_next_instance :
  let d := run index_ts (addChannel true 1 (Sample.dispatcher true))
             [Send true 0 [x01]; Send true 0 [x02]; Send true 1 [x03]] in
  exists wait' next task',
    queuesAwait (wakeQueues index_ts 100 d) = Some (wait', next, task') /\
    Queue.address next = 1%nat /\ Task.data task' = [x03].
Proof.
  set (d := run index_ts (addChannel true 1 (Sample.dispatcher true))
              [Send true 0 [x01]; Send true 0 [x02]; Send true 1 [x03]]).
  destruct (served_queue_is_not_served_next index_ts 100 d resolvedPromise
              (Queue.mk 0 true 0 [] false 0)
              (Queue.mk 1 true 1 [Task.mk 2 [x03]] false 0) (Task.mk 0 [x01]))
    as (wait' & next & task' & E & _); try reflexivity.
  - simpl. repeat constructor; simpl; intuition discriminate.
  - simpl. lia.
  - vm_compute. right. left. reflexivity.
  - simpl. discriminate.
  - exists wait', next, task'. split; [exact E|].
    vm_compute in E. injection E as _ En Et. subst next task'.
    split; reflexivity.
Defined.

(** X9. Registration round trip. A write for the flag and id of a channel
    just added is accepted. Once the ['close'] listener has taken out the
    queue of a channel, and no other queue has its flag and id, a write
    for it throws ['cannot write after end'] and changes nothing. *)
Theorem send_follows_registration (local : bool) (id : Z) (data : list byte) (d : t)
    (queue : Queue.t) :
  NoDup (map Queue.address (_queues d)) ->
  In queue (_queues d) ->
  (forall x, In x (_queues d) ->
             Queue.matches (Queue._local queue) (Queue._id queue) x = true ->
             x = queue) ->
  snd (send local id data (addChannel local id d)) = inr (resolvers d) /\
  send (Queue._local queue) (Queue._id queue) data (onClose (Queue.address queue) d)
    = (onClose (Queue.address queue) d, inl "cannot write after end"%string).
Proof.
  intros Hnd Hin Huniq. split.
  - unfold send, addChannel. simpl. rewrite find_app.
    destruct (find (Queue.matches local id) (_queues d)); [reflexivity|].
    simpl. unfold Queue.matches. simpl. rewrite Bool.eqb_reflx, Z.eqb_refl.
    reflexivity.
  - unfold send.
    destruct (find _ (_queues (onClose (Queue.address queue) d))) as [y|] eqn:Ef;
      [|reflexivity].
    exfalso. apply find_some in Ef. destruct Ef as [Hy Hm].
    assert (Hyd : In y (_queues d)).
    { unfold onClose in Hy. destruct (Queue.indexOf _ _); [|exact Hy].
      simpl in Hy. apply In_splice in Hy. exact Hy. }
    apply (onClose_removes (Queue.address queue) d Hnd y Hy).
    rewrite (Huniq y Hyd Hm). reflexivity.
Qed.

Lemma send_follows_registration_instance :
  snd (send false 4 [x01] (addChannel false 4 (Sample.dispatcher true))) = inr 0%nat /\
  send true 0 [x01] (onClose 0 (Sample.dispatcher true))
    = (onClose 0 (Sample.dispatcher true), inl "cannot write after end"%string).
Proof.
  apply (send_follows_registration false 4 [x01] (Sample.dispatcher true)
           (Queue.mk 0 true 0 [] false 0)).
  - simpl. repeat constructor. simpl. tauto.
  - left. reflexivity.
  - intros x [<-|[]] _. reflexivity.
Defined.

(** X10. Every dispatcher reached from a new one by any events is well
    formed: the queue objects of the table are distinct; the writes that
    are queued or held by the data loop have distinct promises, created by
    [send] and not yet settled (so no write is completed twice or both
    ways); the data loop is suspended only with [_processingQueues] set. *)
Theorem reachable_dispatcher_is_well_formed (source : Source) (socket : WebSocket.t)
    (events : list Event) :
  wf (run source (new socket) events).
Proof. apply wf_run, wf_new. Qed.
End Queues.

(** ** The order of the writes of a channel *)

Section QueueOrder.
Import MultiplexWebSocketDispatcher Invariant.

(** One pass of the data loop leaves every queue object as it is, or takes
    the first write of one of them and holds it. *)
Lemma queues_processQueues_loop (d : t) (x' : Queue.t) :
  NoDup (map Queue.address (_queues d)) ->
  In x' (_queues (processQueues_loop d)) ->
  exists x, In x (_queues d) /\ Queue.address x = Queue.address x' /\
    (x' = x \/
     exists wait task, Queue._queue x = task :: Queue._queue x' /\
       queuesAwait (processQueues_loop d) = Some (wait, x', task)).
Proof.
  intros Hnd Hin.
  destruct (processQueues_loop_cases d)
    as [E|[E|(c & task & rest & Hc & Hp & Eq & E)]]; rewrite E in Hin |- *.
  - exists x'. auto.
  - exists x'. auto.
  - simpl in Hin. apply In_mutateAt in Hin.
    destruct Hin as (x & Hx & [[-> N]|[-> Ea]]).
    + exists x. auto.
    + assert (x = c) by (apply (same_address _ Queue.address (_queues d)); auto).
      subst x. exists c. unfold Queue.dequeue. rewrite Eq. simpl.
      split; [exact Hc|]. split; [reflexivity|]. right. do 2 eexists.
      split; reflexivity.
Qed.

Lemma queues_processQueues (d : t) (x' : Queue.t) :
  NoDup (map Queue.address (_queues d)) ->
  In x' (_queues (processQueues d)) ->
  exists x, In x (_queues d) /\ Queue.address x = Queue.address x' /\
    (x' = x \/
     exists wait task, Queue._queue x = task :: Queue._queue x' /\
       queuesAwait (processQueues d) = Some (wait, x', task)).
Proof.
  intros Hnd Hin. unfold processQueues in *.
  destruct (_processingQueues d).
  - exists x'. auto.
  - apply (queues_processQueues_loop (with_processingQueues true d)); assumption.
Qed.

Lemma queues_processControlQueue_loop (d : t) (x' : Queue.t) :
  NoDup (map Queue.address (_queues d)) ->
  In x' (_queues (processControlQueue_loop d)) ->
  exists x, In x (_queues d) /\ Queue.address x = Queue.address x' /\
    (x' = x \/
     exists wait task, Queue._queue x = task :: Queue._queue x' /\
       queuesAwait (processControlQueue_loop d) = Some (wait, x', task)).
Proof.
  intros Hnd Hin. unfold processControlQueue_loop in *.
  destruct (_controlQueue d).
  - apply (queues_processQueues (with_processingControlQueue false d)); assumption.
  - exists x'. auto.
Qed.

(** X11. The writes of a channel leave in the order in which [send]
    accepted them. Whatever happens to a well-formed dispatcher, a queue
    object that stays in the table changes in two ways only: a [send] for
    its flag and id appends one write at the tail, with a new resolver;
    the data loop takes the write at the head, and then holds it. *)
Theorem queue_is_fifo (source : Source) (d : t) (event : Event) (q q' : Queue.t) :
  wf d ->
  In q (_queues d) ->
  In q' (_queues (step source d event)) ->
  Queue.address q' = Queue.address q ->
  exists appended taken,
    Queue._queue q ++ appended = taken ++ Queue._queue q' /\
    (appended = [] \/
     exists local id data,
       event = Send local id data /\ Queue.matches local id q = true /\
       appended = [Task.mk (resolvers d) data]) /\
    (taken = [] \/
     exists wait task,
       queuesAwait (step source d event) = Some (wait, q', task) /\ taken = [task]).
Proof.
  intros Hwf Hq Hq' Ea. pose proof (wf_addresses d Hwf) as Hnd.
  assert (Same : In q' (_queues d) ->
                 exists appended taken,
                   Queue._queue q ++ appended = taken ++ Queue._queue q' /\
                   (appended = [] \/
                    exists local id data,
                      event = Send local id data /\ Queue.matches local id q = true /\
                      appended = [Task.mk (resolvers d) data]) /\
                   (taken = [] \/
                    exists wait task,
                      queuesAwait (step source d event) = Some (wait, q', task) /\
                      taken = [task])).
  { intros Hin. rewrite (same_address _ Queue.address (_queues d) q' q Hnd Hin Hq Ea).
    exists [], []. rewrite app_nil_r. auto. }
  assert (Loop : forall (d0 : t) (q0 : Queue.t) (appended : list Task.t),
             (forall x', In x' (_queues (step source d event)) ->
                exists x, In x (_queues d0) /\ Queue.address x = Queue.address x' /\
                  (x' = x \/
                   exists wait task, Queue._queue x = task :: Queue._queue x' /\
                     queuesAwait (step source d event) = Some (wait, x', task))) ->
             NoDup (map Queue.address (_queues d0)) ->
             In q0 (_queues d0) -> Queue.address q0 = Queue.address q ->
             Queue._queue q0 = Queue._queue q ++ appended ->
             exists taken,
               Queue._queue q ++ appended = taken ++ Queue._queue q' /\
               (taken = [] \/
                exists wait task,
                  queuesAwait (step source d event) = Some (wait, q', task) /\
                  taken = [task])).
  { intros d0 q0 appended H Hnd0 Hq0 Ea0 Eq0.
    destruct (H q' Hq') as (x & Hx & Eax & Hc).
    assert (x = q0) by (apply (same_address _ Queue.address (_queues d0)); congruence).
    subst x. rewrite <- Eq0. destruct Hc as [->|(wait & task & Et & Ew)].
    - exists []. auto.
    - exists [task]. split; [exact Et|]. right. eauto. }
  destruct event; simpl in *.
  - (* sendControlMessage *)
    destruct (sendControlMessage_fields local id opcode d) as (E & _).
    rewrite E in Hq'. auto.
  - (* send *)
    unfold send in *. destruct (find _ _) as [queue|] eqn:Ef; [|auto].
    simpl in *. apply find_some in Ef. destruct Ef as [Hqueue Hm].
    set (d1 := with_resolvers _ _) in *.
    assert (Hnd1 : NoDup (map Queue.address (_queues d1))).
    { simpl. unfold Queue.mutate. rewrite mutateAt_addresses by reflexivity. exact Hnd. }
    pose proof (In_mutateAt_intro _ Queue.address (Queue.address queue)
                  (Queue.enqueue (resolvers d) data) (_queues d) q Hq) as Hq1.
    destruct (Nat.eqb_spec (Queue.address q) (Queue.address queue)) as [Eaq|Naq].
    + assert (queue = q)
        by (apply (same_address _ Queue.address (_queues d)); auto).
      subst queue.
      destruct (Loop d1 _ [Task.mk (resolvers d) data]
                  (fun x' H => queues_processQueues d1 x' Hnd1 H) Hnd1 Hq1)
        as (taken & Et & Hd); [reflexivity..|].
      exists [Task.mk (resolvers d) data], taken. split; [exact Et|]. split; [|exact Hd].
      right. exists local, id, data. auto.
    + destruct (Loop d1 _ []
                  (fun x' H => queues_processQueues d1 x' Hnd1 H) Hnd1 Hq1)
        as (taken & Et & Hd); [reflexivity | symmetry; apply app_nil_r |].
      exists [], taken. auto.
  - (* addChannel *)
    apply in_app_or in Hq'. destruct Hq' as [Hq'|[<-|[]]]; [auto|].
    exfalso. pose proof (wf_allocated d Hwf q Hq) as Hlt. simpl in Ea. lia.
  - (* a channel closes *)
    unfold onClose in Hq'. destruct (Queue.indexOf _ _); [|auto].
    simpl in Hq'. apply In_splice in Hq'. auto.
  - (* handleControlMessage *)
    unfold handleControlMessage in *. destruct (find _ _) as [queue|]; [|auto].
    simpl in Hq'. apply In_mutateAt in Hq'.
    destruct Hq' as (x & Hx & [[-> N]|[-> Eax]]); [auto|].
    simpl in Ea. rewrite (same_address _ Queue.address (_queues d) x q Hnd Hx Hq Ea).
    exists [], []. simpl. rewrite app_nil_r. auto.
  - (* the socket changes *)
    auto.
  - (* the control loop resumes *)
    unfold wakeControl in *.
    destruct (controlAwait d) as [wait|]; [|auto].
    destruct (awaited wait (_socket d)) as [[|]|]; [|auto..].
    destruct (_controlQueue d) as [|message rest]; [auto|].
    destruct (bind _ _) as [socket|]; [|auto].
    set (d1 := with_controlAwait None _) in *.
    destruct (Loop d1 q []
                (fun x' H => queues_processControlQueue_loop d1 x' Hnd H) Hnd Hq)
      as (taken & Et & Hd); [reflexivity | symmetry; apply app_nil_r |].
    exists [], taken. auto.
  - (* the data loop resumes *)
    unfold wakeQueues in *.
    destruct (queuesAwait d) as [[[wait candidate] task]|]; [|auto].
    destruct (awaited wait (_socket d)) as [[|]|]; [| |auto].
    + unfold sendTask in *. destruct (bind _ _) as [socket|].
      * set (d1 := resolve task _) in *.
        assert (Hnd1 : NoDup (map Queue.address (_queues d1))).
        { simpl. unfold Queue.mutate. rewrite mutateAt_addresses by reflexivity.
          exact Hnd. }
        pose proof (In_mutateAt_intro _ Queue.address (Queue.address candidate)
                      (Queue.with_lastSendTime now) (_queues d) q Hq) as Hq1.
        destruct (Loop d1 _ []
                    (fun x' H => queues_processQueues_loop d1 x' Hnd1 H) Hnd1 Hq1)
          as (taken & Et & Hd);
          [destruct (Nat.eqb _ _); reflexivity
          |destruct (Nat.eqb _ _); symmetry; apply app_nil_r |].
        exists [], taken. auto.
      * set (d1 := reject task _) in *.
        destruct (Loop d1 q []
                    (fun x' H => queues_processQueues_loop d1 x' Hnd H) Hnd Hq)
          as (taken & Et & Hd); [reflexivity | symmetry; apply app_nil_r |].
        exists [], taken. auto.
    + set (d1 := reject task _) in *.
      destruct (Loop d1 q []
                  (fun x' H => queues_processQueues_loop d1 x' Hnd H) Hnd Hq)
        as (taken & Et & Hd); [reflexivity | symmetry; apply app_nil_r |].
      exists [], taken. auto.
Qed.

(** X11 on a queue with one write waiting behind the write the loop
    holds: the data loop resumes, sends the first and takes the second. *)
Lemma queue_is_fifo_instance :
  exists appended taken,
    [Task.mk 1 [x02]] ++ appended = taken ++ [] /\
    (appended = [] \/
     exists local id data,
       WakeQueues 100 = Send local id data /\
       Queue.matches local id (Queue.mk 0 true 0 [Task.mk 1 [x02]] false 0) = true /\
       appended = [Task.mk (resolvers Sample.twoWrites) data]) /\
    (taken = [] \/
     exists wait task,
       queuesAwait (step index_ts Sample.twoWrites (WakeQueues 100))
         = Some (wait, Queue.mk 0 true 0 [] false 100, task) /\
       taken = [task]).
Proof.
  apply (queue_is_fifo index_ts Sample.twoWrites (WakeQueues 100)
           (Queue.mk 0 true 0 [Task.mk 1 [x02]] false 0)
           (Queue.mk 0 true 0 [] false 100)).
  - apply (wf_run index_ts [Send true 0 [x01]; Send true 0 [x02]]).
    apply (wf_run index_ts [AddChannel true 0]), wf_new.
  - vm_compute. left. reflexivity.
  - vm_compute. left. reflexivity.
  - reflexivity.
Defined.
End QueueOrder.

(** ** The readable side of a channel *)

Section FlowSignals.
Import MultiplexWebSocketChannel.

Lemma signals_full_empty (rest : list Z) :
  Flow.signals true (Opcode.ChannelBufferEmpty :: rest) = Flow.signals false rest.
Proof. reflexivity. Qed.

Lemma signals_empty_full (rest : list Z) :
  Flow.signals false (Opcode.ChannelBufferFull :: rest) = Flow.signals true rest.
Proof. reflexivity. Qed.

(** X12. Flow-control signals of a channel alternate. Whatever series of
    [push] calls (with any answers of the stream) and [_read] calls a
    channel sees, what it asks of the dispatcher is a series of control
    messages with its own flag and id, ChannelBufferFull and
    ChannelBufferEmpty in turn, starting with the one that [_localFull]
    calls for and ending in the state [_localFull] then has: never two
    ChannelBufferFull without a ChannelBufferEmpty between them. *)
Theorem flow_signals_alternate (ops : list Flow.Op) (c : t) (d : Dispatcher.t) :
  exists opcodes,
    snd (Flow.run ops (c, d))
      = fold_left
          (fun d opcode => Dispatcher.sendControlMessage (_local c) (_id c) opcode d)
          opcodes d /\
    Flow.signals (_localFull c) opcodes = Some (_localFull (fst (Flow.run ops (c, d)))) /\
    _local (fst (Flow.run ops (c, d))) = _local c /\
    _id (fst (Flow.run ops (c, d))) = _id c /\
    (length opcodes <= length ops)%nat.
Proof.
  revert c d. induction ops as [|op ops IH]; intros c d.
  - exists []. simpl. repeat split; auto; simpl; lia.
  - change (Flow.run (op :: ops) (c, d)) with (Flow.run ops (Flow.apply (c, d) op)).
    destruct op as [chunk result|]; simpl Flow.apply.
    + unfold push. simpl.
      destruct result; simpl.
      * destruct (IH (with_readable (readable c ++ [chunk]) c) d)
          as (opcodes & E & Es & El & Ei & Hn).
        exists opcodes. simpl in *. repeat split; auto; simpl; lia.
      * destruct (_localFull c) eqn:Ef; simpl.
        -- destruct (IH (with_readable (readable c ++ [chunk]) c) d)
             as (opcodes & E & Es & El & Ei & Hn).
           exists opcodes. simpl in *. rewrite Ef in Es. repeat split; auto; simpl; lia.
        -- destruct (IH (with_localFull true (with_readable (readable c ++ [chunk]) c))
                       (Dispatcher.sendControlMessage (_local c) (_id c)
                          Opcode.ChannelBufferFull d))
             as (opcodes & E & Es & El & Ei & Hn).
           exists (Opcode.ChannelBufferFull :: opcodes). simpl in E, Es, El, Ei.
           rewrite signals_empty_full. simpl fold_left. simpl length.
           repeat split; auto; simpl; lia.
    + unfold _read. destruct (_localFull c) eqn:Ef.
      * destruct (IH (with_localFull false c)
                     (Dispatcher.sendControlMessage (_local c) (_id c)
                        Opcode.ChannelBufferEmpty d))
          as (opcodes & E & Es & El & Ei & Hn).
        exists (Opcode.ChannelBufferEmpty :: opcodes). simpl in E, Es, El, Ei.
        rewrite signals_full_empty. simpl fold_left. simpl length.
        repeat split; auto; simpl; lia.
      * destruct (IH c d) as (opcodes & E & Es & El & Ei & Hn).
        exists opcodes. rewrite Ef in Es. repeat split; auto; simpl; lia.
Qed.
End FlowSignals.

(** ** From one end of the connection to the other *)

Section Wire.
Import MultiplexWebSocket.

(** X13. The bytes of a write arrive at the peer as they were written.
    When the data loop resumes on an open socket it sends one message, and
    the ['message'] listener of any connection that receives this message
    either creates a channel of the peer's with the same id and announces
    it with the bytes as head (opcode CreateChannel), or pushes the bytes
    to its first channel with the same id and the opposite [local] flag,
    and does nothing if it has none (opcode Data). *)
Theorem sent_write_reaches_mirror_channel (source : Dispatcher.Source) (now : Z)
    (d : Dispatcher.t) (wait : Wait) (candidate : Dispatcher.Queue.t)
    (task : Dispatcher.Task.t) (result : bool) (peer : t) :
  Dispatcher.queuesAwait d = Some (wait, candidate, task) ->
  awaited wait (Dispatcher._socket d) = Some Fulfilled ->
  WebSocket.isOpen (Dispatcher._socket d) = true ->
  0 <= Dispatcher.Queue._id candidate < 2 ^ 32 ->
  exists buffer,
    WebSocket.sent (Dispatcher._socket (Dispatcher.wakeQueues source now d))
      = WebSocket.sent (Dispatcher._socket d) ++ [buffer] /\
    onMessage buffer result peer =
      Some (if Dispatcher.frameOpcode source candidate =? Opcode.CreateChannel
            then emit (EmitChannel (Dispatcher.allocated (_dispatcher peer))
                         (Some (Dispatcher.Task.data task)))
                   (initialzeChannel false (Dispatcher.Queue._id candidate) peer)
            else match find (fun x =>
                               negb (Bool.eqb (Channel._local x)
                                       (Dispatcher.Queue._local candidate))
                               && (Channel._id x =? Dispatcher.Queue._id candidate))
                         (_channels peer) with
                 | Some channel =>
                     call (Channel.push (Dispatcher.Task.data task) result) channel peer
                 | None => peer
                 end).
Proof.
  intros Ea Ew Eo Hid. change (2 ^ 32) with 4294967296 in Hid.
  assert (Hid' : 0 <= Dispatcher.Queue._id candidate <= 4294967295) by lia.
  destruct (wakeQueues_sends source now d wait candidate task Ea Ew Eo Hid')
    as (buffer & Eb & ->).
  exists buffer. split.
  - destruct (fields_processQueues_loop
                (Dispatcher.resolve task
                   (Dispatcher.with_queues
                      (Dispatcher.Queue.mutate (Dispatcher.Queue.address candidate)
                         (Dispatcher.Queue.with_lastSendTime now) (Dispatcher._queues d))
                      (Dispatcher.with_socket
                         (WebSocket.mk
                            (WebSocket.bufferedAmount (Dispatcher._socket d)
                             + Z.of_nat (length buffer))
                            (WebSocket.readyState (Dispatcher._socket d))
                            (WebSocket.sent (Dispatcher._socket d) ++ [buffer]))
                         (Dispatcher.with_queuesAwait None d)))))
      as (_ & _ & -> & _).
    reflexivity.
  - unfold onMessage.
    rewrite (parse_toBuffer (Dispatcher.frame source candidate task) buffer
               (frameOpcode_range source candidate) Hid' Eb).
    simpl.
    assert (Hop : Dispatcher.frameOpcode source candidate = Opcode.CreateChannel \/
                  Dispatcher.frameOpcode source candidate = Opcode.Data).
    { unfold Dispatcher.frameOpcode.
      destruct source, (Dispatcher.Queue._local candidate),
        (Dispatcher.Queue.lastSendTime candidate =? 0); auto. }
    destruct Hop as [-> | ->]; reflexivity.
Qed.

(** X13 on the first write of a channel of this side, received by a new
    connection: the peer announces channel 0 with the byte as head. *)
Lemma sent_write_reaches_mirror_channel_instance :
  exists buffer,
    WebSocket.sent
      (Dispatcher._socket
         (Dispatcher.wakeQueues Dispatcher.multiplex_websocket_dispatcher_ts 100
            (Sample.writing true)))
      = [] ++ [buffer] /\
    onMessage buffer true (new Sample.socket) =
      Some (emit (EmitChannel 0 (Some [x01]))
              (initialzeChannel false 0 (new Sample.socket))).
Proof.
  apply (sent_write_reaches_mirror_channel Dispatcher.multiplex_websocket_dispatcher_ts
           100 (Sample.writing true) resolvedPromise
           (Dispatcher.Queue.mk 0 true 0 [] false 0) (Dispatcher.Task.mk 0 [x01])
           true (new Sample.socket));
    try reflexivity.
  simpl. lia.
Defined.

(** X14. Back-pressure reaches the queue it is meant for. A
    ChannelBufferFull or ChannelBufferEmpty message that a channel with
    flag [local] and id [id] sends is encoded, and the connection that
    receives it sets, respectively clears, [remoteFull] of its first queue
    with the same id and the opposite flag, and changes nothing else of
    its tables. *)
Theorem flow_signal_reaches_sender_queue (local : bool) (id : Z) (full result : bool)
    (sender : t) (q : Dispatcher.Queue.t) :
  0 <= id < 2 ^ 32 ->
  NoDup (map Dispatcher.Queue.address (Dispatcher._queues (_dispatcher sender))) ->
  find (Dispatcher.Queue.matches (negb local) id)
    (Dispatcher._queues (_dispatcher sender)) = Some q ->
  exists buffer sender',
    Message.toBuffer
      (Message.mk (if full then Opcode.ChannelBufferFull else Opcode.ChannelBufferEmpty)
         local id None) = Some buffer /\
    onMessage buffer result sender = Some sender' /\
    Invariant.lookup (Dispatcher.Queue.address q) (_dispatcher sender')
      = Some (Dispatcher.Queue.with_remoteFull full q) /\
    map Dispatcher.Queue.address (Dispatcher._queues (_dispatcher sender'))
      = map Dispatcher.Queue.address (Dispatcher._queues (_dispatcher sender)) /\
    _channels sender' = _channels sender /\
    emitted sender' = emitted sender.
Proof.
  intros Hid Hnd Ef. change (2 ^ 32) with 4294967296 in Hid.
  set (m := Message.mk (if full then Opcode.ChannelBufferFull
                        else Opcode.ChannelBufferEmpty) local id None).
  assert (Hop : 0 <= Message._opcode m <= 255)
    by (destruct full; simpl;
        unfold Opcode.ChannelBufferFull, Opcode.ChannelBufferEmpty; lia).
  assert (Hid' : 0 <= Message._id m <= 4294967295) by (simpl; lia).
  pose proof (toBuffer_bytes m Hop Hid') as Eb.
  eexists. eexists. split; [exact Eb|].
  unfold onMessage. rewrite (parse_toBuffer m _ Hop Hid' Eb). simpl.
  assert (E : forall T (a b : T),
             (if (if full then Opcode.ChannelBufferFull else Opcode.ChannelBufferEmpty)
                 =? Opcode.CreateChannel then a else b) = b)
    by (intros; destruct full; reflexivity).
  rewrite E. clear E.
  assert (E : forall T (a b : T),
             (if (if full then Opcode.ChannelBufferFull else Opcode.ChannelBufferEmpty)
                 =? Opcode.Data then a else b) = b)
    by (intros; destruct full; reflexivity).
  rewrite E. clear E.
  assert (E : forall T (a b : T),
             (if (if full then Opcode.ChannelBufferFull else Opcode.ChannelBufferEmpty)
                 =? Opcode.CloseChannel then a else b) = b)
    by (intros; destruct full; reflexivity).
  rewrite E. clear E.
  assert (E : forall T (a b : T),
             (if ((if full then Opcode.ChannelBufferFull else Opcode.ChannelBufferEmpty)
                  =? Opcode.ChannelBufferFull)
                 || ((if full then Opcode.ChannelBufferFull else Opcode.ChannelBufferEmpty)
                     =? Opcode.ChannelBufferEmpty) then a else b) = a)
    by (intros; destruct full; reflexivity).
  rewrite E. clear E.
  split; [reflexivity|]. simpl.
  unfold Dispatcher.handleControlMessage. rewrite Ef. simpl.
  apply find_some in Ef. destruct Ef as [Hq _].
  split; [|split; [|split; reflexivity]].
  - unfold Invariant.lookup. simpl.
    rewrite find_mutate_same by reflexivity.
    fold (Invariant.lookup (Dispatcher.Queue.address q) (_dispatcher sender)).
    rewrite (In_lookup _ _ Hnd Hq). simpl. destruct full; reflexivity.
  - unfold Dispatcher.Queue.mutate. apply mutateAt_addresses. reflexivity.
Qed.

Lemma flow_signal_reaches_sender_queue_instance :
  exists buffer sender',
    Message.toBuffer (Message.mk Opcode.ChannelBufferFull false 0 None) = Some buffer /\
    onMessage buffer true Sample.connection = Some sender' /\
    Invariant.lookup 0 (_dispatcher sender')
      = Some (Dispatcher.Queue.mk 0 true 0 [] true 0) /\
    map Dispatcher.Queue.address (Dispatcher._queues (_dispatcher sender')) = [0%nat] /\
    _channels sender' = _channels Sample.connection /\
    emitted sender' = emitted Sample.connection.
Proof.
  apply (flow_signal_reaches_sender_queue false 0 true true Sample.connection
           (Dispatcher.Queue.mk 0 true 0 [] false 0)).
  - simpl. lia.
  - simpl. repeat constructor. simpl. tauto.
  - reflexivity.
Defined.
End Wire.

(** ** The two tables of a connection *)

Section ConnectionInvariant.
Import MultiplexWebSocket.

Lemma queueKey_with_queue (rest : list Dispatcher.Task.t) (x : Dispatcher.Queue.t) :
  Session.queueKey (Dispatcher.Queue.with_queue rest x) = Session.queueKey x.
Proof. reflexivity. Qed.

Lemma keys_processQueues_loop (d : Dispatcher.t) :
  map Session.queueKey (Dispatcher._queues (Dispatcher.processQueues_loop d))
  = map Session.queueKey (Dispatcher._queues d).
Proof. apply table_processQueues_loop. reflexivity. Qed.

Lemma keys_processQueues (d : Dispatcher.t) :
  map Session.queueKey (Dispatcher._queues (Dispatcher.processQueues d))
  = map Session.queueKey (Dispatcher._queues d).
Proof.
  unfold Dispatcher.processQueues. destruct (Dispatcher._processingQueues d);
    [reflexivity|].
  apply (keys_processQueues_loop (Dispatcher.with_processingQueues true d)).
Qed.

Lemma keys_processControlQueue_loop (d : Dispatcher.t) :
  map Session.queueKey (Dispatcher._queues (Dispatcher.processControlQueue_loop d))
  = map Session.queueKey (Dispatcher._queues d).
Proof.
  unfold Dispatcher.processControlQueue_loop. destruct (Dispatcher._controlQueue d);
    [|reflexivity].
  apply (keys_processQueues (Dispatcher.with_processingControlQueue false d)).
Qed.

(** No method of the dispatcher but [addChannel], and nothing but the
    ['close'] of a channel, changes which queue objects the table has. *)
Lemma keys_step (source : Dispatcher.Source) (d : Dispatcher.t) (event : Dispatcher.Event) :
  (forall local id, event <> Dispatcher.AddChannel local id) ->
  (forall address, event <> Dispatcher.Close address) ->
  map Session.queueKey (Dispatcher._queues (Dispatcher.step source d event))
  = map Session.queueKey (Dispatcher._queues d).
Proof.
  intros Na Nc. destruct event; simpl.
  - destruct (sendControlMessage_fields local id opcode d) as (-> & _). reflexivity.
  - unfold Dispatcher.send. destruct (find _ _); [|reflexivity]. simpl.
    rewrite keys_processQueues. simpl. apply map_mutateAt. reflexivity.
  - exfalso. exact (Na local id eq_refl).
  - exfalso. exact (Nc address eq_refl).
  - unfold Dispatcher.handleControlMessage. destruct (find _ _); [|reflexivity].
    simpl. apply map_mutateAt. reflexivity.
  - reflexivity.
  - unfold Dispatcher.wakeControl.
    destruct (Dispatcher.controlAwait d); [|reflexivity].
    destruct (awaited _ _) as [[|]|]; try reflexivity.
    destruct (Dispatcher._controlQueue d); [reflexivity|].
    destruct (bind _ _); [|reflexivity].
    rewrite keys_processControlQueue_loop. reflexivity.
  - unfold Dispatcher.wakeQueues.
    destruct (Dispatcher.queuesAwait d) as [[[wait candidate] task]|]; [|reflexivity].
    destruct (awaited _ _) as [[|]|]; [| |reflexivity];
      rewrite keys_processQueues_loop; [|reflexivity].
    unfold Dispatcher.sendTask. destruct (bind _ _); [|reflexivity].
    simpl. apply map_mutateAt. reflexivity.
Qed.

Lemma keepsTables_step (source : Dispatcher.Source) (event : Dispatcher.Event)
    (d : Dispatcher.t) :
  (forall local id, event <> Dispatcher.AddChannel local id) ->
  (forall address, event <> Dispatcher.Close address) ->
  Invariant.wf d ->
  Invariant.wf (Dispatcher.step source d event) /\
  map Session.queueKey (Dispatcher._queues (Dispatcher.step source d event))
  = map Session.queueKey (Dispatcher._queues d).
Proof.
  intros Na Nc Hwf. split; [apply wf_step; exact Hwf | apply keys_step; assumption].
Qed.

Lemma keepsTables_sendControlMessage (local : bool) (id opcode : Z) (d : Dispatcher.t) :
  Invariant.wf d ->
  Invariant.wf (Dispatcher.sendControlMessage local id opcode d) /\
  map Session.queueKey
    (Dispatcher._queues (Dispatcher.sendControlMessage local id opcode d))
  = map Session.queueKey (Dispatcher._queues d).
Proof.
  apply (keepsTables_step Dispatcher.index_ts
           (Dispatcher.SendControlMessage local id opcode)); discriminate.
Qed.

Lemma keepsTables_send (local : bool) (id : Z) (data : list byte) (d : Dispatcher.t) :
  Invariant.wf d ->
  Invariant.wf (fst (Dispatcher.send local id data d)) /\
  map Session.queueKey (Dispatcher._queues (fst (Dispatcher.send local id data d)))
  = map Session.queueKey (Dispatcher._queues d).
Proof.
  apply (keepsTables_step Dispatcher.index_ts (Dispatcher.Send local id data));
    discriminate.
Qed.

(** The methods of a channel: what they keep of the name of the channel
    and of the tables, and that a failed channel is a destroyed one. *)
Lemma keepsTables_intro
    (method : Channel.t -> Dispatcher.t -> Channel.t * Dispatcher.t) :
  (forall x d,
      Invariant.wf d ->
      Session.channelKey (fst (method x d)) = Session.channelKey x /\
      Invariant.wf (snd (method x d)) /\
      map Session.queueKey (Dispatcher._queues (snd (method x d)))
      = map Session.queueKey (Dispatcher._queues d)) ->
  (forall x d,
      (Channel.errored x = true -> Channel.destroyed x = true) ->
      Channel.errored (fst (method x d)) = true ->
      Channel.destroyed (fst (method x d)) = true) ->
  Session.keepsTables method.
Proof.
  intros H1 H2 x d Hwf. destruct (H1 x d Hwf) as (Hk & Hw & Hq).
  split; [exact Hk | split; [exact Hw | split; [exact Hq | apply H2]]].
Qed.

(** A channel that has failed is destroyed: the goals of this form. *)
Ltac flags :=
  simpl; intros; try reflexivity; try assumption; try congruence;
  match goal with
  | Hf : ?P -> _, He : ?P |- _ => specialize (Hf He); congruence
  end.

Lemma tables_read (x : Channel.t) (d : Dispatcher.t) :
  Invariant.wf d ->
  Session.channelKey (fst (Channel._read x d)) = Session.channelKey x /\
  Invariant.wf (snd (Channel._read x d)) /\
  map Session.queueKey (Dispatcher._queues (snd (Channel._read x d)))
  = map Session.queueKey (Dispatcher._queues d).
Proof.
  intros Hwf. unfold Channel._read. destruct (Channel._localFull x); simpl; auto.
  split; [reflexivity|]. apply keepsTables_sendControlMessage. exact Hwf.
Qed.

Lemma keepsTables_read : Session.keepsTables Session.read.
Proof.
  apply keepsTables_intro.
  - intros x d Hwf. unfold Session.read. destruct (Channel.destroyed x);
      [simpl; auto | apply tables_read; exact Hwf].
  - intros x d Hf. unfold Session.read, Channel._read.
    destruct (Channel.destroyed x) eqn:Ed; [flags|].
    destruct (Channel._localFull x); flags.
Qed.

Lemma keepsTables_push (chunk : list byte) (result : bool) :
  Session.keepsTables (Channel.push chunk result).
Proof.
  apply keepsTables_intro.
  - intros x d Hwf. unfold Channel.push.
    destruct (negb result && negb _); simpl; auto.
    split; [reflexivity|]. apply keepsTables_sendControlMessage. exact Hwf.
  - intros x d Hf. unfold Channel.push. destruct (negb result && negb _); flags.
Qed.

Lemma keepsTables_final : Session.keepsTables Channel._final.
Proof.
  apply keepsTables_intro.
  - intros x d Hwf. unfold Channel._final. simpl.
    split; [reflexivity|]. apply keepsTables_sendControlMessage. exact Hwf.
  - intros x d _ _. reflexivity.
Qed.

Lemma keepsTables__write (chunk : list byte) : Session.keepsTables (Channel._write chunk).
Proof.
  apply keepsTables_intro.
  - intros x d Hwf. unfold Channel._write.
    pose proof (keepsTables_send (Channel._local x) (Channel._id x) chunk d Hwf) as H.
    destruct (Dispatcher.send _ _ _ _) as [d' [message|promise]]; simpl in *; auto.
  - intros x d Hf. unfold Channel._write.
    destruct (Dispatcher.send _ _ _ _) as [d' [message|promise]]; flags.
Qed.

(** A method that does nothing to the dispatcher nor to the name of the
    channel. *)
Lemma tables_skip (x x' : Channel.t) (d : Dispatcher.t) :
  Invariant.wf d ->
  Session.channelKey x' = Session.channelKey x ->
  Session.channelKey x' = Session.channelKey x /\
  Invariant.wf d /\
  map Session.queueKey (Dispatcher._queues d) = map Session.queueKey (Dispatcher._queues d).
Proof. intros Hwf E. split; [exact E | split; [exact Hwf | reflexivity]]. Qed.

Lemma tables_of (method : Channel.t -> Dispatcher.t -> Channel.t * Dispatcher.t)
    (x : Channel.t) (d : Dispatcher.t) :
  Session.keepsTables method ->
  Invariant.wf d ->
  Session.channelKey (fst (method x d)) = Session.channelKey x /\
  Invariant.wf (snd (method x d)) /\
  map Session.queueKey (Dispatcher._queues (snd (method x d)))
  = map Session.queueKey (Dispatcher._queues d).
Proof.
  intros Hm Hwf. destruct (Hm x d Hwf) as (H1 & H2 & H3 & _).
  split; [exact H1 | split; [exact H2 | exact H3]].
Qed.

Lemma keepsTables_write (chunk : list byte) : Session.keepsTables (Channel.write chunk).
Proof.
  apply keepsTables_intro.
  - intros x d Hwf. unfold Channel.write.
    destruct (Channel.ending x || Channel.errored x || Channel.destroyed x);
      [exact (tables_skip x x d Hwf eq_refl)|].
    destruct (Channel.writing x);
      [exact (tables_skip x _ d Hwf eq_refl)|].
    exact (tables_of _ x d (keepsTables__write chunk) Hwf).
  - intros x d Hf. unfold Channel.write, Channel._write.
    destruct (Channel.ending x || Channel.errored x || Channel.destroyed x); [flags|].
    destruct (Channel.writing x); [flags|].
    destruct (Dispatcher.send _ _ _ _) as [d' [message|promise]]; flags.
Qed.

Lemma keepsTables_end : Session.keepsTables Channel.end_.
Proof.
  apply keepsTables_intro.
  - intros x d Hwf. unfold Channel.end_.
    destruct (Channel.ending x || Channel.errored x || Channel.destroyed x);
      [exact (tables_skip x x d Hwf eq_refl)|].
    simpl Channel.writing.
    destruct (Channel.writing x);
      [exact (tables_skip x _ d Hwf eq_refl)|].
    exact (tables_of _ (Channel.with_ending true x) d keepsTables_final Hwf).
  - intros x d Hf. unfold Channel.end_, Channel._final.
    destruct (Channel.ending x || Channel.errored x || Channel.destroyed x); [flags|].
    simpl Channel.writing. destruct (Channel.writing x); flags.
Qed.

Lemma keepsTables_written (how : Settlement) : Session.keepsTables (Channel.written how).
Proof.
  apply keepsTables_intro.
  - intros x d Hwf. unfold Channel.written. destruct how.
    + simpl Channel.destroyed. destruct (Channel.destroyed x);
        [exact (tables_skip x _ d Hwf eq_refl)|].
      simpl Channel.buffered. destruct (Channel.buffered x) as [|chunk rest].
      * simpl Channel.ending. destruct (Channel.ending x).
        -- exact (tables_of _ (Channel.with_writing None x) d keepsTables_final Hwf).
        -- exact (tables_skip x _ d Hwf eq_refl).
      * exact (tables_of _ (Channel.with_buffered rest (Channel.with_writing None x)) d
                 (keepsTables__write chunk) Hwf).
    + exact (tables_skip x _ d Hwf eq_refl).
  - intros x d Hf. unfold Channel.written, Channel._write, Channel._final.
    destruct how; [|flags].
    simpl Channel.destroyed. destruct (Channel.destroyed x) eqn:Ed; [flags|].
    simpl Channel.buffered. destruct (Channel.buffered x) as [|chunk rest].
    + simpl Channel.ending. destruct (Channel.ending x); flags.
    + destruct (Dispatcher.send _ _ _ _) as [d' [message|promise]]; flags.
Qed.

Lemma map_address_replace_cons (pre post : list Channel.t) (x x' : Channel.t) :
  Channel.address x' = Channel.address x ->
  map Channel.address (pre ++ x' :: post) = map Channel.address (pre ++ x :: post).
Proof. intros E. rewrite !map_app. simpl. rewrite E. reflexivity. Qed.

Lemma NoDup_address_prefix (pre post : list Channel.t) (x : Channel.t) :
  NoDup (map Channel.address (pre ++ x :: post)) ->
  forall y, In y pre -> Channel.address y <> Channel.address x.
Proof.
  intros Hnd y Hy E. rewrite map_app in Hnd. simpl in Hnd.
  apply NoDup_remove_2 in Hnd. apply Hnd. apply in_or_app. left.
  rewrite <- E. apply in_map. exact Hy.
Qed.

Lemma channel_addresses (channels : list Channel.t) :
  map Channel.address channels
  = map (fun key : nat * bool * Z => fst (fst key)) (map Session.channelKey channels).
Proof. rewrite map_map. reflexivity. Qed.

Lemma queue_addresses (queues : list Dispatcher.Queue.t) :
  map Dispatcher.Queue.address queues
  = map (fun key : nat * bool * Z => fst (fst key)) (map Session.queueKey queues).
Proof. rewrite map_map. reflexivity. Qed.

Lemma ok_channel_addresses (c : t) :
  Session.ok c -> NoDup (map Channel.address (_channels c)).
Proof.
  intros Hok. rewrite channel_addresses, (Session.ok_tables c Hok), <- queue_addresses.
  apply Invariant.wf_addresses, Session.ok_dispatcher, Hok.
Qed.

(** A connection whose channels are some of those of a connection that
    satisfies the invariant, with the same names and the same counter. *)
Lemma ok_intro (c0 : t) (d : Dispatcher.t) (channels : list Channel.t)
    (log : list Emitted) :
  Session.ok c0 ->
  Invariant.wf d ->
  map Session.channelKey channels = map Session.queueKey (Dispatcher._queues d) ->
  (forall key, In key (map Session.channelKey channels) ->
               In key (map Session.channelKey (_channels c0))) ->
  (forall y, In y channels -> Channel.errored y = true -> Channel.destroyed y = true) ->
  Session.ok (mk d (_id c0) channels log).
Proof.
  intros Hok Hwf Ht Hsub Hf. constructor; simpl.
  - exact Hwf.
  - exact Ht.
  - exact (Session.ok_counter c0 Hok).
  - intros address id H. apply (Session.ok_ids c0 Hok address id), Hsub, H.
  - intros address address' id H H'.
    apply (Session.ok_distinct c0 Hok address address' id); apply Hsub; assumption.
  - exact Hf.
Qed.

(** What [invoke] leaves of the connection. *)
Lemma invoke_fields (method : Channel.t -> Dispatcher.t -> Channel.t * Dispatcher.t)
    (pre post : list Channel.t) (x : Channel.t) (c : t) :
  _channels c = pre ++ x :: post ->
  NoDup (map Channel.address (pre ++ x :: post)) ->
  invoke method x c
  = mk (snd (method x (_dispatcher c))) (_id c)
       (pre ++ fst (method x (_dispatcher c)) :: post) (emitted c).
Proof.
  intros Et Hnd. unfold invoke. destruct (method x (_dispatcher c)) as [x' d'].
  unfold Channel.mutate. rewrite Et, (mutateAt_split _ _ pre post x Hnd). reflexivity.
Qed.

(** The invariant is kept when a method that keeps the tables runs on a
    channel of the table. *)
Lemma ok_invoke (method : Channel.t -> Dispatcher.t -> Channel.t * Dispatcher.t)
    (x : Channel.t) (c : t) :
  Session.keepsTables method -> Session.ok c -> In x (_channels c) ->
  Session.ok (invoke method x c).
Proof.
  intros Hm Hok Hx.
  pose proof (ok_channel_addresses c Hok) as Hnd.
  destruct (in_split x _ Hx) as (pre & post & Et).
  destruct (Hm x (_dispatcher c) (Session.ok_dispatcher c Hok)) as (Hk & Hwf & Hq & Hf).
  rewrite Et in Hnd. rewrite (invoke_fields method pre post x c Et Hnd).
  assert (Hkeys : map Session.channelKey (pre ++ fst (method x (_dispatcher c)) :: post)
                  = map Session.channelKey (_channels c)).
  { rewrite Et, !map_app. simpl. rewrite Hk. reflexivity. }
  apply (ok_intro c).
  - exact Hok.
  - exact Hwf.
  - rewrite Hkeys, Hq. apply (Session.ok_tables c Hok).
  - intros key Hkey. rewrite <- Hkeys. exact Hkey.
  - intros y Hy. apply in_app_or in Hy. destruct Hy as [Hy|[<-|Hy]].
    + apply (Session.ok_failed c Hok). rewrite Et. apply in_or_app. auto.
    + apply Hf. apply (Session.ok_failed c Hok x Hx).
    + apply (Session.ok_failed c Hok). rewrite Et. apply in_or_app. simpl. auto.
Qed.

(** The two tables have their objects at the same places. *)
Lemma indexOf_agree (address : nat) (channels : list Channel.t)
    (queues : list Dispatcher.Queue.t) :
  map Session.channelKey channels = map Session.queueKey queues ->
  Channel.indexOf address channels = Dispatcher.Queue.indexOf address queues.
Proof.
  revert queues. induction channels as [|x channels IH]; intros [|q queues] E;
    try discriminate; [reflexivity|].
  simpl in E. injection E as Ea _ _ E.
  unfold Channel.indexOf, Dispatcher.Queue.indexOf in *. simpl.
  rewrite Ea, (IH queues E). reflexivity.
Qed.

Lemma map_splice (A B : Type) (g : A -> B) (index : nat) (array : list A) :
  map g (splice index array) = splice index (map g array).
Proof. unfold splice. rewrite map_app, firstn_map, skipn_map. reflexivity. Qed.

(** A channel emits ['close']: it and its queue leave the tables. *)
Lemma ok_onChannelClose (address : nat) (c : t) :
  Session.ok c -> Session.ok (onChannelClose address c).
Proof.
  intros Hok. unfold onChannelClose. simpl _channels.
  pose proof (Session.ok_tables c Hok) as Ht.
  rewrite (indexOf_agree address _ _ Ht).
  unfold Dispatcher.onClose.
  destruct (Dispatcher.Queue.indexOf address (Dispatcher._queues (_dispatcher c)))
    as [index|] eqn:Ei.
  - apply (ok_intro c).
    + exact Hok.
    + pose proof (wf_onClose address (_dispatcher c) (Session.ok_dispatcher c Hok)) as H.
      unfold Dispatcher.onClose in H. rewrite Ei in H. exact H.
    + simpl. rewrite !map_splice, Ht. reflexivity.
    + intros key Hkey. rewrite map_splice in Hkey. apply In_splice in Hkey. exact Hkey.
    + intros y Hy. apply In_splice in Hy. apply (Session.ok_failed c Hok y Hy).
  - apply (ok_intro c); auto.
    + apply (Session.ok_dispatcher c Hok).
    + apply (Session.ok_failed c Hok).
Qed.

Lemma ok_tick (c : t) : Session.ok c -> Session.ok (tick c).
Proof.
  unfold tick. generalize (_channels c) as rest. intros rest. revert c.
  induction rest as [|x rest IH]; intros c Hok; simpl; [exact Hok|].
  apply IH. destruct (Channel.destroyed x); [apply ok_onChannelClose|]; exact Hok.
Qed.

(** After the tick the table has the channels that were not destroyed. *)
Lemma tick_fold (rest kept : list Channel.t) (c : t) :
  _channels c = kept ++ rest ->
  NoDup (map Channel.address (kept ++ rest)) ->
  _channels
    (fold_left
       (fun c channel =>
          if Channel.destroyed channel
          then onChannelClose (Channel.address channel) c
          else c)
       rest c)
  = kept ++ filter (fun x => negb (Channel.destroyed x)) rest.
Proof.
  revert kept c. induction rest as [|x rest IH]; intros kept c Et Hnd; simpl.
  - rewrite app_nil_r in Et. rewrite app_nil_r. exact Et.
  - destruct (Channel.destroyed x) eqn:Ed; simpl.
    + apply IH.
      * unfold onChannelClose. simpl _channels. rewrite Et. unfold Channel.indexOf.
        rewrite (indexOfAt_split _ Channel.address kept rest x
                   (NoDup_address_prefix kept rest x Hnd)).
        simpl. apply splice_split.
      * rewrite map_app in *. simpl in Hnd. apply NoDup_remove_1 in Hnd. exact Hnd.
    + rewrite (IH (kept ++ [x]) c).
      * rewrite <- app_assoc. reflexivity.
      * rewrite <- app_assoc. exact Et.
      * rewrite <- app_assoc. exact Hnd.
Qed.

Lemma tick_channels (c : t) :
  NoDup (map Channel.address (_channels c)) ->
  _channels (tick c) = filter (fun x => negb (Channel.destroyed x)) (_channels c).
Proof. intros Hnd. exact (tick_fold (_channels c) [] c eq_refl Hnd). Qed.

Lemma tick_skips (rest : list Channel.t) (c : t) :
  (forall y, In y rest -> Channel.destroyed y = false) ->
  fold_left
    (fun c channel =>
       if Channel.destroyed channel
       then onChannelClose (Channel.address channel) c
       else c)
    rest c
  = c.
Proof.
  revert c. induction rest as [|x rest IH]; intros c H; simpl; [reflexivity|].
  rewrite (H x (or_introl eq_refl)). apply IH. intros y Hy. apply H. right. exact Hy.
Qed.

(** [call] is the call followed by the tick, when no channel of the table
    was waiting for its ['close']. *)
Lemma call_invoke_tick (method : Channel.t -> Dispatcher.t -> Channel.t * Dispatcher.t)
    (x : Channel.t) (c : t) :
  NoDup (map Channel.address (_channels c)) ->
  (forall y, In y (_channels c) -> Channel.destroyed y = false) ->
  In x (_channels c) ->
  Channel.address (fst (method x (_dispatcher c))) = Channel.address x ->
  call method x c = tick (invoke method x c).
Proof.
  intros Hnd Ha Hx Ea.
  destruct (in_split x _ Hx) as (pre & post & Et). rewrite Et in Hnd.
  rewrite (invoke_fields method pre post x c Et Hnd).
  unfold call. destruct (method x (_dispatcher c)) as [x' d']. simpl in Ea |- *.
  unfold Channel.mutate. rewrite Et, (mutateAt_split _ _ pre post x Hnd).
  rewrite (Ha x Hx), Bool.andb_true_r.
  unfold tick. simpl _channels. rewrite fold_left_app. simpl fold_left.
  rewrite (tick_skips pre)
    by (intros y Hy; apply Ha; rewrite Et; apply in_or_app; auto).
  rewrite Ea.
  destruct (Channel.destroyed x'); rewrite tick_skips; try reflexivity;
    intros y Hy; apply Ha; rewrite Et; apply in_or_app; simpl; auto.
Qed.

Lemma ok_new (socket : WebSocket.t) : Session.ok (new socket).
Proof.
  constructor; simpl.
  - apply wf_new.
  - reflexivity.
  - lia.
  - intros address id [].
  - intros address address' id [].
  - intros x [].
Qed.

Lemma ok_with_dispatcher (d : Dispatcher.t) (c : t) :
  Session.ok c ->
  Invariant.wf d ->
  map Session.queueKey (Dispatcher._queues d)
    = map Session.queueKey (Dispatcher._queues (_dispatcher c)) ->
  Session.ok (with_dispatcher d c).
Proof.
  intros Hok Hwf Hq. apply (ok_intro c); auto.
  - rewrite Hq. apply (Session.ok_tables c Hok).
  - apply (Session.ok_failed c Hok).
Qed.

Lemma ok_emit (event : Emitted) (c : t) : Session.ok c -> Session.ok (emit event c).
Proof.
  intros Hok. apply (ok_intro c); auto.
  - apply (Session.ok_dispatcher c Hok).
  - apply (Session.ok_tables c Hok).
  - apply (Session.ok_failed c Hok).
Qed.

Lemma keys_initialzeChannel (local : bool) (id : Z) (c : t) :
  map Session.channelKey (_channels (initialzeChannel local id c))
  = map Session.channelKey (_channels c)
    ++ [(Dispatcher.allocated (_dispatcher c), local, id)].
Proof. unfold initialzeChannel. simpl. rewrite map_app. reflexivity. Qed.

Lemma ok_initialzeChannel_tables (local : bool) (id : Z) (c : t) :
  Session.ok c ->
  Invariant.wf (_dispatcher (initialzeChannel local id c)) /\
  map Session.channelKey (_channels (initialzeChannel local id c))
  = map Session.queueKey (Dispatcher._queues (_dispatcher (initialzeChannel local id c)))
  /\
  forall x, In x (_channels (initialzeChannel local id c)) ->
            Channel.errored x = true -> Channel.destroyed x = true.
Proof.
  intros Hok. split; [|split].
  - apply wf_addChannel, (Session.ok_dispatcher c Hok).
  - rewrite keys_initialzeChannel. unfold initialzeChannel. simpl.
    rewrite map_app, (Session.ok_tables c Hok). reflexivity.
  - unfold initialzeChannel. simpl. intros x Hx. apply in_app_or in Hx.
    destruct Hx as [Hx|[<-|[]]]; [apply (Session.ok_failed c Hok x Hx) | discriminate].
Qed.

(** A channel that the peer creates. *)
Lemma ok_createChannel (id : Z) (c : t) :
  Session.ok c -> Session.ok (initialzeChannel false id c).
Proof.
  intros Hok. destruct (ok_initialzeChannel_tables false id c Hok) as (Hwf & Ht & Hf).
  assert (Hsub : forall address id',
             In (address, true, id')
               (map Session.channelKey (_channels (initialzeChannel false id c))) ->
             In (address, true, id') (map Session.channelKey (_channels c))).
  { intros address id' H. rewrite keys_initialzeChannel in H.
    apply in_app_or in H. destruct H as [H|[H|[]]]; [exact H | discriminate]. }
  constructor; auto.
  - apply (Session.ok_counter c Hok).
  - intros address id' H. apply (Session.ok_ids c Hok address id'), Hsub, H.
  - intros address address' id' H H'.
    apply (Session.ok_distinct c Hok address address' id'); apply Hsub; assumption.
Qed.

(** A channel that the application creates takes the counter as its id. *)
Lemma ok_addChannel (c : t) : Session.ok c -> Session.ok (addChannel c).
Proof.
  intros Hok. unfold addChannel.
  assert (Hok1 : Session.ok (with_id (_id c + 1) c)).
  { pose proof (Session.ok_counter c Hok).
    constructor; simpl.
    - apply (Session.ok_dispatcher c Hok).
    - apply (Session.ok_tables c Hok).
    - lia.
    - intros address id H'. pose proof (Session.ok_ids c Hok address id H'). lia.
    - apply (Session.ok_distinct c Hok).
    - apply (Session.ok_failed c Hok). }
  destruct (ok_initialzeChannel_tables true (_id c) _ Hok1) as (Hwf & Ht & Hf).
  pose proof (Session.ok_counter c Hok) as Hc.
  assert (Hkeys : forall address id,
             In (address, true, id)
               (map Session.channelKey
                  (_channels (initialzeChannel true (_id c) (with_id (_id c + 1) c)))) ->
             In (address, true, id) (map Session.channelKey (_channels c)) \/
             (address = Dispatcher.allocated (_dispatcher c) /\ id = _id c)).
  { intros address id H. rewrite keys_initialzeChannel in H. simpl in H.
    apply in_app_or in H. destruct H as [H|[H|[]]]; [auto|].
    injection H as <- <-. auto. }
  constructor; auto.
  - simpl. lia.
  - intros address id H. simpl. apply Hkeys in H. destruct H as [H|[_ ->]]; [|lia].
    pose proof (Session.ok_ids c Hok address id H). lia.
  - intros address address' id H H'. apply Hkeys in H. apply Hkeys in H'.
    destruct H as [H|[-> ->]], H' as [H'|[E E']].
    + apply (Session.ok_distinct c Hok address address' id); assumption.
    + subst id. pose proof (Session.ok_ids c Hok address _ H). lia.
    + pose proof (Session.ok_ids c Hok address' _ H'). lia.
    + congruence.
Qed.

Lemma ok_onMessage (data : list byte) (pushResult : bool) (c c' : t) :
  Session.ok c -> onMessageBy invoke data pushResult c = Some c' -> Session.ok c'.
Proof.
  intros Hok. unfold onMessageBy. destruct (Message.parse data) as [message|];
    [|discriminate]. simpl. intros [= <-].
  destruct (Message._opcode message =? Opcode.CreateChannel).
  { apply ok_emit, ok_createChannel, Hok. }
  destruct (Message._opcode message =? Opcode.Data).
  { destruct (find _ _) as [channel|] eqn:Ef; [|exact Hok].
    apply find_some in Ef. apply ok_invoke; [apply keepsTables_push | exact Hok | tauto]. }
  destruct (Message._opcode message =? Opcode.CloseChannel).
  { destruct (find _ _) as [channel|] eqn:Ef; [|exact Hok].
    apply find_some in Ef. apply ok_invoke; [apply keepsTables_end | exact Hok | tauto]. }
  destruct ((Message._opcode message =? Opcode.ChannelBufferFull)
            || (Message._opcode message =? Opcode.ChannelBufferEmpty)); [|exact Hok].
  apply ok_with_dispatcher; [exact Hok | |].
  - apply wf_handleControlMessage, (Session.ok_dispatcher c Hok).
  - apply (keys_step Dispatcher.index_ts (_dispatcher c)
             (Dispatcher.HandleControlMessage (negb (Message._local message))
                (Message._id message) (Message._opcode message))); discriminate.
Qed.

Lemma ok_onChannel (address : nat)
    (method : Channel.t -> Dispatcher.t -> Channel.t * Dispatcher.t) (c : t) :
  Session.keepsTables method -> Session.ok c -> Session.ok (Session.onChannel address method c).
Proof.
  intros Hm Hok. unfold Session.onChannel, Session.at_.
  destruct (find _ _) as [channel|] eqn:Ef; [|exact Hok].
  apply find_some in Ef. apply ok_invoke; [exact Hm | exact Hok | tauto].
Qed.

Lemma ok_end_each (rest pre : list Channel.t) (c : t) :
  Session.ok c ->
  _channels c = pre ++ rest ->
  Session.ok (fold_left (fun c channel => invoke Channel.end_ channel c) rest c).
Proof.
  revert pre c. induction rest as [|x rest IH]; intros pre c Hok Et; simpl; [exact Hok|].
  apply (IH (pre ++ [fst (Channel.end_ x (_dispatcher c))])).
  - apply ok_invoke; [apply keepsTables_end | exact Hok |].
    rewrite Et. apply in_or_app. simpl. auto.
  - rewrite (invoke_fields Channel.end_ pre rest x c Et).
    + simpl. rewrite <- app_assoc. reflexivity.
    + rewrite <- Et. apply ok_channel_addresses, Hok.
Qed.

Lemma ok_wakeQueues (source : Dispatcher.Source) (now : Z) (c : t) :
  Session.ok c -> Session.ok (wakeQueuesBy invoke source now c).
Proof.
  intros Hok. unfold wakeQueuesBy.
  assert (Hok1 : Session.ok
                   (with_dispatcher (Dispatcher.wakeQueues source now (_dispatcher c)) c)).
  { apply ok_with_dispatcher; [exact Hok | |].
    - apply wf_wakeQueues, (Session.ok_dispatcher c Hok).
    - apply (keys_step source (_dispatcher c) (Dispatcher.WakeQueues now)); discriminate. }
  destruct (Dispatcher.queuesAwait (_dispatcher c)) as [[[wait candidate] task]|];
    [|exact Hok1].
  destruct (status _ (Dispatcher.settled (Dispatcher.wakeQueues _ _ _))) as [how|];
    [|exact Hok1].
  destruct (status _ (Dispatcher.settled (_dispatcher c))); [exact Hok1|].
  destruct (find _ _) as [channel|] eqn:Ef; [|exact Hok1].
  apply find_some in Ef. apply ok_invoke; [apply keepsTables_written | exact Hok1 | tauto].
Qed.

Lemma ok_step (source : Dispatcher.Source) (c : t) (event : Session.Event) :
  Session.ok c -> Session.ok (Session.step source c event).
Proof.
  intros Hok. destruct event; simpl.
  - apply ok_addChannel, Hok.
  - destruct (onMessageBy invoke data pushResult c) as [c'|] eqn:E; [|exact Hok].
    exact (ok_onMessage data pushResult c c' Hok E).
  - apply ok_onChannel; [apply keepsTables_write | exact Hok].
  - apply ok_onChannel; [apply keepsTables_end | exact Hok].
  - apply ok_onChannel; [apply keepsTables_read | exact Hok].
  - apply ok_emit, Hok.
  - apply ok_emit, (ok_end_each (_channels c) [] c Hok eq_refl).
  - apply ok_with_dispatcher; [exact Hok | |].
    + apply (wf_step source (_dispatcher c) (Dispatcher.Socket bufferedAmount readyState)),
        (Session.ok_dispatcher c Hok).
    + reflexivity.
  - apply ok_with_dispatcher; [exact Hok | |].
    + apply wf_wakeControl, (Session.ok_dispatcher c Hok).
    + apply (keys_step source (_dispatcher c) Dispatcher.WakeControl); discriminate.
  - apply ok_wakeQueues, Hok.
  - apply ok_tick, Hok.
Qed.

Lemma ok_run (source : Dispatcher.Source) (events : list Session.Event) (c : t) :
  Session.ok c -> Session.ok (Session.run source c events).
Proof.
  revert c. induction events as [|event events IH]; intros c Hok; simpl; [exact Hok|].
  apply IH, ok_step, Hok.
Qed.

(** X16. What every connection satisfies at every point, also between a
    listener and the tick that follows it, whatever the application, the
    peer, the socket and the scheduler do from the constructor on: the
    table of channels and the dispatcher's table of queues hold the same
    objects with the same flags and ids in the same order; the channels
    created on this side have distinct ids, below the counter; a channel
    on which a write failed is destroyed; the dispatcher is well formed.
    A destroyed channel stays in the tables until the next tick, and after
    a tick no channel of the table is destroyed. *)
Theorem reachable_connection_tables_agree (source : Dispatcher.Source)
    (socket : WebSocket.t) (events : list Session.Event) :
  let c := Session.run source (new socket) events in
  Session.ok c /\
  _channels (tick c) = filter (fun x => negb (Channel.destroyed x)) (_channels c) /\
  map Session.queueKey (Dispatcher._queues (_dispatcher (tick c)))
  = map Session.channelKey (_channels (tick c)).
Proof.
  intros c. pose proof (ok_run source events (new socket) (ok_new socket)) as Hok.
  fold c in Hok. split; [exact Hok|]. split.
  - apply tick_channels, ok_channel_addresses, Hok.
  - symmetry. apply (Session.ok_tables (tick c)), ok_tick, Hok.
Qed.

(** X17. A write on a channel that is in the table is never refused by
    the dispatcher: [send] finds a queue with the flag and id of the
    channel and returns a promise, so [_write] does not get ['cannot write
    after end']. For a channel created on this side the queue found is the
    channel's own. *)
Theorem live_channel_write_is_accepted (source : Dispatcher.Source) (socket : WebSocket.t)
    (events : list Session.Event) (x : Channel.t) (chunk : list byte) :
  let c := Session.run source (new socket) events in
  In x (_channels c) ->
  exists queue,
    find (Dispatcher.Queue.matches (Channel._local x) (Channel._id x))
      (Dispatcher._queues (_dispatcher c)) = Some queue /\
    snd (Dispatcher.send (Channel._local x) (Channel._id x) chunk (_dispatcher c))
      = inr (Dispatcher.resolvers (_dispatcher c)) /\
    (Channel._local x = true -> Dispatcher.Queue.address queue = Channel.address x).
Proof.
  intros c Hx. pose proof (ok_run source events (new socket) (ok_new socket)) as Hok.
  fold c in Hok. pose proof (Session.ok_tables c Hok) as Ht.
  assert (Hkey : In (Session.channelKey x)
                   (map Session.queueKey (Dispatcher._queues (_dispatcher c))))
    by (rewrite <- Ht; apply in_map; exact Hx).
  apply in_map_iff in Hkey. destruct Hkey as (q & Kq & Hq).
  unfold Session.queueKey, Session.channelKey in Kq. injection Kq as Ea El Ei.
  destruct (find (Dispatcher.Queue.matches (Channel._local x) (Channel._id x))
              (Dispatcher._queues (_dispatcher c))) as [queue|] eqn:Ef.
  - exists queue. split; [reflexivity|]. split.
    + unfold Dispatcher.send. rewrite Ef. reflexivity.
    + intros Elocal. apply find_some in Ef. destruct Ef as [Hqueue Hm].
      unfold Dispatcher.Queue.matches in Hm. apply andb_true_iff in Hm.
      destruct Hm as [Hl Hi]. apply Bool.eqb_prop in Hl. apply Z.eqb_eq in Hi.
      apply (Session.ok_distinct c Hok _ _ (Channel._id x)).
      * rewrite Ht. apply in_map_iff. exists queue. split; [|exact Hqueue].
        unfold Session.queueKey. rewrite Hl, Hi, Elocal. reflexivity.
      * apply in_map_iff. exists x. split; [|exact Hx].
        unfold Session.channelKey. rewrite Elocal. reflexivity.
  - exfalso. apply (find_none _ _ Ef q) in Hq.
    unfold Dispatcher.Queue.matches in Hq. rewrite El, Ei, Bool.eqb_reflx, Z.eqb_refl in Hq.
    discriminate.
Qed.

(** X17 on the second of two channels, after the first was ended. *)
Lemma live_channel_write_is_accepted_instance :
  let c := Session.run Dispatcher.index_ts (new Sample.socket)
             [Session.AddChannel; Session.AddChannel; Session.ChannelEnd 0] in
  exists queue,
    find (Dispatcher.Queue.matches true 1) (Dispatcher._queues (_dispatcher c))
      = Some queue /\
    snd (Dispatcher.send true 1 [x01] (_dispatcher c))
      = inr (Dispatcher.resolvers (_dispatcher c)) /\
    (true = true -> Dispatcher.Queue.address queue = 1%nat).
Proof.
  apply (live_channel_write_is_accepted Dispatcher.index_ts Sample.socket
           [Session.AddChannel; Session.AddChannel; Session.ChannelEnd 0]
           (Channel.new 1 true 1) [x01]).
  vm_compute. right. left. reflexivity.
Defined.
End ConnectionInvariant.

(** ** A turn is a listener and the tick after it *)

Section Turn.
Import MultiplexWebSocket.

Lemma onMessage_by_call (data : list byte) (pushResult : bool) (c : t) :
  onMessage data pushResult c = onMessageBy call data pushResult c.
Proof. reflexivity. Qed.

Lemma onClose_by_call (c : t) : onClose c = onCloseBy call c.
Proof. reflexivity. Qed.

Lemma wakeQueues_by_call (source : Dispatcher.Source) (now : Z) (c : t) :
  wakeQueues source now c = wakeQueuesBy call source now c.
Proof. reflexivity. Qed.

Lemma tick_idle (c : t) :
  (forall y, In y (_channels c) -> Channel.destroyed y = false) -> tick c = c.
Proof. intros H. unfold tick. apply tick_skips. exact H. Qed.

Lemma address_push (chunk : list byte) (result : bool) (x : Channel.t) (d : Dispatcher.t) :
  Channel.address (fst (Channel.push chunk result x d)) = Channel.address x.
Proof. unfold Channel.push. destruct (negb result && negb _); reflexivity. Qed.

Lemma address_end (x : Channel.t) (d : Dispatcher.t) :
  Channel.address (fst (Channel.end_ x d)) = Channel.address x.
Proof.
  unfold Channel.end_. destruct (_ || _); [reflexivity|].
  simpl Channel.writing. destruct (Channel.writing x); reflexivity.
Qed.

(** X22. The ['message'] listener taken as a whole turn, [onMessage],
    in which a channel that is destroyed leaves the tables at once, is the
    listener up to its return followed by the next tick, on every
    connection in which no channel is waiting for its ['close']: the two
    give the same connection for every message. *)
Theorem message_turn_is_listener_then_tick (data : list byte) (pushResult : bool)
    (c : t) :
  NoDup (map Channel.address (_channels c)) ->
  (forall y, In y (_channels c) -> Channel.destroyed y = false) ->
  onMessage data pushResult c = option_map tick (onMessageBy invoke data pushResult c).
Proof.
  intros Hnd Ha. unfold onMessage, onMessageBy.
  destruct (Message.parse data) as [message|]; [|reflexivity]. simpl. f_equal.
  destruct (Message._opcode message =? Opcode.CreateChannel).
  { symmetry. apply tick_idle. unfold initialzeChannel. simpl. intros y Hy.
    apply in_app_or in Hy. destruct Hy as [Hy|[<-|[]]]; [apply Ha, Hy | reflexivity]. }
  destruct (Message._opcode message =? Opcode.Data).
  { destruct (find _ _) as [channel|] eqn:Ef; [|symmetry; apply tick_idle, Ha].
    apply find_some in Ef. apply call_invoke_tick; [exact Hnd | exact Ha | tauto |].
    apply address_push. }
  destruct (Message._opcode message =? Opcode.CloseChannel).
  { destruct (find _ _) as [channel|] eqn:Ef; [|symmetry; apply tick_idle, Ha].
    apply find_some in Ef. apply call_invoke_tick; [exact Hnd | exact Ha | tauto |].
    apply address_end. }
  destruct (_ || _); symmetry; apply tick_idle; exact Ha.
Qed.

(** X22 on the close frame for the one channel of a connection: listener
    and tick take the channel and its queue out of the tables. *)
Lemma message_turn_is_listener_then_tick_instance :
  onMessage Sample.closeFrame true Sample.connection
  = option_map tick (onMessageBy invoke Sample.closeFrame true Sample.connection) /\
  option_map _channels (onMessage Sample.closeFrame true Sample.connection) = Some [] /\
  option_map (fun c => map Channel.destroyed (_channels c))
    (onMessageBy invoke Sample.closeFrame true Sample.connection) = Some [true].
Proof.
  split; [|split; reflexivity].
  apply (message_turn_is_listener_then_tick Sample.closeFrame true Sample.connection).
  - simpl. repeat constructor. simpl. tauto.
  - intros y [<-|[]]. reflexivity.
Defined.
End Turn.

(** ** The socket closes *)

Section TransportClose.
Import MultiplexWebSocket.

(** [end()] on a channel of the table on which no write has failed. *)
Lemma invoke_end (source : Dispatcher.Source) (pre rest : list Channel.t) (x : Channel.t)
    (c : t) :
  _channels c = pre ++ x :: rest ->
  NoDup (map Channel.address (pre ++ x :: rest)) ->
  (Channel.errored x = true -> Channel.destroyed x = true) ->
  invoke Channel.end_ x c
  = mk (Dispatcher.run source (_dispatcher c) (Session.closeMessages x)) (_id c)
       (pre ++ Session.ended x :: rest) (emitted c).
Proof.
  intros Et Hnd Hf. rewrite (invoke_fields Channel.end_ pre rest x c Et Hnd).
  unfold Channel.end_, Session.closeMessages, Session.ended.
  destruct (Channel.ending x), (Channel.errored x) eqn:Er, (Channel.destroyed x) eqn:Ed;
    simpl; try reflexivity.
  - specialize (Hf eq_refl). discriminate.
  - destruct (Channel.writing x); reflexivity.
Qed.

Lemma end_each (source : Dispatcher.Source) (rest pre : list Channel.t) (c : t) :
  _channels c = pre ++ rest ->
  NoDup (map Channel.address (pre ++ rest)) ->
  (forall x, In x rest -> Channel.errored x = true -> Channel.destroyed x = true) ->
  let c' := fold_left (fun c channel => invoke Channel.end_ channel c) rest c in
  _channels c' = pre ++ map Session.ended rest /\
  _dispatcher c'
    = Dispatcher.run source (_dispatcher c) (flat_map Session.closeMessages rest) /\
  emitted c' = emitted c /\
  _id c' = _id c.
Proof.
  revert pre c. induction rest as [|x rest IH]; intros pre c Et Hnd Hf; cbv zeta.
  - rewrite app_nil_r in Et. simpl. rewrite app_nil_r. repeat split; auto.
  - simpl fold_left.
    rewrite (invoke_end source pre rest x c Et Hnd (Hf x (or_introl eq_refl))).
    assert (Ea : Channel.address (Session.ended x) = Channel.address x).
    { unfold Session.ended. destruct (_ || _); [reflexivity|].
      destruct (Channel.writing x); reflexivity. }
    match goal with
    | |- context [fold_left _ rest ?c1] =>
        destruct (IH (pre ++ [Session.ended x]) c1) as (H1 & H2 & H3 & H4)
    end.
    + simpl. rewrite <- app_assoc. reflexivity.
    + rewrite <- app_assoc. simpl.
      rewrite (map_address_replace_cons pre rest x (Session.ended x) Ea). exact Hnd.
    + intros y Hy. apply Hf. right. exact Hy.
    + rewrite H1, H2, H3, H4. simpl flat_map. simpl _dispatcher. simpl map.
      unfold Dispatcher.run. rewrite fold_left_app, <- app_assoc. auto.
Qed.

(** X15. The ['close'] listener of the socket, and the tick after it.
    When the listener returns, every channel of the table on which [end]
    was not called before, which is not destroyed and has no write in
    progress, has queued one CloseChannel message, in the order of the
    table, and is destroyed; a channel with a write in progress is marked
    as ending; the others are as they were; all are still in the table,
    and the connection has emitted ['close'] once. On the next tick the
    destroyed channels leave the table, their queues leave the
    dispatcher's, and nothing else changes there. *)
Theorem socket_close_ends_idle_channels (source : Dispatcher.Source) (c : t) :
  Session.ok c ->
  let c' := onCloseBy invoke c in
  _channels c' = map Session.ended (_channels c) /\
  _dispatcher c'
    = Dispatcher.run source (_dispatcher c)
        (flat_map Session.closeMessages (_channels c)) /\
  emitted c' = emitted c ++ [EmitClose] /\
  _channels (tick c')
    = filter (fun x => negb (Channel.destroyed x)) (map Session.ended (_channels c)) /\
  map Session.queueKey (Dispatcher._queues (_dispatcher (tick c')))
    = map Session.channelKey (_channels (tick c')).
Proof.
  intros Hok c'.
  destruct (end_each source (_channels c) [] c eq_refl (ok_channel_addresses c Hok)
              (Session.ok_failed c Hok)) as (H1 & H2 & H3 & H4).
  assert (Hok' : Session.ok c')
    by (apply ok_emit, (ok_end_each (_channels c) [] c Hok eq_refl)).
  assert (E1 : _channels c' = map Session.ended (_channels c))
    by (unfold c', onCloseBy, emit; simpl; exact H1).
  split; [exact E1|]. split; [|split; [|split]].
  - unfold c', onCloseBy, emit. simpl. exact H2.
  - unfold c', onCloseBy, emit. simpl. rewrite H3. reflexivity.
  - rewrite <- E1. apply tick_channels, ok_channel_addresses, Hok'.
  - symmetry. apply (Session.ok_tables (tick c')), ok_tick, Hok'.
Qed.

(** X15 on a connection with a busy channel and an idle one. *)
Lemma socket_close_ends_idle_channels_instance :
  let c := Session.run Dispatcher.index_ts (new Sample.socket)
             [Session.AddChannel; Session.AddChannel; Session.ChannelWrite 0 [x01]] in
  let c' := onCloseBy invoke c in
  map Channel.destroyed (_channels c') = [false; true] /\
  map Message._opcode (Dispatcher._controlQueue (_dispatcher c')) = [Opcode.CloseChannel] /\
  emitted c' = [EmitClose] /\
  map Session.channelKey (_channels (tick c')) = [(0%nat, true, 0)] /\
  map Session.queueKey (Dispatcher._queues (_dispatcher (tick c'))) = [(0%nat, true, 0)].
Proof.
  intros c c'.
  destruct (socket_close_ends_idle_channels Dispatcher.index_ts c) as (H1 & H2 & H3 & H4 & H5).
  - apply (ok_run Dispatcher.index_ts
             [Session.AddChannel; Session.AddChannel; Session.ChannelWrite 0 [x01]]),
      ok_new.
  - fold c' in H1, H2, H3, H4, H5. rewrite H5, H4, H1, H2, H3. vm_compute. auto.
Defined.
End TransportClose.

(** ** Writes held back by the peer *)

Section Stall.
Import MultiplexWebSocketDispatcher Invariant.

(** One timer or socket event on a dispatcher with both loops idle. *)
Lemma idle_step (source : Source) (d : t) (event : Event) :
  queuesAwait d = None -> controlAwait d = None ->
  (exists amount state, event = Socket amount state) \/
  event = WakeControl \/ (exists now, event = WakeQueues now) ->
  queuesAwait (step source d event) = None /\
  controlAwait (step source d event) = None /\
  _queues (step source d event) = _queues d /\
  WebSocket.sent (_socket (step source d event)) = WebSocket.sent (_socket d) /\
  settled (step source d event) = settled d.
Proof.
  intros Eq Ec [(amount & state & ->)|[->|(now & ->)]]; simpl.
  - auto.
  - unfold wakeControl. rewrite Ec. auto.
  - unfold wakeQueues. rewrite Eq. auto.
Qed.

(** X18. [handleControlMessage] does not start the data loop. When the
    peer reports its buffer full or empty while both loops are idle, only
    the [remoteFull] flag of the queue changes; and then no timer and no
    change of the socket sends anything: the writes of the queue stay
    where they are, unsettled, until [send] or [sendControlMessage] is
    called again. *)
Theorem flow_signal_does_not_start_data_loop (source : Source) (local : bool)
    (id opcode : Z) (d : t) (events : list Event) :
  queuesAwait d = None ->
  controlAwait d = None ->
  Forall (fun event =>
            (exists amount state, event = Socket amount state) \/
            event = WakeControl \/ (exists now, event = WakeQueues now)) events ->
  let d' := run source (handleControlMessage local id opcode d) events in
  _queues d' = _queues (handleControlMessage local id opcode d) /\
  map Queue._queue (_queues d') = map Queue._queue (_queues d) /\
  WebSocket.sent (_socket d') = WebSocket.sent (_socket d) /\
  settled d' = settled d /\
  queuesAwait d' = None.
Proof.
  intros Eq Ec Hall.
  assert (H : forall events d0,
             queuesAwait d0 = None -> controlAwait d0 = None ->
             Forall (fun event =>
                       (exists amount state, event = Socket amount state) \/
                       event = WakeControl \/ (exists now, event = WakeQueues now))
                    events ->
             _queues (run source d0 events) = _queues d0 /\
             WebSocket.sent (_socket (run source d0 events)) = WebSocket.sent (_socket d0) /\
             settled (run source d0 events) = settled d0 /\
             queuesAwait (run source d0 events) = None).
  { clear. induction events as [|event events IH]; intros d0 Eq Ec Hall; simpl; [auto|].
    apply Forall_cons_iff in Hall. destruct Hall as [He Hall].
    destruct (idle_step source d0 event Eq Ec He) as (Hq & Hc & Ht & Hs & Hl).
    destruct (IH _ Hq Hc Hall) as (It & Is & Il & Iq).
    rewrite It, Is, Il, Iq, Ht, Hs, Hl. auto. }
  assert (E : queuesAwait (handleControlMessage local id opcode d) = None /\
              controlAwait (handleControlMessage local id opcode d) = None /\
              WebSocket.sent (_socket (handleControlMessage local id opcode d))
                = WebSocket.sent (_socket d) /\
              settled (handleControlMessage local id opcode d) = settled d /\
              map Queue._queue (_queues (handleControlMessage local id opcode d))
                = map Queue._queue (_queues d)).
  { unfold handleControlMessage. destruct (find _ _); simpl; auto 6.
    repeat split; auto. apply map_mutateAt. reflexivity. }
  destruct E as (Eq' & Ec' & Es & El & Em).
  destruct (H events _ Eq' Ec' Hall) as (It & Is & Il & Iq).
  cbv zeta. rewrite It, Is, Il, Iq, Es, El, Em. auto.
Qed.

(** X18 on a write accepted while the peer's buffer was full: the peer
    reports the buffer empty, time passes, and the write is still in the
    queue, which is pending. *)
Lemma flow_signal_does_not_start_data_loop_instance :
  let d := run index_ts (Sample.dispatcher true)
             [HandleControlMessage true 0 Opcode.ChannelBufferFull; Send true 0 [x01]] in
  let d' := run index_ts (handleControlMessage true 0 Opcode.ChannelBufferEmpty d)
              [WakeQueues 100; WakeControl; Socket 0 WebSocket.OPEN; WakeQueues 200] in
  _queues d' = [Queue.mk 0 true 0 [Task.mk 0 [x01]] false 0] /\
  map Queue.pending (_queues d') = [true] /\
  WebSocket.sent (_socket d') = [] /\
  settled d' = [] /\
  queuesAwait d' = None.
Proof.
  intros d d'.
  destruct (flow_signal_does_not_start_data_loop index_ts true 0 Opcode.ChannelBufferEmpty
              d [WakeQueues 100; WakeControl; Socket 0 WebSocket.OPEN; WakeQueues 200])
    as (Ht & _ & Hs & Hl & Hq); try reflexivity.
  - repeat apply Forall_cons; [| | | |apply Forall_nil].
    + right. right. exists 100. reflexivity.
    + right. left. reflexivity.
    + left. exists 0, WebSocket.OPEN. reflexivity.
    + right. right. exists 200. reflexivity.
  - fold d' in Ht, Hs, Hl, Hq. rewrite Ht, Hs, Hl, Hq. vm_compute. auto.
Defined.
End Stall.

(** ** Opening the socket *)

Section Connect.
Import ConnectWebSocket.

Lemma emits_detached (events : list SocketEvent) (s : t) :
  listening s = false -> fold_left emit events s = s.
Proof.
  intros E. induction events as [|event events IH]; simpl; [reflexivity|].
  unfold emit at 2. rewrite E. exact IH.
Qed.

(** X19. The promise of [connectWebSocket] is decided by the first event
    of the socket, and by nothing after it: resolved if the socket opens,
    rejected with the error of the event if it fails (with the fixed
    message when the event carries none); both handlers are detached from
    then on. Before any event it is pending. *)
Theorem connect_is_decided_by_first_event (event : SocketEvent)
    (events : list SocketEvent) :
  promise (emits []) = None /\
  listening (emits (event :: events)) = false /\
  promise (emits (event :: events))
    = Some match event with
           | open => resolved
           | error (Some reason) => rejected reason
           | error None => rejected "the WebSocket connection cannot be established"
           end.
Proof.
  split; [reflexivity|]. unfold emits. simpl fold_left.
  rewrite emits_detached by (destruct event; reflexivity).
  destruct event as [|[reason|]]; split; reflexivity.
Qed.
End Connect.

(** ** What goes out on the socket *)

Section Outbound.
Import MultiplexWebSocketDispatcher.

Lemma toBuffer_parses (m : Message.t) (buffer : list byte) :
  Message.toBuffer m = Some buffer -> exists m', Message.parse buffer = Some m'.
Proof.
  intros E.
  destruct (Z_le_dec 0 (Message._opcode m)) as [H0|H0];
    [destruct (Z_le_dec (Message._opcode m) 255) as [H1|H1]|];
    try (rewrite toBuffer_opcode_out_of_range in E by lia; discriminate).
  destruct (Z_le_dec 0 (Message._id m)) as [H2|H2];
    [destruct (Z_le_dec (Message._id m) 4294967295) as [H3|H3]|];
    try (rewrite toBuffer_out_of_range in E by lia; discriminate).
  eexists. apply (parse_toBuffer m buffer); [lia | lia | exact E].
Qed.

(** One event sends nothing, or one encoded message. *)
Lemma sent_step (source : Source) (d : t) (event : Event) :
  WebSocket.sent (_socket (step source d event)) = WebSocket.sent (_socket d) \/
  exists m buffer,
    Message.toBuffer m = Some buffer /\
    WebSocket.sent (_socket (step source d event)) = WebSocket.sent (_socket d) ++ [buffer].
Proof.
  destruct event; simpl.
  - destruct (sendControlMessage_fields local id opcode d) as (_ & _ & -> & _). auto.
  - unfold send. destruct (find _ _) as [queue|]; [|auto]. simpl.
    destruct (fields_processQueues
                (with_resolvers (S (resolvers d))
                   (with_queues
                      (Queue.mutate (Queue.address queue)
                         (Queue.enqueue (resolvers d) data) (_queues d)) d)))
      as (-> & _).
    auto.
  - auto.
  - unfold onClose. destruct (Queue.indexOf _ _); auto.
  - unfold handleControlMessage. destruct (find _ _); auto.
  - auto.
  - destruct (wakeControl_cases d)
      as [[_ ->]|(message & rest & Eq & Er & [->|(buffer & Eb & Es)])]; auto.
    destruct (send_sent _ _ _ Es) as [[_ E]|[_ E]]; [|auto].
    right. exists message, buffer. auto.
  - unfold wakeQueues.
    destruct (queuesAwait d) as [[[wait candidate] task]|]; [|auto].
    destruct (awaited _ _) as [[|]|]; [| |auto].
    + destruct (fields_processQueues_loop
                  (sendTask source now candidate task (with_queuesAwait None d)))
        as (_ & _ & -> & _).
      unfold sendTask.
      destruct (Message.toBuffer (frame source candidate task)) as [buffer|] eqn:Eb;
        simpl; [|auto].
      destruct (WebSocket.send buffer (_socket d)) as [socket|] eqn:Es; simpl; [|auto].
      destruct (send_sent _ _ _ Es) as [[_ E]|[_ E]]; [|auto].
      right. exists (frame source candidate task), buffer. auto.
    + destruct (fields_processQueues_loop (reject task (with_queuesAwait None d)))
        as (_ & _ & -> & _). auto.
Qed.

(** X20. Every message a dispatcher hands to the socket is one that
    [parse] accepts: whatever happens, the message listener of a peer that
    runs this code does not throw on what this side sends. *)
Theorem sent_messages_parse (source : Source) (amount : Z)
    (state : WebSocket.ReadyState) (events : list Event) :
  Forall (fun buffer => exists m, Message.parse buffer = Some m)
    (WebSocket.sent (_socket (run source (new (WebSocket.mk amount state [])) events))).
Proof.
  assert (H : forall events d,
             Forall (fun buffer => exists m, Message.parse buffer = Some m)
               (WebSocket.sent (_socket d)) ->
             Forall (fun buffer => exists m, Message.parse buffer = Some m)
               (WebSocket.sent (_socket (run source d events)))).
  { clear. induction events as [|event events IH]; intros d Hd; simpl; [exact Hd|].
    apply IH. destruct (sent_step source d event) as [->|(m & buffer & Eb & ->)];
      [exact Hd|].
    apply Forall_app. split; [exact Hd|]. constructor; [|constructor].
    exact (toBuffer_parses m buffer Eb). }
  apply H. constructor.
Qed.
End Outbound.

(** ** The ids of the channels of this side *)

Section ChannelIds.
Import MultiplexWebSocket.

Lemma id_onChannelClose (address : nat) (c : t) : _id (onChannelClose address c) = _id c.
Proof. unfold onChannelClose. destruct (Channel.indexOf _ _); reflexivity. Qed.

Lemma id_invoke (method : Channel.t -> Dispatcher.t -> Channel.t * Dispatcher.t)
    (x : Channel.t) (c : t) :
  _id (invoke method x c) = _id c.
Proof. unfold invoke. destruct (method x (_dispatcher c)) as [x' d']. reflexivity. Qed.

Lemma id_end_each (rest : list Channel.t) (c : t) :
  _id (fold_left (fun c channel => invoke Channel.end_ channel c) rest c) = _id c.
Proof.
  revert c. induction rest as [|x rest IH]; intros c; simpl; [reflexivity|].
  rewrite IH. apply id_invoke.
Qed.

Lemma id_tick (c : t) : _id (tick c) = _id c.
Proof.
  unfold tick. generalize (_channels c) as rest. intros rest. revert c.
  induction rest as [|x rest IH]; intros c; simpl; [reflexivity|].
  rewrite IH. destruct (Channel.destroyed x); [apply id_onChannelClose | reflexivity].
Qed.

Lemma id_step (source : Dispatcher.Source) (c : t) (event : Session.Event) :
  _id (Session.step source c event)
  = _id c + match event with Session.AddChannel => 1 | _ => 0 end.
Proof.
  destruct event; simpl; rewrite ?Z.add_0_r; try reflexivity.
  - unfold onMessageBy. destruct (Message.parse data) as [message|]; [|reflexivity].
    simpl.
    destruct (Message._opcode message =? Opcode.CreateChannel); [reflexivity|].
    destruct (Message._opcode message =? Opcode.Data).
    { destruct (find _ _); [apply id_invoke | reflexivity]. }
    destruct (Message._opcode message =? Opcode.CloseChannel).
    { destruct (find _ _); [apply id_invoke | reflexivity]. }
    destruct (_ || _); reflexivity.
  - unfold Session.onChannel. destruct (Session.at_ _ _); [apply id_invoke | reflexivity].
  - unfold Session.onChannel. destruct (Session.at_ _ _); [apply id_invoke | reflexivity].
  - unfold Session.onChannel. destruct (Session.at_ _ _); [apply id_invoke | reflexivity].
  - unfold onCloseBy. simpl. apply id_end_each.
  - unfold wakeQueuesBy.
    destruct (Dispatcher.queuesAwait (_dispatcher c)) as [[[wait candidate] task]|];
      [|reflexivity].
    destruct (status _ (Dispatcher.settled (Dispatcher.wakeQueues _ _ _)));
      [|reflexivity].
    destruct (status _ (Dispatcher.settled (_dispatcher c))); [reflexivity|].
    destruct (find _ _); [rewrite id_invoke|]; reflexivity.
  - apply id_tick.
Qed.

(** X21. [addChannel] numbers the channels of this side 0, 1, 2, ... in
    the order of the calls: the id the next one gets is the number of
    calls so far, whatever channels the peer has created, and whatever was
    written, received or closed in between. *)
Theorem addChannel_ids_count_calls (source : Dispatcher.Source) (socket : WebSocket.t)
    (events : list Session.Event) :
  let c := Session.run source (new socket) events in
  let calls :=
    filter (fun event => match event with Session.AddChannel => true | _ => false end)
      events in
  _id c = Z.of_nat (length calls) /\
  map Session.channelKey (_channels (addChannel c))
  = map Session.channelKey (_channels c)
    ++ [(Dispatcher.allocated (_dispatcher c), true, Z.of_nat (length calls))].
Proof.
  assert (H : forall events c,
             _id (Session.run source c events)
             = _id c
               + Z.of_nat
                   (length
                      (filter (fun event => match event with
                                            | Session.AddChannel => true
                                            | _ => false
                                            end) events))).
  { clear. induction events as [|event events IH]; intros c; simpl; [lia|].
    rewrite IH, id_step. destruct event; simpl length; lia. }
  cbv zeta. pose proof (H events (new socket)) as E.
  change (_id (new socket)) with 0 in E. rewrite Z.add_0_l in E. rewrite <- E.
  split; [reflexivity|].
  unfold addChannel. rewrite keys_initialzeChannel. reflexivity.
Qed.
End ChannelIds.
